(** * phy.cluster.manual: clustering utilities and the feature/mask store item

    A shallow embedding of [phy/cluster/manual/_utils.py] and of the store
    item and history glue of [phy/cluster/manual/session.py].

    Conventions.
    - numpy integer arrays are [list Z]; [np.diff] on an int64 array wraps
      around, which is written out with [wrap64].
    - numpy index arrays are [list nat]; fancy indexing [a[idx]] is
      [take_idx], which fails ([None], numpy's IndexError) out of range.
    - Python dictionaries are stdpp [gmap]s; [sorted(d)] is [sorted_keys].
    - the values of the feature and mask arrays, which the store item
      copies, are rationals [Q]; what [_store_extra_fields] computes from
      them is IEEE 754 floating point ([SpecFloat]), float32 for the masks
      and float64 for the positions.
    - Python exceptions are the [Raise] outcome of a small state-and-error
      monad; the state left behind by a raise is kept, since it is what the
      caller observes afterwards. *)

From Stdlib Require Import ZArith QArith Lia.
From Stdlib Require Import Floats.SpecFloat.
From stdpp Require Import base list sorting gmap strings.

Open Scope Z_scope.

(** ** numpy primitives *)

(** Two's complement wrap-around of int64 arithmetic. *)
Definition wrap64 (z : Z) : Z := (z + 2 ^ 63) mod 2 ^ 64 - 2 ^ 63.

(** [a[idx]] for an integer index array. *)
Definition take_idx {A} (a : list A) (idx : list nat) : option (list A) :=
  mapM (λ i, a !! i) idx.

(** [a[i:j]] for [0 <= i], [0 <= j]. *)
Definition slice {A} (a : list A) (i j : nat) : list A :=
  take (j - i) (drop i a).

(** [np.diff(a)] on an int64 array. *)
Fixpoint np_diff (a : list Z) : list Z :=
  match a with
  | x :: (y :: _) as t => wrap64 (y - x) :: np_diff t
  | _ => []
  end.

(** [np.nonzero(b)[0]]: the positions holding [True], ascending. *)
Fixpoint nonzero_from (k : nat) (b : list bool) : list nat :=
  match b with
  | [] => []
  | x :: t => (if x then [k] else []) ++ nonzero_from (S k) t
  end.

Definition nonzero (b : list bool) : list nat := nonzero_from 0 b.

(** [np.sort] on integers. *)
Definition np_sort (a : list Z) : list Z := merge_sort Z.le a.

(** A reference [np.argsort]: sort the (key, position) pairs by key.  numpy's
    default sort kind is not stable, so the functions below that call
    [np.argsort] also come in a [_with] form taking the sorting routine as
    an argument; [is_argsort] is all that numpy promises of it. *)
Definition key_le {A} (R : relation A) : relation (A * nat) :=
  λ p q, R p.1 q.1.

Global Instance key_le_dec {A} (R : relation A) `{!RelDecision R} :
  RelDecision (key_le R).
Proof. intros p q. unfold key_le. apply _. Defined.

Global Instance key_le_total : Total (key_le Z.le).
Proof. intros p q. unfold key_le. lia. Qed.

Definition argsort {A} (R : relation A) `{!RelDecision R} (a : list A)
  : list nat :=
  (merge_sort (key_le R) (zip a (seq 0 (length a)))).*2.

Definition is_argsort {A} (R : relation A) (rel : list nat) (a : list A)
  : Prop :=
  rel ≡ₚ seq 0 (length a) ∧ ∃ s, take_idx a rel = Some s ∧ Sorted R s.

(** [np.in1d(a, b)] *)
Definition in1d (a b : list Z) : list bool :=
  (λ x, bool_decide (x ∈ b)) <$> a.

(** [np.concatenate(arrays)]: an empty sequence of arrays is a ValueError. *)
Definition np_concatenate {A} (arrays : list (list A)) : option (list A) :=
  match arrays with
  | [] => None
  | _ => Some (concat arrays)
  end.

(** [sorted(d)] for a dictionary with integer keys. *)
Definition sorted_keys {V} (d : gmap Z V) : list Z :=
  merge_sort Z.le (elements (dom d)).

(** [np.bincount(x)] on an integer array: the number of occurrences of each
    value from 0 to the largest one; a negative value is a ValueError. *)
Definition np_bincount (x : list Z) : option (list nat) :=
  match x with
  | [] => Some []
  | _ :: _ =>
    if bool_decide (Forall (λ v, 0 ≤ v) x) then
      Some (foldl (λ counts v, alter S (Z.to_nat v) counts)
                  (replicate (S (Z.to_nat (foldr Z.max 0 x))) 0%nat) x)
    else None
  end.

(** The float64 nearest to an integer, ties to even: numpy's conversion of
    an int64 to float64, exact up to [2 ^ 53] in absolute value. *)
Definition float64_of_int (z : Z) : Z :=
  let a := Z.abs z in
  let e := Z.log2 a - 52 in
  if bool_decide (e ≤ 0) then z
  else
    let q := a / 2 ^ e in
    let r := a mod 2 ^ e in
    let half := 2 ^ (e - 1) in
    let q' := if bool_decide (r < half) then q
              else if bool_decide (half < r) then q + 1
              else if Z.even q then q else q + 1 in
    Z.sgn z * (q' * 2 ^ e).

(** [.astype(np.int64)] of an integer-valued float64.  Out of the range of
    int64 the conversion is undefined in C; x86-64 gives the smallest int64. *)
Definition astype_int64 (v : Z) : Z :=
  if bool_decide (- 2 ^ 63 ≤ v < 2 ^ 63) then v else - 2 ^ 63.

(** ** _utils.py *)

(** [_unique(x)]; [None] is the ValueError of [np.bincount]. *)
Definition _unique (x : list Z) : option (list nat) :=
  if bool_decide (length x = 0%nat) then Some []
  else counts ← np_bincount x;
       Some (nonzero ((λ n, bool_decide (n ≠ 0%nat)) <$> counts)).

(** [_spikes_in_clusters(spike_clusters, clusters)] *)
Definition _spikes_in_clusters (spike_clusters clusters : list Z) : list nat :=
  if bool_decide (length spike_clusters = 0%nat ∨ length clusters = 0%nat)
  then []
  else nonzero (in1d spike_clusters clusters).

(** [_spikes_per_cluster(spike_ids, spike_clusters)], with [np.argsort] as a
    parameter.  [None] is the IndexError of [diff[0] = 1] on an empty array
    or of an index out of range. *)
Definition _spikes_per_cluster_with (np_argsort : list Z → list nat)
    (spike_ids spike_clusters : list Z) : option (gmap Z (list Z)) :=
  let rel_spikes := np_argsort spike_clusters in
  abs_spikes ← take_idx spike_ids rel_spikes;
  spike_clusters ← take_idx spike_clusters rel_spikes;
  match spike_clusters with
  | [] => None
  | _ :: _ =>
    let diff := 1 :: np_diff spike_clusters in
    let idx := nonzero ((λ d, bool_decide (0 < d)) <$> diff) in
    clusters ← take_idx spike_clusters idx;
    items ← mapM (λ i,
               c ← clusters !! i;
               a ← idx !! i;
               b ← idx !! S i;
               Some (c, np_sort (slice abs_spikes a b)))
             (seq 0 (length clusters - 1));
    let spikes_in_clusters :=
      foldl (λ (d : gmap Z (list Z)) kv, <[kv.1 := kv.2]> d) ∅ items in
    c_last ← last clusters;
    i_last ← last idx;
    Some (<[c_last := np_sort (drop i_last abs_spikes)]> spikes_in_clusters)
  end.

Definition _spikes_per_cluster (spike_ids spike_clusters : list Z)
  : option (gmap Z (list Z)) :=
  _spikes_per_cluster_with (argsort Z.le) spike_ids spike_clusters.

(** [_flatten_spikes_per_cluster(spikes_per_cluster)], with [np.argsort] as
    a parameter; the values of the dictionary are int64 arrays, as
    [_spikes_per_cluster] builds them.  [None] is numpy's ValueError. *)
Definition _flatten_spikes_per_cluster_with (np_argsort : list Z → list nat)
    (spikes_per_cluster : gmap Z (list Z)) : option (list Z) :=
  let clusters := sorted_keys spikes_per_cluster in
  clusters_arr ←
    mapM (λ cluster, sp ← spikes_per_cluster !! cluster;
                     Some (replicate (length sp) (float64_of_int cluster)))
         clusters ≫= np_concatenate;
  let clusters_arr := astype_int64 <$> clusters_arr in
  spikes_arr ← mapM (λ cluster, spikes_per_cluster !! cluster) clusters
                 ≫= np_concatenate;
  if bool_decide (length spikes_arr = length clusters_arr) then
    let ind := np_argsort spikes_arr in
    take_idx clusters_arr ind
  else None.

Definition _flatten_spikes_per_cluster (spikes_per_cluster : gmap Z (list Z))
  : option (list Z) :=
  _flatten_spikes_per_cluster_with (argsort Z.le) spikes_per_cluster.

(** [_concatenate_per_cluster_arrays(spikes_per_cluster, arrays)], with
    [np.argsort] as a parameter.  A row of an array is an element of [A].
    [None] is a failed [assert], a KeyError or numpy's ValueError. *)
Definition _concatenate_per_cluster_arrays_with {A}
    (np_argsort : list Z → list nat)
    (spikes_per_cluster : gmap Z (list Z)) (arrays : gmap Z (list A))
  : option (list A) :=
  if bool_decide (dom arrays ⊆ dom spikes_per_cluster) then
    let clusters := sorted_keys arrays in
    n_0 ← mapM (λ c, length <$> spikes_per_cluster !! c) clusters;
    n_1 ← mapM (λ c, length <$> arrays !! c) clusters;
    if bool_decide (n_0 = n_1) then
      spikes ← mapM (λ c, spikes_per_cluster !! c) clusters ≫= np_concatenate;
      let idx := np_argsort spikes in
      arrays ← mapM (λ c, arrays !! c) clusters ≫= np_concatenate;
      take_idx arrays idx
    else None
  else None.

Definition _concatenate_per_cluster_arrays {A}
    (spikes_per_cluster : gmap Z (list Z)) (arrays : gmap Z (list A))
  : option (list A) :=
  _concatenate_per_cluster_arrays_with (argsort Z.le) spikes_per_cluster arrays.

(** The fields of an [UpdateInfo] record that a cluster selection reads:
    the lists of the new and of the deleted clusters. *)
Record UpdateInfo := { added : list Z; deleted : list Z }.

(** [_update_cluster_selection(clusters, up)] *)
Definition _update_cluster_selection (clusters : list Z) (up : UpdateInfo)
  : list Z :=
  let clusters := filter (λ clu, clu ∉ deleted up) clusters in
  clusters ++ filter (λ clu, clu ∉ clusters) (added up).

(** [update_info] with keyword arguments: a [Bunch] is a dictionary; every
    key gets its default, then the keyword arguments override.  [pyval] are
    the values such a record holds. *)
Inductive pyval :=
| PyNone
| PyStr (s : string)
| PyInt (z : Z)
| PyList (l : list Z)
| PyPairs (l : list (Z * Z))
| PyDict (d : gmap Z (list Z)).

Definition update_info_defaults : gmap string pyval :=
  list_to_map
    [("description", PyNone); ("history", PyNone); ("spikes", PyList []);
     ("added", PyList []); ("deleted", PyList []); ("descendants", PyPairs []);
     ("metadata_changed", PyList []); ("metadata_value", PyNone);
     ("old_spikes_per_cluster", PyDict ∅);
     ("new_spikes_per_cluster", PyDict ∅)]%string.

(** [d.update(other)]: the keys of [other] win. *)
Definition dict_update {V} (d other : gmap string V) : gmap string V :=
  other ∪ d.

Definition update_info (kwargs : gmap string pyval) : gmap string pyval :=
  dict_update update_info_defaults kwargs.

(** ** session.py: exceptions, stores and the monad of the store item *)

Inductive exn :=
| IndexError | KeyError | ValueError | TypeError | AttributeError
| NotImplementedError.

Inductive result (A : Type) :=
| Ok (a : A)
| Raise (e : exn).
Arguments Ok {A} a.
Arguments Raise {A} e.

(** An array whose first axis indexes the spikes of a cluster: the shape as
    stored, and one flattened row per index of the first axis. *)
Record ndarray := NdArray { shape : list nat; rows : list (list Q) }.

(** [np.zeros(shape)] *)
Definition np_zeros (shape : list nat) : ndarray :=
  match shape with
  | [] => NdArray [] []
  | n :: rest =>
    NdArray shape (replicate n (replicate (foldr Nat.mul 1%nat rest) 0%Q))
  end.

(** The fields [_store_extra_fields] keeps in the memory store. *)
Record extra_fields := ExtraFields {
  mean_masks : list spec_float;
  sum_masks : list spec_float;
  n_unmasked_channels : nat;
  mean_probe_position : list spec_float;
  main_channels : list nat }.

(** Modelled from the spec: ProgressReporter (utils/event.py is absent).  The
    progress sink is synchronous and only receives notifications, so it is
    modelled by the trace of the calls made to it. *)
Inductive pr_call :=
| PrSetMax (features_masks masks_extra : nat)
| PrIncrement (name : string) (increment : nat).

(** Modelled from the spec: ClusterStore's disk and memory stores (store.py
    is absent).  The disk store holds one array per (cluster, field); the
    memory store holds the derived fields of a cluster; a cluster file opened
    with [cluster_file] is a handle that stays in [handles] until closed. *)
Record state := State {
  disk_store : gmap (Z * string) ndarray;
  memory_store : gmap Z extra_fields;
  handles : gset nat;
  warnings : list (string * Z);
  progress : list pr_call }.

Definition M (A : Type) : Type := state → result A * state.

Definition ret {A} (a : A) : M A := λ s, (Ok a, s).
Definition raise {A} (e : exn) : M A := λ s, (Raise e, s).
Definition bind {A B} (m : M A) (k : A → M B) : M B :=
  λ s, match m s with
       | (Ok a, s') => k a s'
       | (Raise e, s') => (Raise e, s')
       end.
Definition lift {A} (r : result A) : M A := λ s, (r, s).

Notation "'do' x <- m ; k" := (bind m (λ x, k))
  (at level 10, x name, m at level 100, k at level 200,
   format "'[v' 'do'  x  <-  m ; '/' k ']'").
Notation "m ;; k" := (bind m (λ _, k))
  (at level 100, k at level 200, right associativity).

Fixpoint foldlM {A B} (f : B → A → M B) (b : B) (l : list A) : M B :=
  match l with
  | [] => ret b
  | x :: l => do b' <- f b x; foldlM f b' l
  end.

(** [self.disk_store.load(cluster, name)]: [None] when there is no entry. *)
Definition disk_load (cluster : Z) (name : string) : M (option ndarray) :=
  λ s, (Ok (disk_store s !! (cluster, name)), s).

(** [self.disk_store.store(cluster, name=arr)] *)
Definition disk_store_ (cluster : Z) (name : string) (arr : ndarray) : M unit :=
  λ s, (Ok tt, State (<[(cluster, name) := arr]> (disk_store s))
                     (memory_store s) (handles s) (warnings s) (progress s)).

(** [self.memory_store.store(cluster, fields...)] *)
Definition memory_store_ (cluster : Z) (fields : extra_fields) : M unit :=
  λ s, (Ok tt, State (disk_store s) (<[cluster := fields]> (memory_store s))
                     (handles s) (warnings s) (progress s)).

(** [warn(...)] of utils.logging: the message names the field and cluster. *)
Definition warn (name : string) (cluster : Z) : M unit :=
  λ s, (Ok tt, State (disk_store s) (memory_store s) (handles s)
                     (warnings s ++ [(name, cluster)]) (progress s)).

(** [self.disk_store.cluster_file(cluster, 'a')]: a new open handle. *)
Definition cluster_file (cluster : Z) : M nat :=
  λ s, let f := fresh (handles s) in
       (Ok f, State (disk_store s) (memory_store s) ({[f]} ∪ handles s)
                    (warnings s) (progress s)).

(** [f.close()] *)
Definition close (f : nat) (s : state) : state :=
  State (disk_store s) (memory_store s) (handles s ∖ {[f]})
        (warnings s) (progress s).

(** A call on the progress reporter, made only when one is attached. *)
Definition report (pr : bool) (c : pr_call) : M unit :=
  λ s, if pr
       then (Ok tt, State (disk_store s) (memory_store s) (handles s)
                          (warnings s) (progress s ++ [c]))
       else (Ok tt, s).

(** [arr[i, ...] = data]: an index out of range is an IndexError; data of
    another size is a ValueError, unless it is a single value, which numpy
    broadcasts over the row. *)
Definition setitem (arr : ndarray) (i : nat) (data : list Q) : result ndarray :=
  match rows arr !! i with
  | None => Raise IndexError
  | Some old =>
    if bool_decide (length data = length old)
    then Ok (NdArray (shape arr) (<[i := data]> (rows arr)))
    else match data with
         | [x] => Ok (NdArray (shape arr)
                        (<[i := replicate (length old) x]> (rows arr)))
         | _ => Raise ValueError
         end
  end.

(** The same on the HDF5 array of entry (cluster, name), which writes
    through to the disk store. *)
Definition disk_setitem (cluster : Z) (name : string) (i : nat)
    (data : list Q) : M unit :=
  do arr <- disk_load cluster name;
  match arr with
  | None => raise KeyError
  | Some arr => do arr' <- lift (setitem arr i data);
                disk_store_ cluster name arr'
  end.

(** The model of the data set: what the store item reads from [self.model]. *)
Record Model := {
  spike_clusters : list Z;
  model_features_masks : list (list (Q * Q));
  n_channels : nat;
  nfeatures_per_channel : nat;
  probe_positions : list (list Q) }.

(** ** FeatureMasks *)

Definition all_zero (row : list Q) : bool := forallb (λ x, Qeq_bool x 0) row.

(** [arr[0]] and [arr[-1]] *)
Definition first_row (arr : ndarray) : result (list Q) :=
  match rows arr !! 0%nat with Some r => Ok r | None => Raise IndexError end.
Definition last_row (arr : ndarray) : result (list Q) :=
  match last (rows arr) with Some r => Ok r | None => Raise IndexError end.

(** [FeatureMasks._prepare_file(name, cluster, shape, dtype)] *)
Definition _prepare_file (name : string) (cluster : Z) (shape_ : list nat)
  : M bool :=
  do arr <- disk_load cluster name;
  do keep <-
    match arr with
    | Some arr =>
      if bool_decide (shape arr = shape_) then
        do r0 <- lift (first_row arr);
        do probe <- (if all_zero r0
                     then do r1 <- lift (last_row arr); ret (all_zero r1)
                     else ret false);
        if (probe : bool) then warn name cluster;; ret false else ret true
      else ret false
    | None => ret false
    end;
  if (keep : bool) then ret false
  else disk_store_ cluster name (np_zeros shape_);; ret true.

(** [FeatureMasks._clusters_to_store(spikes_per_cluster)] *)
Definition _clusters_to_store (m : Model) (spikes_per_cluster : gmap Z (list Z))
  : M (gmap Z (gmap string bool)) :=
  let sizes := length <$> spikes_per_cluster in
  foldlM (λ to_store cluster,
            let n_spikes := default 0%nat (sizes !! cluster) in
            do masks <- _prepare_file "masks" cluster
                          [n_spikes; n_channels m];
            do features <- _prepare_file "features" cluster
                          [n_spikes; n_channels m; nfeatures_per_channel m];
            ret (<[cluster := <["features" := features]>
                                 (<["masks" := masks]> ∅)]> to_store))
         ∅ (sorted_keys sizes).

(** [np.intersect1d(a, b)]: the sorted, unique values that are in both. *)
Definition intersect1d (a b : list nat) : list nat :=
  merge_sort le (remove_dups (filter (λ x, x ∈ b) a)).

(** *** Floating-point arithmetic

    The arithmetic of [_store_extra_fields] is numpy's: IEEE 754 binary
    floating point, as the Standard Library specifies it ([SpecFloat]).  A
    number is a signed zero, a signed infinity, nan, or the finite number
    (-1)^s * m * 2^e, and every operation rounds to nearest, ties to even.
    [prec] is the number of bits of the mantissa and [emax] the exponent of
    the infinities: 24 and 128 for float32, 53 and 1024 for float64. *)
Section floats.
Variables prec emax : Z.

(** The float nearest to a rational: what an array of this precision holds
    where the value was written; a value the precision represents is
    kept. *)
Definition float_of_Q (q : Q) : spec_float :=
  match Qnum q with
  | Z0 => S754_zero false
  | Zpos n =>
    SFdiv prec emax (S754_finite false n 0) (S754_finite false (Qden q) 0)
  | Zneg n =>
    SFdiv prec emax (S754_finite true n 0) (S754_finite false (Qden q) 0)
  end.

(** [float(n)] and the conversion of a count by numpy. *)
Definition float_of_nat (n : nat) : spec_float :=
  binary_normalize prec emax (Z.of_nat n) 0 false.

(** [x.astype(...)] from another precision. *)
Definition astype_float (x : spec_float) : spec_float :=
  match x with
  | S754_finite s m e => binary_round prec emax s m e
  | _ => x
  end.

(** numpy's pairwise summation, which [np.add.reduce] runs on a contiguous
    run of numbers: fewer than 8 are added in order; up to 128 are added
    into 8 accumulators which are then added in pairs, the numbers left over
    last; more are split in two halves, the first of a length that is a
    multiple of 8. *)
Definition pairwise_block (a : list spec_float) : spec_float :=
  let n := length a in
  let r := foldl (zip_with (SFadd prec emax)) (take 8 a)
             ((λ i, take 8 (drop (8 * i) a)) <$> seq 1 (n / 8 - 1)) in
  let res :=
    match r with
    | [r0; r1; r2; r3; r4; r5; r6; r7] =>
      SFadd prec emax
        (SFadd prec emax (SFadd prec emax r0 r1) (SFadd prec emax r2 r3))
        (SFadd prec emax (SFadd prec emax r4 r5) (SFadd prec emax r6 r7))
    | _ => S754_zero false
    end in
  foldl (SFadd prec emax) res (drop (n - n mod 8) a).

(** The recursion halves the run, so [fuel] at least the length of the run
    is never used up ([pairwise_sum_fuel]). *)
Fixpoint pairwise_sum (fuel : nat) (a : list spec_float) : spec_float :=
  let n := length a in
  if bool_decide (n < 8)%nat then foldl (SFadd prec emax) (S754_zero false) a
  else if bool_decide (n ≤ 128)%nat then pairwise_block a
  else match fuel with
       | O => S754_zero false
       | S fuel =>
         let n2 := (n / 2 - (n / 2) mod 8)%nat in
         SFadd prec emax (pairwise_sum fuel (take n2 a))
                         (pairwise_sum fuel (drop n2 a))
       end.

(** [a.sum(axis=0)] of a two-dimensional C-contiguous array with [ncols]
    columns: the result starts from zero and the rows are added to it one
    after the other; a single column is a contiguous run, which is summed
    pairwise. *)
Definition np_sum_axis0 (ncols : nat) (a : list (list spec_float))
  : list spec_float :=
  if bool_decide (ncols = 1%nat)
  then let run := concat a in
       [SFadd prec emax (S754_zero false) (pairwise_sum (length run) run)]
  else foldl (zip_with (SFadd prec emax))
             (replicate ncols (S754_zero false)) a.

(** [a.mean(axis=0)]: the sum divided by the number of rows. *)
Definition np_mean_axis0 (ncols : nat) (a : list (list spec_float))
  : list spec_float :=
  (λ x, SFdiv prec emax x (float_of_nat (length a))) <$> np_sum_axis0 ncols a.

End floats.

(** The rational a finite float stands for, in lowest terms. *)
Definition float_value (x : spec_float) : option Q :=
  match x with
  | S754_zero _ => Some 0%Q
  | S754_finite s m e =>
    let n := if s then Zneg m else Zpos m in
    Some (Qred (if bool_decide (0 ≤ e) then inject_Z (n * 2 ^ e)
                else Qmake n (Z.to_pos (2 ^ (- e)))))
  | _ => None
  end.

(** The order of [np.sort] and [np.argsort] on floats: by value, nan last. *)
Definition np_float_le (x y : spec_float) : Prop :=
  match y with
  | S754_nan => True
  | _ => SFleb x y = true
  end.

Global Instance np_float_le_dec : RelDecision np_float_le.
Proof. intros x y. unfold np_float_le. destruct y; apply _. Defined.

(** [positions * mean_masks[:, np.newaxis]] on float64: row [c] of
    [positions] times weight [c]; when the numbers of rows and of weights
    differ, numpy broadcasts the one that is 1 and raises ValueError if none
    is. *)
Definition mul_column (positions : list (list spec_float)) (w : list spec_float)
  : result (list (list spec_float)) :=
  let scale (pos : list spec_float) (x : spec_float) : list spec_float :=
    (λ y, SFmul 53 1024 y x) <$> pos in
  if bool_decide (length positions = length w) then
    Ok (zip_with scale positions w)
  else match positions, w with
       | [pos], _ => Ok (scale pos <$> w)
       | _, [x] => Ok ((λ pos, scale pos x) <$> positions)
       | _, _ => Raise ValueError
       end.

(** The threshold [1e-3] above which a channel counts as unmasked: the
    Python float, which numpy converts to the float32 of the array it is
    compared with. *)
Definition mask_threshold : spec_float :=
  astype_float 24 128 (float_of_Q 53 1024 (1 # 1000)).

(** The pure part of [FeatureMasks._store_extra_fields]: the fields computed
    from the [masks] array of a cluster, a two-dimensional float32 array (the
    type [_clusters_to_store] gives it), with the positions of the probe a
    float64 (or integer) array given by its rows.  [sum_masks] and
    [mean_masks] are float32; the product with the positions and
    [mean_probe_position] are float64.  An array without a row gives nan:
    numpy divides zero by zero. *)
Definition extra_fields_of (m : Model) (masks : ndarray) : result extra_fields :=
  match shape masks with
  | [n; ncols] =>
    let masks32 :=
      (λ row : list Q, float_of_Q 24 128 <$> row) <$> rows masks in
    let sum_masks := np_sum_axis0 24 128 ncols masks32 in
    let mean_masks :=
      (λ x, SFdiv 24 128 x (astype_float 24 128 (float_of_nat 53 1024 n)))
        <$> sum_masks in
    let unmasked_channels :=
      nonzero ((λ x, SFltb mask_threshold x) <$> mean_masks) in
    let n_unmasked_channels := length unmasked_channels in
    let positions :=
      (λ row : list Q, float_of_Q 53 1024 <$> row) <$> probe_positions m in
    match mul_column positions (astype_float 53 1024 <$> mean_masks) with
    | Ok weighted =>
      let mean_probe_position :=
        np_mean_axis0 53 1024 (length (hd [] positions)) weighted in
      let main_channels :=
        intersect1d (reverse (argsort np_float_le mean_masks))
                    unmasked_channels in
      Ok (ExtraFields mean_masks sum_masks n_unmasked_channels
                      mean_probe_position main_channels)
    | Raise e => Raise e
    end
  | _ => Raise ValueError
  end.

(** [FeatureMasks._store_extra_fields(cluster, features, masks)]; the
    arguments are what [disk_store.load] returned. *)
Definition _store_extra_fields (m : Model) (cluster : Z)
    (features masks : option ndarray) : M unit :=
  match masks with
  | None => raise AttributeError
  | Some masks =>
    do fields <- lift (extra_fields_of m masks);
    memory_store_ cluster fields
  end.

(** [a[0:n:step]] for a positive step: [skip] elements are passed over
    before the next one is taken. *)
Fixpoint stride_from {A} (step skip : nat) (a : list A) : list A :=
  match a with
  | [] => []
  | x :: t =>
    match skip with
    | O => x :: stride_from step (step - 1) t
    | S k => stride_from step k t
    end
  end.

Definition stride {A} (step : nat) (a : list A) : list A :=
  stride_from step 0 a.

(** [_data(name, spike)] of [store_all_clusters]: the slice of
    [model.features_masks] copied for a spike. *)
Definition _data (m : Model) (name : string) (spike : nat) : result (list Q) :=
  match model_features_masks m !! spike with
  | None => Raise IndexError
  | Some fm_spike =>
    let n := (nfeatures_per_channel m * n_channels m)%nat in
    if bool_decide (name = "features") then
      let v := (take n fm_spike).*1 in
      if bool_decide (length v = n) then Ok v else Raise ValueError
    else if bool_decide (name = "masks") then
      if bool_decide (nfeatures_per_channel m = 0%nat) then Raise ValueError
      else Ok (stride (nfeatures_per_channel m) (take n fm_spike)).*2
    else Raise TypeError
  end.

(** The local dictionaries of [store_all_clusters].  [arrays[name][cluster]]
    is the HDF5 array of entry (cluster, name): a reference into the disk
    store, filled together with [files[name][cluster]]; writing to it is
    [disk_setitem]. *)
Record locals := Locals {
  files : gmap (string * Z) nat;
  cursors : gmap (string * Z) nat }.

Definition names : list string := ["masks"; "features"]%string.

(** [_arr(cluster, name)] *)
Definition _arr (lv : locals) (cluster : Z) (name : string) : M locals :=
  match files lv !! (name, cluster) with
  | Some _ => ret lv
  | None => do f <- cluster_file cluster;
            ret (Locals (<[(name, cluster) := f]> (files lv)) (cursors lv))
  end.

Definition to_store_get (to_store : gmap Z (gmap string bool))
    (cluster : Z) (name : string) : result bool :=
  match to_store !! cluster ≫= (λ t, t !! name) with
  | Some b => Ok b
  | None => Raise KeyError
  end.

(** [to_store[cluster]['masks'] or to_store[cluster]['features']]; both keys
    are present for every cluster of [to_store]. *)
Definition needs_store (to_store : gmap Z (gmap string bool)) (cluster : Z)
  : bool :=
  match to_store_get to_store cluster "masks",
        to_store_get to_store cluster "features" with
  | Ok a, Ok b => a || b
  | Ok true, _ => true
  | _, _ => false
  end.

(** The body of the loop over the field names, for one spike. *)
Definition store_field (m : Model) (to_store : gmap Z (gmap string bool))
    (cluster : Z) (spike : nat) (lv : locals) (name : string) : M locals :=
  do flag <- lift (to_store_get to_store cluster name);
  if (flag : bool) then
    do data <- lift (_data m name spike);
    do lv <- _arr lv cluster name;
    let i := default 0%nat (cursors lv !! (name, cluster)) in
    disk_setitem cluster name i data;;
    ret (Locals (files lv) (<[(name, cluster) := S i]> (cursors lv)))
  else ret lv.

(** The body of the loop over all spikes. *)
Definition store_spike (m : Model) (pr : bool)
    (to_store : gmap Z (gmap string bool))
    (lv : locals) (it : nat * nat) : M locals :=
  let '(iteration, spike) := it in
  do cluster <- lift (match spike_clusters m !! spike with
                      | Some c => Ok c
                      | None => Raise IndexError
                      end);
  do lv <- foldlM (store_field m to_store cluster spike) lv names;
  (if pr && bool_decide ((iteration mod 100)%nat = 0%nat)
   then report pr (PrIncrement "features_masks" 100)
   else ret tt);;
  ret lv.

(** The body of the loop storing the extra fields. *)
Definition store_extra (m : Model) (pr : bool) (_ : unit) (cluster : Z)
  : M unit :=
  do features <- disk_load cluster "features";
  do masks <- disk_load cluster "masks";
  _store_extra_fields m cluster features masks;;
  report pr (PrIncrement "masks_extra" 1).

(** Closing every file of [files]. *)
Definition close_all (fs : gmap (string * Z) nat) : M unit :=
  λ s, (Ok tt, map_fold (λ _ f s, close f s) s fs).

(** [FeatureMasks.store_all_clusters(spikes_per_cluster)]; [pr] tells whether
    a progress reporter is attached. *)
Definition store_all_clusters (m : Model) (pr : bool)
    (spikes_per_cluster : gmap Z (list Z)) : M unit :=
  do to_store <- _clusters_to_store m spikes_per_cluster;
  let n_clusters := size spikes_per_cluster in
  let clusters :=
    filter (λ cluster, needs_store to_store cluster = true)
           (sorted_keys to_store) in
  let spikes := _spikes_in_clusters (spike_clusters m) clusters in
  let n_spikes := length spikes in
  report pr (PrSetMax n_spikes n_clusters);;
  do lv <- foldlM (store_spike m pr to_store) (Locals ∅ ∅)
                  (zip (seq 0 n_spikes) spikes);
  foldlM (store_extra m pr) tt (sorted_keys spikes_per_cluster);;
  close_all (files lv).

(** [_process_ups(ups)]; [Ok None] is the bare [return]. *)
Definition _process_ups (ups : list (gmap string pyval))
  : result (option (gmap string pyval)) :=
  match ups with
  | [] => Ok None
  | [up] => Ok (Some up)
  | [up; up1] => Ok (Some (dict_update up up1))
  | _ => Raise NotImplementedError
  end.

(** ** Reference definitions following the specification *)

(** The weighted centroid of the channel positions, in exact arithmetic:
    the sum over the channels of weight times position, divided by the sum
    of the weights. *)
Definition weighted_centroid_spec (positions : list (list Q))
    (weights : list Q) : list Q :=
  let total := foldr Qplus 0%Q weights in
  (λ x, x / total)%Q <$>
    foldl (zip_with Qplus) (replicate (length (hd [] positions)) 0%Q)
      (zip_with (λ pos w, (λ x, x * w)%Q <$> pos) positions weights).

(** The unmasked channels ordered by descending mean mask. *)
Definition is_unmasked (mean_masks : list spec_float) (c : nat) : bool :=
  match mean_masks !! c with
  | Some x => SFltb mask_threshold x
  | None => false
  end.

Definition main_channels_spec (mean_masks : list spec_float) : list nat :=
  filter (λ c, is_unmasked mean_masks c = true)
         (reverse (argsort np_float_le mean_masks)).

(** ** Predicates of the statements about [_utils.py] *)

(** The spike ids carrying the label [c], in the order of [spike_ids]. *)
Definition ids_of (c : Z) (spike_ids spike_clusters : list Z) : list Z :=
  (filter (λ p, p.2 = c) (zip spike_ids spike_clusters)).*1.

(** The rows of [arrays], each with the spike id it belongs to: row [j] of
    [arrays[cluster]] belongs to spike [spikes_per_cluster[cluster][j]]. *)
Definition labelled_rows {A} (spikes_per_cluster : gmap Z (list Z))
    (arrays : gmap Z (list A)) : list (Z * A) :=
  sorted_keys arrays ≫=
    (λ c, zip (default [] (spikes_per_cluster !! c))
              (default [] (arrays !! c))).

(** A run of a sorted label array: its label, and the ids it carries, of
    which there is at least one. *)
Definition run : Type := Z * (Z * list Z).
Definition run_label (g : run) : Z := g.1.
Definition run_ids (g : run) : list Z := g.2.1 :: g.2.2.

Definition cls_of (gs : list run) : list Z :=
  gs ≫= (λ g, replicate (length (run_ids g)) (run_label g)).
Definition abs_of (gs : list run) : list Z := gs ≫= run_ids.

(** Where the runs start, the first one at [k]. *)
Fixpoint offsets (k : nat) (gs : list run) : list nat :=
  match gs with
  | [] => []
  | g :: gs => k :: offsets (k + length (run_ids g)) gs
  end.

(** [np.diff] seen from the element before. *)
Fixpoint diff_from (prev : Z) (a : list Z) : list Z :=
  match a with
  | [] => []
  | x :: t => wrap64 (x - prev) :: diff_from x t
  end.

(** [diff > 0] on the runs: true where a run starts. *)
Definition flags_of (gs : list run) : list bool :=
  gs ≫= (λ g, true :: replicate (length g.2.2) false).

(** The items of the dictionary, one per run. *)
Definition run_items (gs : list run) : list (Z * list Z) :=
  (λ g, (run_label g, np_sort (run_ids g))) <$> gs.

(** The number of occurrences of [k] in [x]. *)
Definition count_of (k : nat) (x : list Z) : nat :=
  length (filter (λ v, Z.to_nat v = k) x).

(** The label array of each cluster, as [_flatten_spikes_per_cluster]
    concatenates them. *)
Definition label_arrays (spc : gmap Z (list Z)) : gmap Z (list Z) :=
  map_imap (λ c sp, Some (replicate (length sp)
                            (astype_int64 (float64_of_int c)))) spc.

(** The number of times a cluster occurs in a list. *)
Definition occurrences (c : Z) (l : list Z) : nat :=
  length (filter (λ x, x = c) l).

(** ** Predicates of the statements about [store_all_clusters] *)

(** The spikes of a cluster in the model, in ascending order. *)
Definition spikes_of (m : Model) (c : Z) : list nat :=
  nonzero ((λ x, bool_decide (x = c)) <$> spike_clusters m).

(** The slice of [features_masks] that belongs to a field of a spike, read
    off the row [fm_spike] of the spike: its features are the first
    components, in order; its masks are, for each channel, the second
    component at the first feature of the channel. *)
Definition slice_of (m : Model) (name : string) (fm_spike : list (Q * Q))
  : list Q :=
  if bool_decide (name = "masks"%string)
  then (λ channel,
          (default (0, 0)%Q
             (fm_spike !! (channel * nfeatures_per_channel m)%nat)).2)
         <$> seq 0 (n_channels m)
  else fm_spike.*1.

(** The rows of an entry hold the slices of the spikes of its cluster, in
    ascending order of spike id. *)
Definition holds_slices (m : Model) (c : Z) (name : string) (arr : ndarray)
  : Prop :=
  Forall2 (λ spike row,
             ∃ fm_spike, model_features_masks m !! spike = Some fm_spike
                         ∧ row = slice_of m name fm_spike)
          (spikes_of m c) (rows arr).

(** The length of a flattened row of an array of the given shape. *)
Definition row_len (shp : list nat) : nat := foldr Nat.mul 1%nat (tail shp).

(** A rectangular array: as many rows as its shape says, all of one length. *)
Definition wf_ndarray (arr : ndarray) : Prop :=
  shape arr ≠ []
  ∧ length (rows arr) = hd 0%nat (shape arr)
  ∧ Forall (λ r, length r = row_len (shape arr)) (rows arr).

Definition wf_disk (d : gmap (Z * string) ndarray) : Prop :=
  map_Forall (λ _ arr, wf_ndarray arr) d.

(** The model as KwikModel provides it: [features_masks] has shape
    (n_spikes, n_features * n_channels, 2) with at least one feature per
    channel, and the probe has one position per channel. *)
Definition wf_model (m : Model) : Prop :=
  nfeatures_per_channel m ≠ 0%nat
  ∧ length (model_features_masks m) = length (spike_clusters m)
  ∧ Forall (λ r, length r = (nfeatures_per_channel m * n_channels m)%nat)
           (model_features_masks m)
  ∧ length (probe_positions m) = n_channels m.

(** [spikes_per_cluster] agrees with the model on the size of its clusters,
    none of which is empty. *)
Definition up_to_date (m : Model) (spc : gmap Z (list Z)) : Prop :=
  map_Forall (λ c sp, sp ≠ [] ∧ length sp = length (spikes_of m c)) spc.

(** The shape [_clusters_to_store] gives to the entry of a field. *)
Definition entry_shape (m : Model) (name : string) (n_spikes : nat)
  : list nat :=
  if bool_decide (name = "masks"%string) then [n_spikes; n_channels m]
  else [n_spikes; n_channels m; nfeatures_per_channel m].

Definition no_raise : exn → state → Prop := λ _ _, False.

(** The spikes among [P] that belong to cluster [c]. *)
Definition done_of (m : Model) (c : Z) (P : list nat) : list nat :=
  filter (λ sp, spike_clusters m !! sp = Some c) P.

(** The spikes [store_all_clusters] loops over: those of the clusters with
    an entry to store. *)
Definition stored_spikes (m : Model) (to_store : gmap Z (gmap string bool))
  : list nat :=
  _spikes_in_clusters (spike_clusters m)
    (filter (λ cluster, needs_store to_store cluster = true)
            (sorted_keys to_store)).

(** [len(spikes_per_cluster[cluster])] *)
Definition size_of (spc : gmap Z (list Z)) (c : Z) : nat :=
  default 0%nat ((length <$> spc) !! c).

(** The state of the entries of the clusters [cs] after [_clusters_to_store]:
    each has a flag in [to_store] and an entry of the expected shape, blank
    when the flag is set. *)
Definition entries_ready (m : Model) (spc : gmap Z (list Z))
    (to_store : gmap Z (gmap string bool)) (d : gmap (Z * string) ndarray)
    (cs : list Z) : Prop :=
  ∀ c name, c ∈ cs → name ∈ names →
    ∃ b arr, to_store_get to_store c name = Ok b
             ∧ d !! (c, name) = Some arr
             ∧ shape arr = entry_shape m name (size_of spc c)
             ∧ (b = true → arr = np_zeros (entry_shape m name (size_of spc c))).

(** The entry of a field of a cluster while the spikes are distributed, when
    the spikes [P] have been handled: it has its expected shape and, if it is
    to be stored, its cursor counts the spikes of the cluster among [P] and
    its first rows hold their data, in order. *)
Definition entry_inv (m : Model) (spc : gmap Z (list Z))
    (to_store : gmap Z (gmap string bool)) (c : Z) (name : string)
    (P : list nat) (lv : locals) (d : gmap (Z * string) ndarray) : Prop :=
  ∃ arr, d !! (c, name) = Some arr
    ∧ shape arr = entry_shape m name (size_of spc c)
    ∧ wf_ndarray arr
    ∧ (to_store_get to_store c name = Ok true →
       default 0%nat (cursors lv !! (name, c)) = length (done_of m c P)
       ∧ Forall2 (λ sp row, _data m name sp = Ok row) (done_of m c P)
                 (take (length (done_of m c P)) (rows arr))).

(** Whether an array is rectangular can be decided. *)
Global Instance wf_ndarray_dec arr : Decision (wf_ndarray arr).
Proof. unfold wf_ndarray. apply _. Defined.

(** An entry that [_prepare_file] keeps: it is there, rectangular, of the
    expected shape, and its first or its last row is not blank. *)
Definition entry_kept (shp : list nat) (entry : option ndarray) : bool :=
  match entry with
  | Some arr =>
    bool_decide (shape arr = shp ∧ wf_ndarray arr)
    && match first_row arr, last_row arr with
       | Ok r0, Ok r1 => negb (all_zero r0 && all_zero r1)
       | _, _ => false
       end
  | None => false
  end.

(** A store in which both entries of every cluster of the mapping are
    kept. *)
Definition populated (m : Model) (spc : gmap Z (list Z))
    (d : gmap (Z * string) ndarray) : Prop :=
  map_Forall (λ c sp,
    Forall (λ name,
      entry_kept (entry_shape m name (length sp)) (d !! (c, name)) = true)
      names) spc.

(** Whether the data of a field is blank for a spike; with no spike there
    is nothing that is not blank. *)
Definition blank_data (m : Model) (name : string) (spike : option nat)
  : bool :=
  match spike with
  | Some i =>
    match _data m name i with Ok row => all_zero row | Raise _ => true end
  | None => true
  end.

(** A model in which, for both fields of every cluster of the mapping, the
    data of the first or of the last spike of the cluster is not blank. *)
Definition data_marked (m : Model) (spc : gmap Z (list Z)) : Prop :=
  map_Forall (λ c _,
    Forall (λ name,
      blank_data m name (head (spikes_of m c))
      && blank_data m name (last (spikes_of m c)) = false) names) spc.

(** The arrays of a field as they are loaded from the disk store, one per
    cluster of the mapping. *)
Definition stored_rows (d : gmap (Z * string) ndarray)
    (spc : gmap Z (list Z)) (name : string) : gmap Z (list (list Q)) :=
  map_imap (λ c _, rows <$> d !! (c, name)) spc.

(** ** Predicates of the program logic *)

(** [triple P m Q E]: from a state satisfying [P], [m] either returns a value
    and a state satisfying [Q], or raises in a state satisfying [E]. *)
Definition triple {A} (P : state → Prop) (m : M A)
    (Q : A → state → Prop) (E : exn → state → Prop) : Prop :=
  ∀ s, P s → match m s with
             | (Ok a, s') => Q a s'
             | (Raise e, s') => E e s'
             end.

(** Computations that neither open nor close a handle. *)
Definition keeps_handles {A} (m : M A) : Prop :=
  ∀ s, handles (m s).2 = handles s.

(** The handles open during the loop over the spikes: those open before the
    call, and the files of [files], which are distinct from them. *)
Definition handles_inv (H : gset nat) (lv : locals) (s : state) : Prop :=
  handles s = H ∪ map_img (files lv) ∧ map_img (files lv) ## H.

(** The beginning of [store_all_clusters]: the entries are prepared and the
    first [k] iterations of the loop over the spikes are run; the result is
    the local dictionaries at that point. *)
Definition store_first_spikes (m : Model) (pr : bool)
    (spikes_per_cluster : gmap Z (list Z)) (k : nat) : M locals :=
  do to_store <- _clusters_to_store m spikes_per_cluster;
  let n_clusters := size spikes_per_cluster in
  let clusters :=
    filter (λ cluster, needs_store to_store cluster = true)
           (sorted_keys to_store) in
  let spikes := _spikes_in_clusters (spike_clusters m) clusters in
  let n_spikes := length spikes in
  report pr (PrSetMax n_spikes n_clusters);;
  foldlM (store_spike m pr to_store) (Locals ∅ ∅)
         (take k (zip (seq 0 n_spikes) spikes)).

(** Computations that close no handle. *)
Definition closes_nothing {A} (m : M A) : Prop :=
  ∀ s, handles s ⊆ handles (m s).2.

(** The files of [files] are open, each under a handle of its own that was
    not open before the call. *)
Definition files_open (H : gset nat) (lv : locals) (s : state) : Prop :=
  handles s = H ∪ map_img (files lv)
  ∧ map_img (files lv) ## H
  ∧ size (map_img (files lv) : gset nat) = size (files lv).

(** Two states that differ at most in the trace of the progress reporter. *)
Definition same_stores (s1 s2 : state) : Prop :=
  disk_store s1 = disk_store s2 ∧ memory_store s1 = memory_store s2
  ∧ handles s1 = handles s2 ∧ warnings s1 = warnings s2.

(** Two computations that, from such states, end with the same outcome in
    such states. *)
Definition oblivious {A} (m1 m2 : M A) : Prop :=
  ∀ s1 s2, same_stores s1 s2 →
    (m1 s1).1 = (m2 s2).1 ∧ same_stores (m1 s1).2 (m2 s2).2.

(** The entries of the disk store outside of [Kd] and the entries of the
    memory store outside of [Km] are in [s] what they are in [s0]. *)
Definition untouched (Kd : Z * string → Prop) (Km : Z → Prop)
    (s0 s : state) : Prop :=
  (∀ k, ¬ Kd k → disk_store s !! k = disk_store s0 !! k)
  ∧ (∀ c, ¬ Km c → memory_store s !! c = memory_store s0 !! c).

(** Computations that, whatever their outcome, write to the entries of [Kd]
    and [Km] only. *)
Definition touches_only {A} (Kd : Z * string → Prop) (Km : Z → Prop)
    (m : M A) : Prop :=
  ∀ s, untouched Kd Km s (m s).2.

(** The entries [_clusters_to_store] flagged. *)
Definition flagged (to_store : gmap Z (gmap string bool))
    (k : Z * string) : Prop :=
  to_store_get to_store k.1 k.2 = Ok true.

(** The entries of the clusters of a mapping. *)
Definition entries_of (spc : gmap Z (list Z)) (k : Z * string) : Prop :=
  k.1 ∈ dom spc ∧ k.2 ∈ names.

(** Computations that, when they return, have made the calls [t] on the
    progress reporter. *)
Definition emits {A} (m : M A) (t : list pr_call) : Prop :=
  ∀ s a s', m s = (Ok a, s') → progress s' = progress s ++ t.

(** The call made for a spike: one for each hundredth iteration. *)
Definition spike_report (pr : bool) (it : nat * nat) : list pr_call :=
  if pr && bool_decide ((it.1 mod 100)%nat = 0%nat)
  then [PrIncrement "features_masks" 100] else [].

(** ** Concrete data sets used below *)

(** A merge of clusters 1 and 2 into 3, and a change of the group of
    cluster 3, as the two undo stacks record them. *)
Definition up_merge : gmap string pyval :=
  update_info (list_to_map
    [("description", PyStr "merge"); ("spikes", PyList [0; 1; 2; 3; 4]);
     ("added", PyList [3]); ("deleted", PyList [1; 2]);
     ("descendants", PyPairs [(1, 3); (2, 3)])]%string).

Definition up_meta : gmap string pyval :=
  update_info (list_to_map
    [("description", PyStr "metadata_group");
     ("metadata_changed", PyList [3]); ("metadata_value", PyInt 2)]%string).

(** One spike on a probe with two channels at (0, 0) and (4, 2). *)
Definition model_two_channels : Model := {|
  spike_clusters := [7];
  model_features_masks := [[(3 # 1, 1 # 2); (5 # 1, 1 # 1)]]%Q;
  n_channels := 2;
  nfeatures_per_channel := 1;
  probe_positions := [[0; 0]; [4; 2]]%Q |}.

Definition empty_state : state := State ∅ ∅ ∅ [] [].

(** A cluster whose mean masks are 1/2 on channel 0 and 1 on channel 1. *)
Definition masks_ranked : ndarray := NdArray [1; 2]%nat [[1 # 2; 1 # 1]]%Q.

(** A cluster whose mean masks are 1/2 on both channels. *)
Definition masks_half : ndarray := NdArray [1; 2]%nat [[1 # 2; 1 # 2]]%Q.

(** Three spikes of a cluster, with masks that sum to 1 on both channels:
    the mean mask 1/3 is not a float32. *)
Definition masks_third : ndarray :=
  NdArray [3; 2]%nat [[1; 0]; [0; 1]; [0; 0]]%Q.

(** A cluster whose mean mask on channel 0 is the float32 nearest to 1e-3. *)
Definition masks_threshold : ndarray :=
  NdArray [1; 2]%nat [[8589935 # 8589934592; 1]]%Q.

(** The entry of a cluster without a spike. *)
Definition masks_no_row : ndarray := NdArray [0; 2]%nat [].

(** Two channels on a probe that gives a single position. *)
Definition model_one_position : Model := {|
  spike_clusters := [7];
  model_features_masks := [[(3 # 1, 1 # 2); (5 # 1, 1 # 1)]]%Q;
  n_channels := 2;
  nfeatures_per_channel := 1;
  probe_positions := [[4; 2]]%Q |}.

(** An entry of the expected shape whose first and last rows are blank. *)
Definition masks_blank_ends : ndarray :=
  NdArray [3; 2]%nat [[0; 0]; [1; 1]; [0; 0]]%Q.

Definition state_blank_ends : state :=
  State {[ (7, "masks"%string) := masks_blank_ends ]} ∅ ∅ [] [].

(** Five spikes in two clusters, one row (a number) per spike. *)
Definition spc_five : gmap Z (list Z) :=
  <[5 := [1; 3]]> (<[2 := [0; 2; 4]]> ∅).

Definition arrays_five : gmap Z (list Z) :=
  <[5 := [11; 13]]> (<[2 := [10; 12; 14]]> ∅).

(** Three spikes, two of cluster 2 and one of cluster 5. *)
Definition model_three_spikes : Model := {|
  spike_clusters := [2; 5; 2];
  model_features_masks :=
    [[(1 # 2, 1 # 1); (3 # 2, 1 # 2)];
     [(5 # 1, 0 # 1); (7 # 1, 1 # 1)];
     [(9 # 1, 1 # 4); (11 # 1, 1 # 2)]]%Q;
  n_channels := 2;
  nfeatures_per_channel := 1;
  probe_positions := [[0; 0]; [4; 2]]%Q |}.

(** A store in which cluster 2 has an entry for its features, of the
    expected shape and not blank, and none for its masks. *)
Definition state_features_kept : state :=
  State {[ (2, "features"%string) := NdArray [2; 2; 1]%nat [[9; 9]; [9; 9]]%Q ]}
        ∅ ∅ [] [].

(** Its clusters, and a mapping that is out of date: spike 2 is missing. *)
Definition spc_three_spikes : gmap Z (list Z) :=
  <[5 := [1]]> (<[2 := [0; 2]]> ∅).

Definition spc_stale : gmap Z (list Z) :=
  <[5 := [1]]> (<[2 := [0]]> ∅).

(** An entry of the expected shape that was written. *)
Definition state_written : state :=
  State {[ (7, "masks"%string) := masks_ranked ]} ∅ ∅ [] [].

(** The store after a first pass over the three spikes. *)
Definition state_populated : state :=
  (store_all_clusters model_three_spikes false spc_three_spikes
     empty_state).2.

(** ** The embedding on an example *)

Example spc_ex :
  _spikes_per_cluster [10; 11; 12; 13; 14] [2; 5; 2; 5; 2]
  = Some (<[5 := [11; 13]]> (<[2 := [10; 12; 14]]> ∅)).
Proof. vm_compute. reflexivity. Qed.

Example conc_ex :
  _concatenate_per_cluster_arrays
    (<[5 := [1; 3]]> (<[2 := [0; 2; 4]]> ∅))
    (<[5 := [11; 13]]> (<[2 := [10; 12; 14]]> ∅))
  = Some [10; 11; 12; 13; 14].
Proof. vm_compute. reflexivity. Qed.

(** ** The history glue: [_process_ups] *)

(** C10: no pending record gives [None], a single record is returned
    unchanged, and more than two records raise NotImplementedError. *)
Theorem process_ups_cases :
  _process_ups [] = Ok None
  ∧ (∀ up, _process_ups [up] = Ok (Some up))
  ∧ (∀ ups, (2 < length ups)%nat → _process_ups ups = Raise NotImplementedError).
Proof.
  split; [reflexivity|]. split; [reflexivity|].
  intros [|a [|b [|c ups]]] Hlen; simpl in Hlen; try lia. reflexivity.
Qed.

Lemma process_ups_cases_witness :
  (2 < length [up_merge; up_meta; up_meta])%nat
  ∧ _process_ups [up_merge; up_meta; up_meta] = Raise NotImplementedError.
Proof.
  split; [simpl; lia|].
  apply (proj2 (proj2 process_ups_cases)). simpl; lia.
Defined.

(** A record made by [update_info] has every standard key. *)
Lemma update_info_dom kwargs :
  dom update_info_defaults ⊆ dom (update_info kwargs).
Proof.
  unfold update_info, dict_update. rewrite dom_union_L.
  apply union_subseteq_r.
Qed.

(** X2: combining two records made by [update_info]: every standard key of the
    combined record holds the value of the second record. *)
Lemma process_ups_two_second_wins kwargs0 kwargs1 key :
  key ∈ dom update_info_defaults →
  ∃ up, _process_ups [update_info kwargs0; update_info kwargs1] = Ok (Some up)
        ∧ up !! key = update_info kwargs1 !! key.
Proof.
  intros Hkey. eexists; split; [reflexivity|].
  unfold dict_update.
  apply update_info_dom with (kwargs := kwargs1) in Hkey as [v Hv]%elem_of_dom.
  rewrite Hv. by apply lookup_union_Some_l.
Qed.

Lemma process_ups_two_second_wins_witness :
  ∃ up, _process_ups [up_merge; up_meta] = Ok (Some up)
        ∧ up !! "added"%string = up_meta !! "added"%string.
Proof.
  apply (process_ups_two_second_wins _ _ "added"%string).
  vm_compute. apply (bool_decide_eq_true_1 _). vm_compute. reflexivity.
Defined.

(** C7 (evaluation of the code): the record combining a merge with a
    metadata change has lost the merge: its added, deleted, descendants and
    spikes are the empty defaults of the second record. *)
Theorem process_ups_two_loses_first :
  ∃ up, _process_ups [up_merge; up_meta] = Ok (Some up)
        ∧ up = up_meta
        ∧ up_merge !! "added"%string = Some (PyList [3])
        ∧ up !! "added"%string = Some (PyList [])
        ∧ up !! "deleted"%string = Some (PyList [])
        ∧ up !! "descendants"%string = Some (PyPairs [])
        ∧ up !! "spikes"%string = Some (PyList []).
Proof. eexists; repeat split; vm_compute; reflexivity. Qed.

(** ** The extra fields *)

(** C5 (evaluation of the code): channel 1 has the larger mean mask, yet the
    stored [main_channels] lists channel 0 first. *)
Theorem main_channels_ascending_index :
  ∃ f s, _store_extra_fields model_two_channels 7 None (Some masks_ranked)
           empty_state = (Ok tt, s)
         ∧ memory_store s !! 7 = Some f
         ∧ float_value <$> mean_masks f = [Some (1 # 2); Some 1]%Q
         ∧ main_channels f = [0; 1]%nat
         ∧ main_channels_spec (mean_masks f) = [1; 0]%nat.
Proof. do 2 eexists; repeat split; vm_compute; reflexivity. Qed.

(** C6 (evaluation of the code): with mean masks 1/2 and 1/2 on channels at
    (0, 0) and (4, 2) the stored position is (1, 1/2), the sum divided by the
    number of channels, where the weighted centroid is (2, 1). *)
Theorem mean_probe_position_divides_by_channels :
  ∃ f s, _store_extra_fields model_two_channels 7 None (Some masks_half)
           empty_state = (Ok tt, s)
         ∧ memory_store s !! 7 = Some f
         ∧ float_value <$> mean_masks f = [Some (1 # 2); Some (1 # 2)]%Q
         ∧ float_value <$> mean_probe_position f = [Some 1; Some (1 # 2)]%Q
         ∧ Forall2 Qeq
             (weighted_centroid_spec (probe_positions model_two_channels)
                                     [1 # 2; 1 # 2])
             [2; 1]%Q.
Proof.
  do 2 eexists. split; [vm_compute; reflexivity|].
  split; [vm_compute; reflexivity|].
  split; [vm_compute; reflexivity|].
  split; [vm_compute; reflexivity|].
  repeat constructor.
Qed.

(** The arithmetic is numpy's: the mean mask of three spikes whose masks
    sum to 1 is the float32 nearest to 1/3, and the position is computed
    from it in float64. *)
Example extra_fields_rounding :
  ∃ f, extra_fields_of model_two_channels masks_third = Ok f
       ∧ float_value <$> sum_masks f = [Some 1; Some 1]%Q
       ∧ float_value <$> mean_masks f
         = [Some (11184811 # 33554432); Some (11184811 # 33554432)]%Q
       ∧ float_value <$> mean_probe_position f
         = [Some (11184811 # 16777216); Some (11184811 # 33554432)]%Q.
Proof. eexists. repeat split; vm_compute; reflexivity. Qed.

(** A mean mask equal to the float32 nearest to 1e-3 does not exceed the
    threshold: the channel is masked. *)
Example extra_fields_threshold :
  ∃ f, extra_fields_of model_two_channels masks_threshold = Ok f
       ∧ float_value <$> mean_masks f
         = [Some (8589935 # 8589934592); Some 1]%Q
       ∧ n_unmasked_channels f = 1%nat
       ∧ main_channels f = [1]%nat.
Proof. eexists. repeat split; vm_compute; reflexivity. Qed.

(** An array without a row: the sums are zero and the means are nan. *)
Example extra_fields_no_row :
  extra_fields_of model_two_channels masks_no_row
  = Ok (ExtraFields [S754_nan; S754_nan] [S754_zero false; S754_zero false]
                    0 [S754_nan; S754_nan] []).
Proof. vm_compute. reflexivity. Qed.

(** A probe with a single position: numpy broadcasts it over the channels. *)
Example extra_fields_broadcast :
  ∃ f, extra_fields_of model_one_position masks_third = Ok f
       ∧ float_value <$> mean_probe_position f
         = [Some (11184811 # 8388608); Some (11184811 # 16777216)]%Q.
Proof. eexists. repeat split; vm_compute; reflexivity. Qed.

(** ** [_prepare_file] *)

(** C3 (as stated, refuted): an entry of the expected shape whose first and
    last rows are blank is not kept; it is recreated and [True] is returned. *)
Lemma prepare_file_skip_counterexample :
  ¬ (∀ name cluster shp s arr,
       disk_store s !! (cluster, name) = Some arr →
       shape arr = shp →
       ∃ s', _prepare_file name cluster shp s = (Ok false, s')
             ∧ disk_store s' = disk_store s).
Proof.
  intros H.
  destruct (H "masks"%string 7 [3; 2]%nat state_blank_ends masks_blank_ends)
    as (s' & Hrun & _); [reflexivity..|].
  vm_compute in Hrun. discriminate Hrun.
Qed.

(** C3 (amended): for an existing entry of the expected shape, when the
    first or the last row has a non-zero element the call returns [False]
    and leaves the whole state as it is; when both rows are blank a warning
    is logged, the entry is recreated blank and the call returns [True]. *)
Theorem prepare_file_existing name cluster shp s arr r0 r1 :
  disk_store s !! (cluster, name) = Some arr →
  shape arr = shp →
  first_row arr = Ok r0 →
  last_row arr = Ok r1 →
  (all_zero r0 && all_zero r1 = false →
   _prepare_file name cluster shp s = (Ok false, s))
  ∧ (all_zero r0 && all_zero r1 = true →
     _prepare_file name cluster shp s
     = (Ok true,
        State (<[(cluster, name) := np_zeros shp]> (disk_store s))
              (memory_store s) (handles s)
              (warnings s ++ [(name, cluster)]) (progress s))).
Proof.
  intros Hload Hshape H0 H1.
  unfold _prepare_file, bind, disk_load, lift, ret, warn, disk_store_.
  rewrite Hload, bool_decide_true by done. rewrite H0.
  split; intros Hprobe.
  - destruct (all_zero r0); simpl in *; [|done].
    rewrite H1, Hprobe. done.
  - apply andb_true_iff in Hprobe as [-> Hr1].
    rewrite H1, Hr1. done.
Qed.

Lemma prepare_file_existing_witness :
  _prepare_file "masks" 7 [1; 2]%nat state_written = (Ok false, state_written)
  ∧ _prepare_file "masks" 7 [3; 2]%nat state_blank_ends
    = (Ok true,
       State (<[(7, "masks"%string) := np_zeros [3; 2]%nat]>
                (disk_store state_blank_ends))
             ∅ ∅ [("masks"%string, 7)] []).
Proof.
  split.
  - apply (proj1 (prepare_file_existing "masks" 7 [1; 2]%nat state_written
                    masks_ranked [1 # 2; 1 # 1]%Q [1 # 2; 1 # 1]%Q
                    eq_refl eq_refl eq_refl eq_refl)).
    reflexivity.
  - apply (proj2 (prepare_file_existing "masks" 7 [3; 2]%nat state_blank_ends
                    masks_blank_ends [0; 0]%Q [0; 0]%Q
                    eq_refl eq_refl eq_refl eq_refl)).
    reflexivity.
Defined.

(** ** The progress reporter is only notified *)

Lemma same_stores_refl s : same_stores s s.
Proof. by repeat split. Qed.

Lemma oblivious_ret {A} (a : A) : oblivious (ret a) (ret a).
Proof. by intros s1 s2 H. Qed.

Lemma oblivious_raise {A} e : oblivious (@raise A e) (raise e).
Proof. by intros s1 s2 H. Qed.

Lemma oblivious_lift {A} (r : result A) : oblivious (lift r) (lift r).
Proof. by intros s1 s2 H. Qed.

Lemma oblivious_bind {A B} (m1 m2 : M A) (k1 k2 : A → M B) :
  oblivious m1 m2 → (∀ a, oblivious (k1 a) (k2 a)) →
  oblivious (bind m1 k1) (bind m2 k2).
Proof.
  intros Hm Hk s1 s2 Hs. unfold bind.
  destruct (Hm s1 s2 Hs) as [Hr Hs'].
  destruct (m1 s1) as [[a1|e1] s1'], (m2 s2) as [[a2|e2] s2'];
    simpl in *; try discriminate.
  - injection Hr as ->. by apply Hk.
  - injection Hr as ->. by split.
Qed.

Lemma oblivious_foldlM {A B} (f1 f2 : B → A → M B) l :
  (∀ b x, oblivious (f1 b x) (f2 b x)) →
  ∀ b, oblivious (foldlM f1 b l) (foldlM f2 b l).
Proof.
  intros Hf. induction l as [|x l IH]; intros b; simpl.
  - apply oblivious_ret.
  - apply oblivious_bind; [apply Hf | apply IH].
Qed.

Lemma oblivious_report pr1 pr2 c1 c2 :
  oblivious (report pr1 c1) (report pr2 c2).
Proof.
  intros s1 s2 (Hd & Hm & Hh & Hw). unfold report.
  by destruct pr1, pr2; simpl; repeat split.
Qed.

Lemma oblivious_report_ret pr c : oblivious (report pr c) (ret tt).
Proof.
  intros s1 s2 (Hd & Hm & Hh & Hw). unfold report, ret.
  by destruct pr; simpl; repeat split.
Qed.

Lemma oblivious_disk_load cluster name :
  oblivious (disk_load cluster name) (disk_load cluster name).
Proof.
  intros s1 s2 (Hd & Hm & Hh & Hw). unfold disk_load; simpl.
  rewrite Hd. by repeat split.
Qed.

Lemma oblivious_disk_store cluster name arr :
  oblivious (disk_store_ cluster name arr) (disk_store_ cluster name arr).
Proof.
  intros s1 s2 (Hd & Hm & Hh & Hw). unfold disk_store_; simpl.
  rewrite Hd. by repeat split.
Qed.

Lemma oblivious_memory_store cluster fields :
  oblivious (memory_store_ cluster fields) (memory_store_ cluster fields).
Proof.
  intros s1 s2 (Hd & Hm & Hh & Hw). unfold memory_store_; simpl.
  rewrite Hm. by repeat split.
Qed.

Lemma oblivious_warn name cluster :
  oblivious (warn name cluster) (warn name cluster).
Proof.
  intros s1 s2 (Hd & Hm & Hh & Hw). unfold warn; simpl.
  rewrite Hw. by repeat split.
Qed.

Lemma oblivious_cluster_file cluster :
  oblivious (cluster_file cluster) (cluster_file cluster).
Proof.
  intros s1 s2 (Hd & Hm & Hh & Hw). unfold cluster_file; simpl.
  rewrite Hh. by repeat split.
Qed.

Lemma oblivious_close_all fs : oblivious (close_all fs) (close_all fs).
Proof.
  intros s1 s2 Hs. unfold close_all; simpl. split; [done|].
  apply (map_fold_weak_ind
           (λ r1 (fs : gmap (string * Z) nat),
              same_stores r1 (map_fold (λ _ f s, close f s) s2 fs))).
  - by rewrite map_fold_empty.
  - intros k f fs' r Hk IH.
    rewrite map_fold_insert_L; [| |done].
    + destruct IH as (Hd & Hm & Hh & Hw). unfold close; simpl.
      rewrite Hh. by repeat split.
    + intros k1 k2 f1 f2 st _ _ _. unfold close; simpl.
      f_equal. apply set_eq; intros x.
      rewrite !elem_of_difference. tauto.
Qed.

Create HintDb oblivious.
#[local] Hint Resolve oblivious_ret oblivious_raise oblivious_lift
  oblivious_report oblivious_disk_load oblivious_disk_store
  oblivious_memory_store oblivious_warn oblivious_cluster_file
  oblivious_close_all : oblivious.

Ltac oblivious_step :=
  first [ apply oblivious_bind; [|intros ?]
        | apply oblivious_foldlM; intros ? ?
        | progress eauto with oblivious
        | match goal with
          | |- oblivious (match ?x with _ => _ end) _ => destruct x
          end ].

Ltac oblivious := repeat oblivious_step.

Lemma oblivious_disk_setitem cluster name i data :
  oblivious (disk_setitem cluster name i data)
            (disk_setitem cluster name i data).
Proof. unfold disk_setitem. oblivious. Qed.

Lemma oblivious_prepare_file name cluster shp :
  oblivious (_prepare_file name cluster shp) (_prepare_file name cluster shp).
Proof. unfold _prepare_file. oblivious. Qed.

Lemma oblivious_clusters_to_store m spc :
  oblivious (_clusters_to_store m spc) (_clusters_to_store m spc).
Proof.
  unfold _clusters_to_store.
  apply oblivious_foldlM; intros ts c.
  do 2 (apply oblivious_bind; [apply oblivious_prepare_file|intros ?]).
  apply oblivious_ret.
Qed.

Lemma oblivious_arr lv cluster name :
  oblivious (_arr lv cluster name) (_arr lv cluster name).
Proof. unfold _arr. oblivious. Qed.

Lemma oblivious_store_extra_fields m cluster features masks :
  oblivious (_store_extra_fields m cluster features masks)
            (_store_extra_fields m cluster features masks).
Proof. unfold _store_extra_fields. oblivious. Qed.

Lemma oblivious_store_spike m pr1 pr2 to_store lv it :
  oblivious (store_spike m pr1 to_store lv it)
            (store_spike m pr2 to_store lv it).
Proof.
  unfold store_spike. destruct it as [iteration spike].
  apply oblivious_bind; [apply oblivious_lift|intros cluster].
  apply oblivious_bind.
  - apply oblivious_foldlM; intros lv' name. unfold store_field.
    apply oblivious_bind; [apply oblivious_lift|intros flag].
    destruct flag; [|apply oblivious_ret].
    apply oblivious_bind; [apply oblivious_lift|intros data].
    apply oblivious_bind; [apply oblivious_arr|intros lv''].
    apply oblivious_bind; [apply oblivious_disk_setitem|intros _].
    apply oblivious_ret.
  - intros lv'. apply oblivious_bind; [|intros _; apply oblivious_ret].
    destruct pr1, pr2; simpl; try case_bool_decide;
      eauto using oblivious_ret, oblivious_report, oblivious_report_ret.
Qed.

Lemma oblivious_store_extra m pr1 pr2 u cluster :
  oblivious (store_extra m pr1 u cluster) (store_extra m pr2 u cluster).
Proof.
  unfold store_extra.
  do 2 (apply oblivious_bind; [apply oblivious_disk_load|intros ?]).
  apply oblivious_bind; [apply oblivious_store_extra_fields|intros _].
  apply oblivious_report.
Qed.

Lemma oblivious_store_all_clusters m pr1 pr2 spc :
  oblivious (store_all_clusters m pr1 spc) (store_all_clusters m pr2 spc).
Proof.
  unfold store_all_clusters.
  apply oblivious_bind; [apply oblivious_clusters_to_store|intros ts].
  apply oblivious_bind; [apply oblivious_report|intros _].
  apply oblivious_bind.
  { apply oblivious_foldlM; intros lv it. apply oblivious_store_spike. }
  intros lv. apply oblivious_bind; [|intros _; apply oblivious_close_all].
  apply oblivious_foldlM; intros u c. apply oblivious_store_extra.
Qed.

(** C9: with and without a progress reporter the pass ends with the same
    outcome, the same disk store and the same memory store (and the same
    open handles and warnings). *)
Theorem store_all_clusters_progress_independent m spikes_per_cluster s :
  let without := store_all_clusters m false spikes_per_cluster s in
  let with_pr := store_all_clusters m true spikes_per_cluster s in
  without.1 = with_pr.1
  ∧ disk_store without.2 = disk_store with_pr.2
  ∧ memory_store without.2 = memory_store with_pr.2
  ∧ handles without.2 = handles with_pr.2
  ∧ warnings without.2 = warnings with_pr.2.
Proof.
  intros without with_pr.
  destruct (oblivious_store_all_clusters m false true spikes_per_cluster s s
              (same_stores_refl s)) as [Hr (Hd & Hm & Hh & Hw)].
  by repeat split.
Qed.

(** ** A program logic for the store monad *)

Lemma triple_ret {A} (a : A) (Q : A → state → Prop) E :
  triple (Q a) (ret a) Q E.
Proof. by intros s H. Qed.

Lemma triple_raise {A} e (Q : A → state → Prop) (E : exn → state → Prop) :
  triple (E e) (raise e) Q E.
Proof. by intros s H. Qed.

Lemma triple_lift {A} (r : result A) (P : state → Prop) :
  triple P (lift r) (λ a s, r = Ok a ∧ P s) (λ e s, r = Raise e ∧ P s).
Proof. intros s H. unfold lift. by destruct r. Qed.

Lemma triple_bind {A B} P (m : M A) Q (k : A → M B) R E :
  triple P m Q E → (∀ a, triple (Q a) (k a) R E) → triple P (bind m k) R E.
Proof.
  intros Hm Hk s HP. unfold bind. specialize (Hm s HP).
  destruct (m s) as [[a|e] s']; [by apply Hk | done].
Qed.

Lemma triple_conseq {A} (P P' : state → Prop) (m : M A)
    (Q Q' : A → state → Prop) (E E' : exn → state → Prop) :
  triple P' m Q' E' →
  (∀ s, P s → P' s) → (∀ a s, Q' a s → Q a s) → (∀ e s, E' e s → E e s) →
  triple P m Q E.
Proof.
  intros Hm HP HQ HE s Hs. specialize (Hm s (HP s Hs)).
  destruct (m s) as [[a|e] s']; auto.
Qed.

(** The loop rule: the invariant is indexed by the elements already done. *)
Lemma triple_foldlM {A B} (I : list A → B → state → Prop) E
    (f : B → A → M B) (l : list A) :
  (∀ pre x suf b, l = pre ++ x :: suf →
     triple (I pre b) (f b x) (I (pre ++ [x])) E) →
  ∀ b, triple (I [] b) (foldlM f b l) (I l) E.
Proof.
  intros Hstep.
  cut (∀ suf pre b, l = pre ++ suf → triple (I pre b) (foldlM f b suf) (I l) E).
  { intros H b. by apply (H l []). }
  induction suf as [|x suf IH]; intros pre b Hl; simpl.
  - rewrite app_nil_r in Hl. subst pre. apply triple_ret.
  - eapply triple_bind; [by apply (Hstep pre x suf)|].
    intros b'. apply IH. by rewrite <- app_assoc.
Qed.

(** ** Cluster file handles *)

Lemma keeps_handles_bind {A B} (m : M A) (k : A → M B) :
  keeps_handles m → (∀ a, keeps_handles (k a)) → keeps_handles (bind m k).
Proof.
  intros Hm Hk s. unfold bind. specialize (Hm s).
  destruct (m s) as [[a|e] s']; simpl in *; [|done].
  by rewrite Hk.
Qed.

Lemma keeps_handles_foldlM {A B} (f : B → A → M B) l :
  (∀ b x, keeps_handles (f b x)) → ∀ b, keeps_handles (foldlM f b l).
Proof.
  intros Hf. induction l as [|x l IH]; intros b; simpl; [done|].
  by apply keeps_handles_bind.
Qed.

Lemma keeps_handles_lift {A} (r : result A) : keeps_handles (lift r).
Proof. done. Qed.

Lemma keeps_handles_report pr c : keeps_handles (report pr c).
Proof. intros s. unfold report. by destruct pr. Qed.

Lemma keeps_handles_disk_setitem cluster name i data :
  keeps_handles (disk_setitem cluster name i data).
Proof.
  unfold disk_setitem. apply keeps_handles_bind; [done|].
  intros [arr|]; [|done].
  apply keeps_handles_bind; [apply keeps_handles_lift|done].
Qed.

Lemma keeps_handles_prepare_file name cluster shp :
  keeps_handles (_prepare_file name cluster shp).
Proof.
  unfold _prepare_file. apply keeps_handles_bind; [done|]. intros arr.
  apply keeps_handles_bind.
  - destruct arr as [arr|]; [|done]. case_bool_decide; [|done].
    apply keeps_handles_bind; [apply keeps_handles_lift|]. intros r0.
    apply keeps_handles_bind.
    + destruct (all_zero r0); [|done].
      apply keeps_handles_bind; [apply keeps_handles_lift|done].
    + intros [|]; [|done]. by apply keeps_handles_bind.
  - intros [|]; [done|]. by apply keeps_handles_bind.
Qed.

Lemma keeps_handles_clusters_to_store m spc :
  keeps_handles (_clusters_to_store m spc).
Proof.
  unfold _clusters_to_store. apply keeps_handles_foldlM. intros ts c.
  do 2 (apply keeps_handles_bind;
        [apply keeps_handles_prepare_file|intros ?]).
  done.
Qed.

Lemma keeps_handles_store_extra m pr u cluster :
  keeps_handles (store_extra m pr u cluster).
Proof.
  unfold store_extra.
  do 2 (apply keeps_handles_bind; [done|intros ?]).
  apply keeps_handles_bind; [|intros _; apply keeps_handles_report].
  unfold _store_extra_fields. destruct a0; [|done].
  apply keeps_handles_bind; [apply keeps_handles_lift|done].
Qed.

Lemma triple_keeps_handles {A} (m : M A) (P : state → Prop) h :
  keeps_handles m → (∀ s, P s → handles s = h) →
  triple P m (λ _ s', handles s' = h) (λ _ s', h ⊆ handles s').
Proof.
  intros Hm HP s Hs. specialize (Hm s). apply HP in Hs.
  destruct (m s) as [[a|e] s']; simpl in *; rewrite Hm, Hs; done.
Qed.

Lemma handles_inv_arr H lv cluster name :
  triple (handles_inv H lv) (_arr lv cluster name) (handles_inv H)
         (λ _ s, H ⊆ handles s).
Proof.
  intros s [Hh Hdisj]. unfold _arr.
  destruct (files lv !! (name, cluster)) as [f|] eqn:Hf; [done|].
  unfold bind, cluster_file, ret, handles_inv; simpl.
  pose proof (is_fresh (handles s)) as Hfresh.
  rewrite map_img_insert_notin_L by done.
  rewrite Hh in Hfresh |- *. rewrite not_elem_of_union in Hfresh.
  split.
  - by rewrite (assoc_L (∪)), (comm_L (∪) {[_]} H), <- (assoc_L (∪)).
  - apply disjoint_union_l. split; [apply disjoint_singleton_l, Hfresh|done].
Qed.

Lemma handles_inv_keeps {A} H lv (m : M A) :
  keeps_handles m →
  triple (handles_inv H lv) m (λ _, handles_inv H lv) (λ _ s, H ⊆ handles s).
Proof.
  intros Hm s [Hh Hd]. specialize (Hm s).
  destruct (m s) as [[a|e] s']; simpl in *.
  - split; [congruence|done].
  - rewrite Hm, Hh. apply union_subseteq_l.
Qed.

Lemma handles_inv_store_spike H m pr to_store lv it :
  triple (handles_inv H lv) (store_spike m pr to_store lv it)
         (handles_inv H) (λ _ s, H ⊆ handles s).
Proof.
  unfold store_spike. destruct it as [iteration spike].
  eapply triple_bind; [apply handles_inv_keeps, keeps_handles_lift|].
  intros cluster.
  eapply triple_bind.
  { apply (triple_foldlM (λ _, handles_inv H)).
    intros pre name suf lv' _. unfold store_field.
    eapply triple_bind; [apply handles_inv_keeps, keeps_handles_lift|].
    intros [|].
    - eapply triple_bind; [apply handles_inv_keeps, keeps_handles_lift|].
      intros data.
      eapply triple_bind; [apply handles_inv_arr|]. intros lv''.
      eapply triple_bind;
        [apply handles_inv_keeps, keeps_handles_disk_setitem|intros ?].
      intros s Hs. exact Hs.
    - intros s Hs. exact Hs. }
  intros lv'. simpl.
  eapply triple_bind.
  { apply handles_inv_keeps.
    destruct (_ && _); [apply keeps_handles_report|done]. }
  intros ? s Hs. exact Hs.
Qed.

Lemma handles_close_all fs s :
  handles (close_all fs s).2 = handles s ∖ map_img fs.
Proof.
  unfold close_all; simpl.
  apply (map_fold_weak_ind
           (λ r (fs : gmap (string * Z) nat),
              handles r = handles s ∖ map_img fs)).
  - rewrite map_img_empty_L. by rewrite difference_empty_L.
  - intros k f fs' r Hk IH. unfold close; simpl.
    rewrite map_img_insert_notin_L by done. rewrite IH.
    apply set_eq; intros x.
    rewrite !elem_of_difference, elem_of_union, elem_of_singleton. tauto.
Qed.

(** The handles at the end of [store_all_clusters]. *)
Lemma handles_store_all_clusters m pr spc s :
  triple (λ s', s' = s) (store_all_clusters m pr spc)
         (λ _ s', handles s' = handles s)
         (λ _ s', handles s ⊆ handles s').
Proof.
  unfold store_all_clusters.
  apply (triple_bind _ _ (λ _ s', handles s' = handles s)).
  { apply triple_keeps_handles;
      [apply keeps_handles_clusters_to_store | by intros ? ->]. }
  intros ts.
  apply (triple_bind _ _ (λ _ s', handles s' = handles s)).
  { apply triple_keeps_handles; [apply keeps_handles_report | done]. }
  intros ?.
  apply (triple_bind _ _ (handles_inv (handles s))).
  { eapply triple_conseq;
      [apply (triple_foldlM (λ _, handles_inv (handles s)));
       intros; apply handles_inv_store_spike | | done | done].
    intros s' Hs'. unfold handles_inv; simpl.
    rewrite map_img_empty_L, Hs'. split; [|apply disjoint_empty_l].
    by rewrite (right_id_L ∅ (∪)). }
  intros lv.
  apply (triple_bind _ _ (λ _, handles_inv (handles s) lv)).
  { apply handles_inv_keeps, keeps_handles_foldlM.
    intros; apply keeps_handles_store_extra. }
  intros ? s' [Hh Hdisj].
  pose proof (handles_close_all (files lv) s') as Hc.
  unfold close_all in *; simpl in *. rewrite Hc, Hh.
  apply set_eq; intros x. rewrite elem_of_difference, elem_of_union.
  specialize (Hdisj x). tauto.
Qed.

Lemma foldlM_app {A B} (f : B → A → M B) b l1 l2 s :
  foldlM f b (l1 ++ l2) s
  = (do b' <- foldlM f b l1; foldlM f b' l2) s.
Proof.
  revert b s. induction l1 as [|x l1 IH]; intros b s; simpl; [done|].
  unfold bind. destruct (f b x s) as [[b'|e] s1]; [|done].
  rewrite IH. by unfold bind.
Qed.

Lemma closes_nothing_keeps {A} (m : M A) : keeps_handles m → closes_nothing m.
Proof. intros Hm s. by rewrite Hm. Qed.

Lemma closes_nothing_ret {A} (a : A) : closes_nothing (ret a).
Proof. intros s. reflexivity. Qed.

Lemma closes_nothing_bind {A B} (m : M A) (k : A → M B) :
  closes_nothing m → (∀ a, closes_nothing (k a)) → closes_nothing (bind m k).
Proof.
  intros Hm Hk s. unfold bind. specialize (Hm s).
  destruct (m s) as [[a|e] s1]; simpl in *; [|done].
  etrans; [exact Hm|apply Hk].
Qed.

Lemma closes_nothing_foldlM {A B} (f : B → A → M B) l :
  (∀ b x, closes_nothing (f b x)) → ∀ b, closes_nothing (foldlM f b l).
Proof.
  intros Hf. induction l as [|x l IH]; intros b; simpl;
    [apply closes_nothing_ret|].
  by apply closes_nothing_bind.
Qed.

Lemma closes_nothing_arr lv cluster name : closes_nothing (_arr lv cluster name).
Proof.
  intros s. unfold _arr.
  destruct (files lv !! (name, cluster)); [reflexivity|].
  unfold bind, cluster_file, ret; simpl. set_solver.
Qed.

Lemma closes_nothing_store_spike m pr to_store lv it :
  closes_nothing (store_spike m pr to_store lv it).
Proof.
  unfold store_spike. destruct it as [iteration spike].
  apply closes_nothing_bind;
    [apply closes_nothing_keeps, keeps_handles_lift|]. intros cluster.
  apply closes_nothing_bind.
  { apply closes_nothing_foldlM. intros lv' name. unfold store_field.
    apply closes_nothing_bind;
      [apply closes_nothing_keeps, keeps_handles_lift|].
    intros [|]; [|apply closes_nothing_ret].
    apply closes_nothing_bind;
      [apply closes_nothing_keeps, keeps_handles_lift|]. intros data.
    apply closes_nothing_bind; [apply closes_nothing_arr|]. intros lv''.
    apply closes_nothing_bind;
      [apply closes_nothing_keeps, keeps_handles_disk_setitem|].
    intros ?. apply closes_nothing_ret. }
  intros lv'.
  apply closes_nothing_bind; [|intros ?; apply closes_nothing_ret].
  apply closes_nothing_keeps.
  destruct (_ && _); [apply keeps_handles_report|done].
Qed.

Lemma triple_any_raise {A} P (m : M A) Q E :
  triple P m Q E → triple P m Q (λ _ _, True).
Proof. intros Hm. eapply triple_conseq; [exact Hm|done..]. Qed.

Lemma files_open_arr H lv cluster name :
  triple (files_open H lv) (_arr lv cluster name) (files_open H)
         (λ _ _, True).
Proof.
  intros s (Hh & Hdisj & Hsize). unfold _arr.
  destruct (files lv !! (name, cluster)) as [f|] eqn:Hf; [done|].
  unfold bind, cluster_file, ret, files_open; simpl.
  pose proof (is_fresh (handles s)) as Hfresh.
  rewrite map_img_insert_notin_L by done.
  rewrite Hh in Hfresh |- *. rewrite not_elem_of_union in Hfresh.
  destruct Hfresh as [HfH Hfimg].
  split; [|split].
  - by rewrite (assoc_L (∪)), (comm_L (∪) {[_]} H), <- (assoc_L (∪)).
  - apply disjoint_union_l. split; [by apply disjoint_singleton_l|done].
  - rewrite size_union by (by apply disjoint_singleton_l).
    rewrite size_singleton, map_size_insert_None by done. lia.
Qed.

Lemma files_open_keeps {A} H lv (m : M A) :
  keeps_handles m →
  triple (files_open H lv) m (λ _, files_open H lv) (λ _ _, True).
Proof.
  intros Hm s (Hh & Hd & Hsize). specialize (Hm s).
  destruct (m s) as [[a|e] s']; simpl in *; [|done].
  split; [congruence|done].
Qed.

Lemma files_open_store_spike H m pr to_store lv it :
  triple (files_open H lv) (store_spike m pr to_store lv it)
         (files_open H) (λ _ _, True).
Proof.
  unfold store_spike. destruct it as [iteration spike].
  eapply triple_bind; [apply files_open_keeps, keeps_handles_lift|].
  intros cluster.
  eapply triple_bind.
  { apply (triple_foldlM (λ _, files_open H)).
    intros pre name suf lv' _. unfold store_field.
    eapply triple_bind; [apply files_open_keeps, keeps_handles_lift|].
    intros [|].
    - eapply triple_bind; [apply files_open_keeps, keeps_handles_lift|].
      intros data.
      eapply triple_bind; [apply files_open_arr|]. intros lv''.
      eapply triple_bind;
        [apply files_open_keeps, keeps_handles_disk_setitem|intros ?].
      intros s Hs. exact Hs.
    - intros s Hs. exact Hs. }
  intros lv'. simpl.
  eapply triple_bind.
  { apply files_open_keeps.
    destruct (_ && _); [apply keeps_handles_report|done]. }
  intros ? s Hs. exact Hs.
Qed.

(** The files the first iterations opened. *)
Lemma files_open_first_spikes m pr spc k s lv s1 :
  store_first_spikes m pr spc k s = (Ok lv, s1) → files_open (handles s) lv s1.
Proof.
  intros Hrun.
  assert (Ht : triple (λ s0, s0 = s) (store_first_spikes m pr spc k)
                 (files_open (handles s)) (λ _ _, True)).
  { unfold store_first_spikes.
    apply (triple_bind _ _ (λ _ s', handles s' = handles s)).
    { eapply triple_any_raise, triple_keeps_handles;
        [apply keeps_handles_clusters_to_store | by intros ? ->]. }
    intros ts.
    apply (triple_bind _ _ (λ _ s', handles s' = handles s)).
    { eapply triple_any_raise, triple_keeps_handles;
        [apply keeps_handles_report | done]. }
    intros _.
    eapply triple_conseq;
      [apply (triple_foldlM (λ _, files_open (handles s)));
       intros; apply files_open_store_spike | | done | done].
    intros s' Hs'. unfold files_open; simpl.
    rewrite !map_img_empty_L, Hs'.
    split; [set_solver|]. split; [set_solver|].
    by rewrite size_empty, map_size_empty. }
  specialize (Ht s eq_refl). by rewrite Hrun in Ht.
Qed.

(** A pass that raises closes nothing after the first iterations. *)
Lemma first_spikes_stay_open m pr spc k s lv s1 e s' :
  store_first_spikes m pr spc k s = (Ok lv, s1) →
  store_all_clusters m pr spc s = (Raise e, s') →
  handles s1 ⊆ handles s'.
Proof.
  intros Hk Hrun.
  unfold store_first_spikes, bind at 1 in Hk.
  unfold store_all_clusters, bind at 1 in Hrun.
  destruct (_clusters_to_store m spc s) as [[ts|e0] s0]; [|done].
  cbv zeta in Hk, Hrun. unfold bind at 1 in Hk. unfold bind at 1 in Hrun.
  destruct (report pr _ s0) as [[[]|e1] s0']; [|done].
  revert Hk Hrun. set (l := zip _ _). intros Hk Hrun.
  rewrite <- (take_drop k l) in Hrun.
  unfold bind at 1 in Hrun. rewrite foldlM_app in Hrun.
  unfold bind at 1 in Hrun. rewrite Hk in Hrun.
  pose proof (closes_nothing_foldlM (store_spike m pr ts) (drop k l)
                (closes_nothing_store_spike m pr ts) lv s1) as H1.
  destruct (foldlM (store_spike m pr ts) lv (drop k l) s1) as [[lv2|e2] s2];
    simpl in H1.
  2:{ by injection Hrun as <- <-. }
  unfold bind at 1 in Hrun.
  pose proof (keeps_handles_foldlM (store_extra m pr) (sorted_keys spc)
                (keeps_handles_store_extra m pr) tt s2) as H2.
  destruct (foldlM (store_extra m pr) tt (sorted_keys spc) s2)
    as [[[]|e3] s3]; simpl in H2.
  - done.
  - injection Hrun as <- <-. by rewrite H2.
Qed.

(** C8 (as stated, refuted): with a mapping that gives cluster 2 one spike
    where the model has two, the second write is out of range; the
    IndexError leaves open the four files that the first two iterations
    opened. *)
Lemma store_all_clusters_leak_counterexample :
  ∃ s' lv s1,
    store_all_clusters model_three_spikes false spc_stale empty_state
    = (Raise IndexError, s')
    ∧ store_first_spikes model_three_spikes false spc_stale 2 empty_state
      = (Ok lv, s1)
    ∧ handles empty_state = ∅
    ∧ size (files lv) = 4%nat
    ∧ handles s' = map_img (files lv)
    ∧ size (handles s') = 4%nat.
Proof. eexists _, _, _. repeat split; vm_compute; reflexivity. Qed.

(** C8 (amended): when the pass returns, the open handles are those that were
    open before the call: every file it opened is closed.  When it raises,
    nothing is closed: the handles open before the call stay open, and so do
    the files opened by the iterations of the loop over the spikes that ran
    before the error, whatever their number [k]; each of these files has a
    handle of its own that was not open before the call. *)
Theorem store_all_clusters_handles m pr spikes_per_cluster s r s' :
  store_all_clusters m pr spikes_per_cluster s = (r, s') →
  match r with
  | Ok _ => handles s' = handles s
  | Raise _ =>
    handles s ⊆ handles s'
    ∧ ∀ k lv s1,
        store_first_spikes m pr spikes_per_cluster k s = (Ok lv, s1) →
        handles s1 = handles s ∪ map_img (files lv)
        ∧ map_img (files lv) ## handles s
        ∧ size (map_img (files lv) : gset nat) = size (files lv)
        ∧ handles s1 ⊆ handles s'
  end.
Proof.
  intros Hrun.
  pose proof (handles_store_all_clusters m pr spikes_per_cluster s s eq_refl) as H.
  rewrite Hrun in H. destruct r as [[]|e]; [done|].
  split; [done|]. intros k lv s1 Hk.
  destruct (files_open_first_spikes _ _ _ _ _ _ _ Hk) as (H1 & H2 & H3).
  split; [done|]. split; [done|]. split; [done|].
  by eapply first_spikes_stay_open.
Qed.

Lemma store_all_clusters_handles_witness :
  (handles (store_all_clusters model_three_spikes true spc_three_spikes
              empty_state).2
   = handles empty_state)
  ∧ (handles empty_state
     ⊆ handles (store_all_clusters model_three_spikes false spc_stale
                  empty_state).2
     ∧ ∀ k lv s1,
         store_first_spikes model_three_spikes false spc_stale k empty_state
         = (Ok lv, s1) →
         handles s1 = handles empty_state ∪ map_img (files lv)
         ∧ map_img (files lv) ## handles empty_state
         ∧ size (map_img (files lv) : gset nat) = size (files lv)
         ∧ handles s1
           ⊆ handles (store_all_clusters model_three_spikes false spc_stale
                        empty_state).2).
Proof.
  split.
  - apply (store_all_clusters_handles model_three_spikes true
             spc_three_spikes empty_state (Ok tt)).
    vm_compute. reflexivity.
  - apply (store_all_clusters_handles model_three_spikes false spc_stale
             empty_state (Raise IndexError)).
    vm_compute. reflexivity.
Defined.

(** ** The distribution pass *)

Lemma sorted_keys_elem {V} (d : gmap Z V) c : c ∈ sorted_keys d ↔ c ∈ dom d.
Proof.
  unfold sorted_keys. rewrite merge_sort_Permutation. apply elem_of_elements.
Qed.

Lemma sorted_keys_NoDup {V} (d : gmap Z V) : NoDup (sorted_keys d).
Proof.
  unfold sorted_keys. rewrite merge_sort_Permutation. apply NoDup_elements.
Qed.

Lemma wf_np_zeros n rest : wf_ndarray (np_zeros (n :: rest)).
Proof.
  repeat split; simpl; [done|by rewrite length_replicate|].
  apply Forall_replicate. by rewrite length_replicate.
Qed.

Lemma wf_first_row arr :
  wf_ndarray arr → hd 0%nat (shape arr) ≠ 0%nat →
  ∃ r0 r1, first_row arr = Ok r0 ∧ last_row arr = Ok r1.
Proof.
  intros (_ & Hlen & _) Hn. unfold first_row, last_row.
  destruct (rows arr) as [|r0 rs] eqn:Hrows; [simpl in Hlen; congruence|].
  simpl. destruct (last (r0 :: rs)) as [r1|] eqn:Hlast; [eauto|].
  by apply last_None in Hlast.
Qed.

(** What [_prepare_file] leaves behind: the entry exists with the expected
    shape, blank when the file needs to be written and as it was otherwise;
    no other entry is touched. *)
Lemma prepare_file_spec name c n rest D :
  n ≠ 0%nat → wf_disk D →
  triple (λ s, disk_store s = D) (_prepare_file name c (n :: rest))
    (λ b s',
       (∀ k, k ≠ (c, name) → disk_store s' !! k = D !! k)
       ∧ ∃ arr, disk_store s' !! (c, name) = Some arr
                ∧ shape arr = n :: rest ∧ wf_ndarray arr
                ∧ (if b then arr = np_zeros (n :: rest)
                   else D !! (c, name) = Some arr))
    no_raise.
Proof.
  intros Hn HD s <-.
  assert (Hnew : ∀ s0 : state, disk_store s0 = disk_store s →
    match (disk_store_ c name (np_zeros (n :: rest));; ret true) s0 with
    | (Ok b, s') =>
        (∀ k, k ≠ (c, name) → disk_store s' !! k = disk_store s !! k)
        ∧ ∃ arr, disk_store s' !! (c, name) = Some arr
                 ∧ shape arr = n :: rest ∧ wf_ndarray arr
                 ∧ (if b then arr = np_zeros (n :: rest)
                    else disk_store s !! (c, name) = Some arr)
    | (Raise e, s') => no_raise e s'
    end).
  { intros s0 Hs0. unfold bind, disk_store_, ret; simpl. split.
    - intros k Hk. by rewrite lookup_insert_ne, Hs0.
    - eexists. rewrite lookup_insert_eq.
      split; [done|]. split; [done|]. split; [apply wf_np_zeros|done]. }
  unfold _prepare_file, bind at 1, disk_load.
  destruct (disk_store s !! (c, name)) as [arr|] eqn:Harr;
    [|by apply (Hnew s)].
  unfold bind at 1. case_bool_decide as Hshape; [|by apply (Hnew s)].
  destruct (wf_first_row arr) as (r0 & r1 & Hr0 & Hr1);
    [by eapply HD|by rewrite Hshape|].
  unfold bind at 1, lift. rewrite Hr0. unfold bind at 1.
  destruct (all_zero r0).
  - unfold bind at 1. rewrite Hr1. unfold ret at 1.
    destruct (all_zero r1).
    + unfold bind at 1, warn at 1, ret at 1. by apply Hnew.
    + unfold ret. split; [done|]. exists arr.
      split; [done|]. split; [done|]. split; [by eapply HD|done].
  - unfold ret. split; [done|]. exists arr.
    split; [done|]. split; [done|]. split; [by eapply HD|done].
Qed.

Lemma wf_disk_update D D' k arr :
  wf_disk D → (∀ k', k' ≠ k → D' !! k' = D !! k') →
  D' !! k = Some arr → wf_ndarray arr → wf_disk D'.
Proof.
  intros HD Hframe Hk Harr k' arr' Hk'.
  destruct (decide (k' = k)) as [->|Hne]; [congruence|].
  rewrite Hframe in Hk' by done. by eapply HD.
Qed.

Lemma to_store_get_insert_ne ts c c' t name :
  c ≠ c' → to_store_get (<[c' := t]> ts) c name = to_store_get ts c name.
Proof. intros Hne. unfold to_store_get. by rewrite lookup_insert_ne. Qed.

Lemma to_store_get_insert ts c masks features name :
  name ∈ names →
  to_store_get (<[c := <["features"%string := features]>
                          (<["masks"%string := masks]> ∅)]> ts) c name
  = Ok (if bool_decide (name = "masks"%string) then masks else features).
Proof.
  intros Hname. unfold to_store_get. rewrite lookup_insert_eq. simpl.
  apply elem_of_cons in Hname as [->|Hname]; [done|].
  apply list_elem_of_singleton in Hname as ->. done.
Qed.

Lemma to_store_get_dom ts c name b :
  to_store_get ts c name = Ok b → c ∈ dom ts.
Proof.
  unfold to_store_get. destruct (ts !! c) eqn:Hc; [|done].
  intros _. by apply elem_of_dom.
Qed.

(** [_clusters_to_store] prepares both entries of every cluster of
    [spikes_per_cluster] and flags no other cluster. *)
Lemma clusters_to_store_spec m spc D0 :
  up_to_date m spc → wf_disk D0 →
  triple (λ s, disk_store s = D0) (_clusters_to_store m spc)
    (λ ts s', wf_disk (disk_store s')
              ∧ dom ts = dom spc
              ∧ entries_ready m spc ts (disk_store s') (sorted_keys spc))
    no_raise.
Proof.
  intros Hspc HD0. unfold _clusters_to_store.
  assert (Hkeys : sorted_keys (length <$> spc) = sorted_keys spc).
  { unfold sorted_keys. by rewrite dom_fmap_L. }
  rewrite Hkeys.
  eapply triple_conseq;
    [apply (triple_foldlM
       (λ pre ts s, wf_disk (disk_store s)
                    ∧ dom ts = list_to_set pre
                    ∧ entries_ready m spc ts (disk_store s) pre)) | | | done].
  - intros pre x suf ts Hl s (Hwf & Hdom & Hready).
    assert (Hx : x ∈ dom spc).
    { apply sorted_keys_elem. rewrite Hl. set_solver. }
    assert (Hxpre : x ∉ pre).
    { pose proof (sorted_keys_NoDup spc) as Hnd. rewrite Hl in Hnd.
      apply NoDup_app in Hnd as (_ & Hnd & _). intros Hin.
      apply (Hnd x Hin). by left. }
    apply elem_of_dom in Hx as [sp Hsp].
    destruct (Hspc x sp Hsp) as [Hne _].
    assert (Hsize : default 0%nat ((length <$> spc) !! x) = length sp)
      by (by rewrite lookup_fmap, Hsp).
    assert (Hn : length sp ≠ 0%nat) by (by destruct sp).
    rewrite Hsize. unfold bind at 1.
    pose proof (prepare_file_spec "masks" x (length sp) [n_channels m]
                  (disk_store s) Hn Hwf s eq_refl) as H1.
    destruct (_prepare_file "masks" x _ s) as [[b1|e1] s1]; [|done].
    destruct H1 as (Hframe1 & arr1 & Harr1 & Hshape1 & Hwf1 & Hb1).
    assert (Hwfd1 : wf_disk (disk_store s1))
      by (by eapply wf_disk_update).
    unfold bind at 1.
    pose proof (prepare_file_spec "features" x (length sp)
                  [n_channels m; nfeatures_per_channel m]
                  (disk_store s1) Hn Hwfd1 s1 eq_refl) as H2.
    destruct (_prepare_file "features" x _ s1) as [[b2|e2] s2]; [|done].
    destruct H2 as (Hframe2 & arr2 & Harr2 & Hshape2 & Hwf2 & Hb2).
    unfold ret. split; [by eapply wf_disk_update|]. split.
    { rewrite dom_insert_L, Hdom, list_to_set_app_L. simpl. set_solver. }
    intros c name Hc Hname.
    apply elem_of_app in Hc as [Hc|Hc].
    + assert (c ≠ x) by congruence.
      destruct (Hready c name Hc Hname) as (b & arr & Hb & Harr & Hsh & Hz).
      exists b, arr. rewrite to_store_get_insert_ne by done.
      rewrite Hframe2, Hframe1 by congruence. done.
    + apply list_elem_of_singleton in Hc as ->.
      rewrite to_store_get_insert by done.
      unfold size_of. rewrite Hsize. unfold entry_shape.
      apply elem_of_cons in Hname as [->|Hname].
      * exists b1, arr1. rewrite bool_decide_true by done.
        rewrite Hframe2 by done. repeat split; try done.
        intros ->. done.
      * apply list_elem_of_singleton in Hname as ->.
        exists b2, arr2. rewrite bool_decide_false by done.
        repeat split; try done. intros ->. done.
  - intros s Hs. simpl. rewrite Hs. split; [done|]. split.
    { by rewrite dom_empty_L. }
    intros c name Hc. by apply elem_of_nil in Hc.
  - intros ts s (Hwf & Hdom & Hready). split; [done|]. split; [|done].
    rewrite Hdom. apply set_eq. intros c.
    rewrite elem_of_list_to_set. apply sorted_keys_elem.
Qed.

(** *** [np.nonzero] and the spikes of a cluster *)

Lemma elem_of_nonzero_from k b i :
  i ∈ nonzero_from k b ↔ ∃ j, i = (k + j)%nat ∧ b !! j = Some true.
Proof.
  revert k. induction b as [|x b IH]; intros k; simpl.
  - split; [by intros ?%elem_of_nil|by intros (j & _ & ?)].
  - rewrite elem_of_app, IH. split.
    + intros [Hi|(j & -> & Hj)].
      * destruct x; [|by apply elem_of_nil in Hi].
        apply list_elem_of_singleton in Hi as ->. exists 0%nat.
        split; [lia|done].
      * exists (S j). split; [lia|done].
    + intros ([|j] & -> & Hj); simpl in Hj.
      * injection Hj as ->. left. rewrite Nat.add_0_r.
        by apply list_elem_of_singleton.
      * right. exists j. split; [lia|done].
Qed.

Lemma nonzero_from_sorted k b : StronglySorted lt (nonzero_from k b).
Proof.
  revert k. induction b as [|x b IH]; intros k; simpl; [constructor|].
  destruct x; simpl; [|apply IH]. constructor; [apply IH|].
  apply Forall_forall. intros i (j & -> & _)%elem_of_nonzero_from. lia.
Qed.

Lemma spikes_in_clusters_nonzero scl clusters :
  _spikes_in_clusters scl clusters = nonzero (in1d scl clusters).
Proof.
  unfold _spikes_in_clusters. case_bool_decide as Hempty; [|done].
  symmetry. apply elem_of_nil_inv. intros i.
  unfold nonzero. rewrite elem_of_nonzero_from. intros (j & _ & Hj).
  unfold in1d in Hj. rewrite list_lookup_fmap in Hj.
  destruct (scl !! j) as [x|] eqn:Hx; [|done]. simpl in Hj.
  destruct Hempty as [Hlen|Hlen].
  - apply lookup_lt_Some in Hx. lia.
  - destruct clusters; [|done]. by injection Hj.
Qed.

Lemma elem_of_spikes_in_clusters (scl clusters : list Z) i :
  i ∈ _spikes_in_clusters scl clusters ↔
  ∃ c, scl !! i = Some c ∧ c ∈ clusters.
Proof.
  rewrite spikes_in_clusters_nonzero. unfold nonzero, in1d.
  rewrite elem_of_nonzero_from. split.
  - intros (j & -> & Hj). simpl. rewrite list_lookup_fmap in Hj.
    destruct (scl !! j) as [c|]; [|done]. injection Hj as Hj.
    apply bool_decide_eq_true in Hj. eauto.
  - intros (c & Hi & Hc). exists i. split; [done|].
    rewrite list_lookup_fmap, Hi. simpl. by rewrite bool_decide_true.
Qed.

Lemma elem_of_spikes_of m c i :
  i ∈ spikes_of m c ↔ spike_clusters m !! i = Some c.
Proof.
  unfold spikes_of, nonzero. rewrite elem_of_nonzero_from. split.
  - intros (j & -> & Hj). simpl. rewrite list_lookup_fmap in Hj.
    destruct (spike_clusters m !! j) as [c'|]; [|done]. injection Hj as Hj.
    apply bool_decide_eq_true in Hj. by subst.
  - intros Hi. exists i. split; [done|].
    rewrite list_lookup_fmap, Hi. simpl. by rewrite bool_decide_true.
Qed.

(** The spikes of a stored cluster, picked out of the spikes of all stored
    clusters, are the spikes of that cluster. *)
Lemma filter_nonzero_in1d (scl clusters : list Z) c k (l : list Z) :
  c ∈ clusters → (∀ j, l !! j = scl !! (k + j)%nat) →
  filter (λ sp, scl !! sp = Some c) (nonzero_from k (in1d l clusters))
  = nonzero_from k ((λ x, bool_decide (x = c)) <$> l).
Proof.
  intros Hc. revert k. induction l as [|x l IH]; intros k Hl; [done|].
  simpl. rewrite filter_app. f_equal.
  - pose proof (Hl 0%nat) as H0. simpl in H0. rewrite Nat.add_0_r in H0.
    destruct (decide (x = c)) as [->|Hne].
    + rewrite !bool_decide_true by done.
      rewrite filter_cons_True by done. done.
    + rewrite (bool_decide_false (x = c)) by done.
      case_bool_decide; [|done].
      rewrite filter_cons_False; [done|]. congruence.
  - apply IH. intros j. specialize (Hl (S j)). simpl in Hl.
    by rewrite Hl, Nat.add_succ_r.
Qed.

Lemma filter_spikes_in_clusters m clusters c :
  c ∈ clusters →
  filter (λ sp, spike_clusters m !! sp = Some c)
         (_spikes_in_clusters (spike_clusters m) clusters)
  = spikes_of m c.
Proof.
  intros Hc. rewrite spikes_in_clusters_nonzero.
  by apply filter_nonzero_in1d.
Qed.

(** *** The channels of [main_channels] *)

Lemma argsort_Permutation {A} (R : relation A) `{!RelDecision R} (a : list A) :
  argsort R a ≡ₚ seq 0 (length a).
Proof.
  unfold argsort. rewrite merge_sort_Permutation, snd_zip; [done|].
  by rewrite length_seq.
Qed.

Lemma nonzero_sorted_bounded (b : list bool) :
  StronglySorted lt (nonzero b) ∧ ∀ i, i ∈ nonzero b → (i < length b)%nat.
Proof.
  split; [apply nonzero_from_sorted|].
  intros i (j & -> & Hj)%elem_of_nonzero_from.
  apply lookup_lt_Some in Hj. lia.
Qed.

Lemma intersect1d_sorted_subset (a b : list nat) :
  StronglySorted lt b → (∀ x, x ∈ b → x ∈ a) → intersect1d a b = b.
Proof.
  intros Hb Hsub. unfold intersect1d.
  assert (Hnd : NoDup b).
  { clear Hsub. induction Hb as [|x l Hl IH Hall]; constructor; [|done].
    intros Hx. eapply Forall_forall in Hall; [|exact Hx]. lia. }
  apply (Sorted_unique le).
  - apply Sorted_merge_sort. apply _.
  - clear Hsub Hnd. apply StronglySorted_Sorted in Hb.
    induction Hb as [|x l Hl IH Hhd]; constructor; [done|].
    destruct Hhd; constructor. lia.
  - rewrite merge_sort_Permutation.
    apply NoDup_Permutation; [apply NoDup_remove_dups|done|].
    intros x. rewrite elem_of_remove_dups, list_elem_of_filter.
    split; [tauto|auto].
Qed.

Lemma elem_of_nonzero_fmap {A} (p : A → bool) (l : list A) c :
  c ∈ nonzero (p <$> l) ↔ ∃ x, l !! c = Some x ∧ p x = true.
Proof.
  unfold nonzero. rewrite elem_of_nonzero_from. split.
  - intros (j & -> & Hj). rewrite Nat.add_0_l.
    rewrite list_lookup_fmap in Hj.
    destruct (l !! j) as [x|]; [|done]. injection Hj as Hj. eauto.
  - intros (x & Hx & Hp). exists c. split; [done|].
    by rewrite list_lookup_fmap, Hx, <- Hp.
Qed.

(** X1: what [main_channels] is on every input: the unmasked channels in
    ascending order of channel index, the order of [unmasked_channels]; a
    channel is unmasked when its float32 mean mask is greater than the
    float32 nearest to 1e-3, which is 8589935 / 2^33. *)
Lemma main_channels_unmasked m masks f :
  extra_fields_of m masks = Ok f →
  main_channels f
  = nonzero ((λ x, SFltb mask_threshold x) <$> mean_masks f)
  ∧ StronglySorted lt (main_channels f)
  ∧ (∀ c, c ∈ main_channels f
          ↔ ∃ x, mean_masks f !! c = Some x ∧ SFltb mask_threshold x = true)
  ∧ float_value mask_threshold = Some (8589935 # 8589934592)%Q.
Proof.
  unfold extra_fields_of. intros Hf.
  destruct (shape masks) as [|n [|ncols [|]]]; try discriminate.
  destruct (mul_column _ _); [|discriminate]. injection Hf as <-. simpl.
  match goal with |- intersect1d ?a ?b = _ ∧ _ =>
    assert (Hi : intersect1d a b = b) end.
  { apply intersect1d_sorted_subset; [apply nonzero_sorted_bounded|].
    intros x Hx%nonzero_sorted_bounded. rewrite length_fmap in Hx.
    rewrite elem_of_reverse, argsort_Permutation. apply elem_of_seq. lia. }
  rewrite Hi. split; [done|]. split; [apply nonzero_sorted_bounded|].
  split; [|vm_compute; reflexivity].
  intros c. apply elem_of_nonzero_fmap.
Qed.

Lemma main_channels_unmasked_witness :
  ∃ f, extra_fields_of model_two_channels masks_ranked = Ok f
       ∧ main_channels f
         = nonzero ((λ x, SFltb mask_threshold x) <$> mean_masks f)
       ∧ StronglySorted lt (main_channels f)
       ∧ (∀ c, c ∈ main_channels f
               ↔ ∃ x, mean_masks f !! c = Some x
                      ∧ SFltb mask_threshold x = true)
       ∧ float_value mask_threshold = Some (8589935 # 8589934592)%Q.
Proof.
  eexists. split; [vm_compute; reflexivity|].
  apply (main_channels_unmasked model_two_channels masks_ranked).
  vm_compute. reflexivity.
Defined.

(** *** The data copied for a spike *)

Lemma stride_from_length {A} step skip (a : list A) :
  step ≠ 0%nat →
  length (stride_from step skip a)
  = ((length a + step - 1 - skip) / step)%nat.
Proof.
  intros Hstep. revert skip. induction a as [|x a IH]; intros skip.
  - cbn [stride_from length]. symmetry. apply Nat.div_small. lia.
  - destruct skip as [|k]; cbn [stride_from length]; rewrite IH.
    + replace (S (length a) + step - 1 - 0)%nat
        with (length a + 1 * step)%nat by lia.
      rewrite Nat.div_add by done.
      replace (length a + step - 1 - (step - 1))%nat with (length a) by lia.
      lia.
    + f_equal. lia.
Qed.

Lemma stride_length {A} step n (a : list A) :
  step ≠ 0%nat → length a = (step * n)%nat → length (stride step a) = n.
Proof.
  intros Hstep Hlen. unfold stride. rewrite stride_from_length by done.
  rewrite Hlen.
  replace (step * n + step - 1 - 0)%nat with (step - 1 + n * step)%nat by lia.
  rewrite Nat.div_add by done. rewrite Nat.div_small; lia.
Qed.

Lemma data_ok m name spike n :
  wf_model m → (spike < length (spike_clusters m))%nat → name ∈ names →
  ∃ d, _data m name spike = Ok d
       ∧ length d = row_len (entry_shape m name n).
Proof.
  intros (Hnf & Hlen & Hrows & _) Hspike Hname. unfold _data.
  destruct (model_features_masks m !! spike) as [r|] eqn:Hr.
  2:{ apply lookup_ge_None in Hr. lia. }
  assert (Hrl : length r = (nfeatures_per_channel m * n_channels m)%nat).
  { eapply Forall_forall in Hrows; [exact Hrows|]. by eapply list_elem_of_lookup_2. }
  unfold entry_shape, row_len.
  apply elem_of_cons in Hname as [->|Hname].
  - rewrite (bool_decide_false ("masks"%string = "features"%string)) by done.
    rewrite !bool_decide_true by done.
    rewrite bool_decide_false by done. eexists; split; [done|].
    rewrite length_fmap. simpl.
    rewrite (stride_length _ (n_channels m)); [lia|done|].
    rewrite length_take. lia.
  - apply list_elem_of_singleton in Hname as ->.
    rewrite (bool_decide_true ("features"%string = "features"%string)) by done.
    rewrite (bool_decide_false ("features"%string = "masks"%string)) by done.
    rewrite bool_decide_true.
    + eexists; split; [done|]. rewrite length_fmap, length_take. simpl. lia.
    + rewrite length_fmap, length_take. lia.
Qed.

(** *** One field of one spike *)

Lemma arr_run lv c name s :
  ∃ lv' s', _arr lv c name s = (Ok lv', s')
            ∧ disk_store s' = disk_store s ∧ cursors lv' = cursors lv.
Proof.
  unfold _arr. destruct (files lv !! (name, c)); [by eexists _, _|].
  unfold bind, cluster_file, ret. by eexists _, _.
Qed.

Section distribution.

(** The model, the mapping given to [store_all_clusters] and the flags of
    [_clusters_to_store] are fixed during the pass. *)
Context (m : Model) (spc : gmap Z (list Z)) (ts : gmap Z (gmap string bool)).
Hypothesis Hm : wf_model m.
Hypothesis Hspc : up_to_date m spc.

Lemma done_of_snoc c P spike :
  spike_clusters m !! spike = Some c →
  done_of m c (P ++ [spike]) = done_of m c P ++ [spike].
Proof.
  intros Hc. unfold done_of. rewrite filter_app.
  by rewrite (filter_cons_True _ spike).
Qed.

Lemma done_of_snoc_other c c' P spike :
  spike_clusters m !! spike = Some c → c' ≠ c →
  done_of m c' (P ++ [spike]) = done_of m c' P.
Proof.
  intros Hc Hne. unfold done_of. rewrite filter_app.
  rewrite (filter_cons_False _ spike); [by rewrite app_nil_r|]. congruence.
Qed.

Lemma entry_inv_frame c name P lv lv' D D' :
  entry_inv m spc ts c name P lv D →
  D' !! (c, name) = D !! (c, name) →
  cursors lv' !! (name, c) = cursors lv !! (name, c) →
  entry_inv m spc ts c name P lv' D'.
Proof.
  intros (arr & Harr & Hshape & Hwf & Hmarked) HD Hcur.
  exists arr. rewrite HD, Hcur. done.
Qed.

Lemma entry_inv_snoc_other c c' name P lv D spike :
  spike_clusters m !! spike = Some c → c' ≠ c →
  entry_inv m spc ts c' name P lv D →
  entry_inv m spc ts c' name (P ++ [spike]) lv D.
Proof.
  intros Hc Hne (arr & Harr & Hshape & Hwf & Hmarked).
  exists arr. by rewrite (done_of_snoc_other c c').
Qed.

Lemma store_field_spec c name spike P lv D b :
  name ∈ names →
  spike_clusters m !! spike = Some c →
  to_store_get ts c name = Ok b →
  entry_inv m spc ts c name P lv D →
  (b = true → (length (done_of m c P) < size_of spc c)%nat) →
  triple (λ s, disk_store s = D) (store_field m ts c spike lv name)
    (λ lv' s',
       entry_inv m spc ts c name (P ++ [spike]) lv' (disk_store s')
       ∧ (∀ k, k ≠ (c, name) → disk_store s' !! k = D !! k)
       ∧ (∀ k, k ≠ (name, c) → cursors lv' !! k = cursors lv !! k))
    no_raise.
Proof.
  intros Hname Hc Hget (arr & Harr & Hshape & Hwf & Hmarked) Hbound s <-.
  unfold store_field, bind at 1, lift. rewrite Hget.
  destruct b.
  2:{ unfold ret. split; [|done]. exists arr.
      split; [done|]. split; [done|]. split; [done|].
      intros Hget'. congruence. }
  destruct (Hmarked Hget) as [Hcur Hrows]. specialize (Hbound eq_refl).
  assert (Hlt : (spike < length (spike_clusters m))%nat)
    by (by eapply lookup_lt_Some).
  destruct (data_ok m name spike (size_of spc c) Hm Hlt Hname)
    as (d & Hd & Hdlen).
  unfold bind at 1. rewrite Hd.
  destruct (arr_run lv c name s) as (lv1 & s1 & Hrun & Hdisk1 & Hcur1).
  unfold bind at 1. rewrite Hrun.
  unfold bind at 1, disk_setitem, bind at 1, disk_load.
  rewrite Hdisk1, Harr. unfold bind at 1, lift, setitem.
  rewrite Hcur1, Hcur.
  destruct Hwf as (Hne & Hlen & Hall).
  rewrite Hshape in Hlen, Hall.
  assert (Hhd : hd 0%nat (entry_shape m name (size_of spc c)) = size_of spc c).
  { unfold entry_shape. by case_bool_decide. }
  rewrite Hhd in Hlen.
  destruct (rows arr !! length (done_of m c P)) as [old|] eqn:Hold.
  2:{ apply lookup_ge_None in Hold. lia. }
  assert (Holdlen : length old = row_len (entry_shape m name (size_of spc c))).
  { eapply Forall_forall in Hall; [exact Hall|].
    by eapply list_elem_of_lookup_2. }
  rewrite bool_decide_true by congruence.
  unfold disk_store_, ret; simpl. split; [|split].
  - eexists. rewrite lookup_insert_eq. split; [done|]. simpl.
    split; [done|]. split.
    + repeat split; simpl; [done|by rewrite length_insert, Hshape, Hhd|].
      rewrite Hshape. apply Forall_insert; [done|congruence].
    + intros _. rewrite lookup_insert_eq. simpl.
      rewrite (done_of_snoc c) by done.
      rewrite length_app. simpl. split; [lia|].
      replace (length (done_of m c P) + 1)%nat
        with (S (length (done_of m c P))) by lia.
      erewrite take_S_r; [|apply list_lookup_insert_eq; lia].
      rewrite take_insert. case_decide; [lia|].
      apply Forall2_app; [done|]. by constructor.
  - intros k Hk. by rewrite lookup_insert_ne, Hdisk1.
  - intros k Hk. by rewrite lookup_insert_ne.
Qed.

(** *** The loop over the spikes *)

Lemma size_of_up_to_date c :
  c ∈ dom spc →
  size_of spc c = length (spikes_of m c) ∧ size_of spc c ≠ 0%nat.
Proof.
  intros [sp Hsp]%elem_of_dom. destruct (Hspc c sp Hsp) as [Hne Hlen].
  unfold size_of. rewrite lookup_fmap, Hsp. simpl.
  split; [done|by destruct sp].
Qed.

Lemma needs_store_marked D c name :
  entries_ready m spc ts D (sorted_keys spc) → c ∈ dom spc → name ∈ names →
  to_store_get ts c name = Ok true → needs_store ts c = true.
Proof.
  intros Hready Hc%sorted_keys_elem Hname Hget.
  destruct (Hready c "masks"%string Hc) as (b1 & ? & Hb1 & _);
    [unfold names; set_solver|].
  destruct (Hready c "features"%string Hc) as (b2 & ? & Hb2 & _);
    [unfold names; set_solver|].
  unfold needs_store. rewrite Hb1, Hb2.
  apply elem_of_cons in Hname as [->|Hname].
  - rewrite Hb1 in Hget. by injection Hget as ->.
  - apply list_elem_of_singleton in Hname as ->.
    rewrite Hb2 in Hget. injection Hget as ->. by destruct b1.
Qed.

Lemma store_spikes_spec pr D1 :
  dom ts = dom spc →
  wf_disk D1 → entries_ready m spc ts D1 (sorted_keys spc) →
  triple (λ s, disk_store s = D1)
    (foldlM (store_spike m pr ts) (Locals ∅ ∅)
       (zip (seq 0 (length (stored_spikes m ts))) (stored_spikes m ts)))
    (λ lv s', ∀ c name, c ∈ dom spc → name ∈ names →
       entry_inv m spc ts c name (stored_spikes m ts) lv (disk_store s'))
    no_raise.
Proof.
  intros Hdom HD1 Hready.
  eapply triple_conseq;
    [apply (triple_foldlM
       (λ pre lv s, ∀ c name, c ∈ dom spc → name ∈ names →
          entry_inv m spc ts c name pre.*2 lv (disk_store s))) | | | done].
  - intros pre [it spike] suf lv Hl s Hinv.
    assert (Hsp : stored_spikes m ts = pre.*2 ++ spike :: suf.*2).
    { apply (f_equal (fmap snd)) in Hl.
      rewrite snd_zip in Hl by (rewrite length_seq; lia).
      by rewrite Hl, fmap_app. }
    assert (Hin : spike ∈ stored_spikes m ts).
    { rewrite Hsp. set_solver. }
    apply elem_of_spikes_in_clusters in Hin as (c & Hc & Hcl).
    assert (Hcdom : c ∈ dom spc).
    { apply list_elem_of_filter in Hcl as [_ Hcl].
      apply sorted_keys_elem in Hcl. by rewrite <- Hdom. }
    destruct (size_of_up_to_date c Hcdom) as [Hsize _].
    assert (Hbound : (length (done_of m c pre.*2) < size_of spc c)%nat).
    { rewrite Hsize, <- (filter_spikes_in_clusters m _ c Hcl).
      fold (stored_spikes m ts). rewrite Hsp.
      rewrite filter_app, (filter_cons_True _ spike) by done.
      rewrite length_app. unfold done_of. simpl. lia. }
    assert (Hmasks : "masks"%string ∈ names) by (unfold names; set_solver).
    assert (Hfeatures : "features"%string ∈ names)
      by (unfold names; set_solver).
    pose proof (proj2 (sorted_keys_elem spc c) Hcdom) as Hckeys.
    destruct (Hready c _ Hckeys Hmasks) as (b1 & ? & Hb1 & _).
    destruct (Hready c _ Hckeys Hfeatures) as (b2 & ? & Hb2 & _).
    unfold store_spike, bind at 1, lift. rewrite Hc.
    cbn [foldlM names].
    pose proof (store_field_spec c _ spike pre.*2 lv (disk_store s)
                  b1 Hmasks Hc Hb1 (Hinv c _ Hcdom Hmasks)
                  (λ _, Hbound) s eq_refl) as H1.
    unfold bind at 1. unfold bind at 1.
    destruct (store_field m ts c spike lv "masks" s) as [[lv1|e1] s1];
      [|done].
    destruct H1 as (Hinv1 & Hfd1 & Hfc1).
    assert (Hinvf : entry_inv m spc ts c "features" pre.*2 lv1 (disk_store s1)).
    { eapply entry_inv_frame; [by apply Hinv|by apply Hfd1|by apply Hfc1]. }
    pose proof (store_field_spec c _ spike pre.*2 lv1 (disk_store s1)
                  b2 Hfeatures Hc Hb2 Hinvf (λ _, Hbound) s1 eq_refl) as H2.
    unfold bind at 1.
    destruct (store_field m ts c spike lv1 "features" s1) as [[lv2|e2] s2];
      [|done].
    destruct H2 as (Hinv2 & Hfd2 & Hfc2).
    unfold ret at 1.
    assert (Hrep : ∃ s3,
      (if pr && bool_decide ((it mod 100)%nat = 0%nat)
       then report pr (PrIncrement "features_masks" 100) else ret tt) s2
      = (Ok tt, s3) ∧ disk_store s3 = disk_store s2).
    { destruct (pr && _); unfold report, ret; [destruct pr|]; eauto. }
    destruct Hrep as (s3 & Hrep & Hd3).
    unfold bind. rewrite Hrep. unfold ret.
    intros c' name' Hc' Hname'. rewrite fmap_app. simpl. rewrite Hd3.
    destruct (decide (c' = c)) as [->|Hne].
    + apply elem_of_cons in Hname' as [->|Hname'].
      * eapply entry_inv_frame; [exact Hinv1|by apply Hfd2|by apply Hfc2].
      * apply list_elem_of_singleton in Hname' as ->. exact Hinv2.
    + apply (entry_inv_snoc_other c); [done..|].
      eapply entry_inv_frame; [by apply Hinv| |].
      * rewrite Hfd2, Hfd1 by congruence. done.
      * rewrite Hfc2, Hfc1 by congruence. done.
  - intros s Hs c name Hc Hname. simpl. rewrite Hs.
    destruct (Hready c name) as (b & arr & Hb & Harr & Hshape & Hz);
      [by apply sorted_keys_elem|done|].
    exists arr. split; [done|]. split; [done|]. split; [by eapply HD1|].
    intros _. split; [done|]. simpl. constructor.
  - intros lv s Hinv c name Hc Hname. specialize (Hinv c name Hc Hname).
    by rewrite snd_zip in Hinv by (rewrite length_seq; lia).
Qed.

End distribution.

(** *** The aggregation pass and the end of the pass *)

(** The fuel of [pairwise_sum] does not matter once it is at least the
    length of the run. *)
Lemma pairwise_sum_fuel prec emax fuel fuel' (a : list spec_float) :
  (length a ≤ fuel)%nat → (length a ≤ fuel')%nat →
  pairwise_sum prec emax fuel a = pairwise_sum prec emax fuel' a.
Proof.
  revert fuel' a. induction fuel as [|fuel IH]; intros fuel' a Hf Hf'.
  - destruct a; [|simpl in Hf; lia]. by destruct fuel'.
  - destruct fuel' as [|fuel'].
    { destruct a; [done|simpl in Hf'; lia]. }
    cbn [pairwise_sum].
    case_bool_decide as H8; [done|]. case_bool_decide as H128; [done|].
    assert (Hn2 : (0 < length a / 2 - (length a / 2) mod 8 < length a)%nat).
    { pose proof (Nat.div_mod_eq (length a) 2).
      pose proof (Nat.mod_upper_bound (length a) 2 ltac:(lia)).
      pose proof (Nat.mod_upper_bound (length a / 2) 8 ltac:(lia)). lia. }
    f_equal; apply IH; rewrite ?length_take, ?length_drop; lia.
Qed.

Lemma np_sum_axis0_length prec emax ncols a :
  Forall (λ r, length r = ncols) a →
  length (np_sum_axis0 prec emax ncols a) = ncols.
Proof.
  intros Ha. unfold np_sum_axis0. case_bool_decide as Hn; [by subst|].
  assert (Hacc : length (replicate ncols (S754_zero false)) = ncols)
    by apply length_replicate.
  revert Hacc. generalize (replicate ncols (S754_zero false)).
  induction Ha as [|r a Hr Ha IH]; intros acc Hacc; simpl; [done|].
  apply IH. rewrite length_zip_with. lia.
Qed.

Lemma extra_fields_of_ok m masks n :
  length (probe_positions m) = n_channels m →
  shape masks = [n; n_channels m] → wf_ndarray masks →
  ∃ f, extra_fields_of m masks = Ok f.
Proof.
  intros Hprobe Hshape (_ & _ & Hrows).
  unfold extra_fields_of. rewrite Hshape in *.
  unfold mul_column. rewrite bool_decide_true; [by eexists|].
  rewrite !length_fmap, np_sum_axis0_length; [done|].
  apply Forall_fmap. eapply Forall_impl; [exact Hrows|]. intros r Hr.
  simpl. rewrite length_fmap, Hr. unfold row_len. simpl. lia.
Qed.

Lemma store_extras_spec m pr D cs :
  wf_model m →
  (∀ c, c ∈ cs → ∃ arr n, D !! (c, "masks"%string) = Some arr
                          ∧ shape arr = [n; n_channels m] ∧ wf_ndarray arr) →
  triple (λ s, disk_store s = D) (foldlM (store_extra m pr) tt cs)
         (λ _ s', disk_store s' = D) no_raise.
Proof.
  intros Hm Hcs.
  apply (triple_foldlM (λ _ _ s, disk_store s = D)).
  intros pre c suf [] -> s Hs.
  destruct (Hcs c) as (arr & n & Harr & Hshape & Hwf); [set_solver|].
  destruct (extra_fields_of_ok m arr n (proj2 (proj2 (proj2 Hm))) Hshape Hwf)
    as [f Hf].
  unfold store_extra, bind, disk_load, _store_extra_fields.
  rewrite Hs, Harr. unfold bind, lift. rewrite Hf.
  unfold memory_store_, report. by destruct pr.
Qed.

Lemma disk_close_all fs s : disk_store (close_all fs s).2 = disk_store s.
Proof.
  unfold close_all; simpl.
  by apply (map_fold_weak_ind
              (λ r (_ : gmap (string * Z) nat), disk_store r = disk_store s)).
Qed.

(** The pass returns, and every entry that [_clusters_to_store] marked
    holds, row by row, what [_data] gives for the spikes of its cluster. *)
Lemma pass_rows_data m pr spikes_per_cluster s :
  wf_model m → up_to_date m spikes_per_cluster → wf_disk (disk_store s) →
  ∃ to_store s0 s',
    _clusters_to_store m spikes_per_cluster s = (Ok to_store, s0)
    ∧ store_all_clusters m pr spikes_per_cluster s = (Ok tt, s')
    ∧ ∀ c name,
        name ∈ names → to_store_get to_store c name = Ok true →
        StronglySorted lt (spikes_of m c)
        ∧ (∀ i, i ∈ spikes_of m c ↔ spike_clusters m !! i = Some c)
        ∧ ∃ arr, disk_store s' !! (c, name) = Some arr
                 ∧ Forall2 (λ spike row, _data m name spike = Ok row)
                           (spikes_of m c) (rows arr).
Proof.
  intros Hm Hspc Hwf.
  pose proof (clusters_to_store_spec m spikes_per_cluster (disk_store s)
                Hspc Hwf s eq_refl) as H0.
  destruct (_clusters_to_store m spikes_per_cluster s) as [[ts|e] s0] eqn:Hcts;
    [|done].
  destruct H0 as (Hwf0 & Hdom & Hready).
  exists ts, s0.
  unfold store_all_clusters, bind at 1. rewrite Hcts. cbv zeta.
  fold (stored_spikes m ts).
  assert (Hrep : ∃ s1,
    report pr (PrSetMax (length (stored_spikes m ts))
                        (size spikes_per_cluster)) s0 = (Ok tt, s1)
    ∧ disk_store s1 = disk_store s0).
  { unfold report. destruct pr; eauto. }
  destruct Hrep as (s1 & Hrep & Hd1).
  unfold bind at 1. rewrite Hrep.
  pose proof (store_spikes_spec m spikes_per_cluster ts Hm Hspc pr
                (disk_store s0) Hdom Hwf0 Hready s1 Hd1) as H1.
  unfold bind at 1.
  destruct (foldlM (store_spike m pr ts) _ _ s1) as [[lv|e] s2]; [|done].
  assert (Hmasks : "masks"%string ∈ names) by (unfold names; set_solver).
  pose proof (store_extras_spec m pr (disk_store s2)
                (sorted_keys spikes_per_cluster) Hm) as H2.
  unfold bind at 1.
  destruct (foldlM (store_extra m pr) _ _ s2) as [[[]|e] s3] eqn:Hext.
  2:{ specialize (H2 ltac:(intros c Hc%sorted_keys_elem;
        destruct (H1 c _ Hc Hmasks) as (arr & Harr & Hshape & Hwfa & _);
        by exists arr, (size_of spikes_per_cluster c)) s2 eq_refl).
      by rewrite Hext in H2. }
  specialize (H2 ltac:(intros c Hc%sorted_keys_elem;
    destruct (H1 c _ Hc Hmasks) as (arr & Harr & Hshape & Hwfa & _);
    by exists arr, (size_of spikes_per_cluster c)) s2 eq_refl).
  rewrite Hext in H2.
  eexists. split; [done|]. split; [reflexivity|].
  intros c name Hname Hget.
  split; [apply nonzero_from_sorted|]. split; [apply elem_of_spikes_of|].
  assert (Hc : c ∈ dom spikes_per_cluster).
  { rewrite <- Hdom. by eapply to_store_get_dom. }
  pose proof (disk_close_all (files lv) s3) as Hclose.
  unfold close_all in *. simpl in *. rewrite Hclose, H2.
  destruct (H1 c name Hc Hname) as (arr & Harr & Hshape & Hwfa & Hmarked).
  destruct (Hmarked Hget) as [_ Hrows].
  exists arr. split; [done|].
  assert (Hcl : c ∈ filter (λ cluster, needs_store ts cluster = true)
                       (sorted_keys ts)).
  { apply list_elem_of_filter. split.
    - by eapply needs_store_marked.
    - apply sorted_keys_elem. by rewrite Hdom. }
  unfold stored_spikes, done_of in Hrows.
  rewrite (filter_spikes_in_clusters m _ c Hcl) in Hrows.
  destruct (size_of_up_to_date m _ Hspc c Hc) as [Hsize _].
  destruct Hwfa as (_ & Hlen & _). rewrite Hshape in Hlen.
  rewrite take_ge in Hrows; [done|].
  rewrite Hlen, <- Hsize. unfold entry_shape. by case_bool_decide.
Qed.

(** ** Indexing, sorting and dictionaries *)

Lemma take_idx_seq {A} (l : list A) : take_idx l (seq 0 (length l)) = Some l.
Proof.
  unfold take_idx. apply mapM_Some, Forall2_same_length_lookup.
  split; [by rewrite length_seq|].
  intros i x y [-> _]%lookup_seq Hy. done.
Qed.

Lemma mapM_Permutation {A B} (f : A → option B) (l l' : list A) :
  l ≡ₚ l' → ∀ k, mapM f l = Some k → ∃ k', mapM f l' = Some k' ∧ k ≡ₚ k'.
Proof.
  induction 1 as [|x l l' Hl IH|x y l|l l' l'' H1 IH1 H2 IH2]; intros k Hk.
  - by exists k.
  - simpl in *. destruct (f x) as [z|]; [|done]. simpl in *.
    destruct (mapM f l) as [k0|] eqn:Hk0; [|done]. simpl in Hk.
    injection Hk as <-. destruct (IH k0 eq_refl) as (k' & -> & Hperm).
    simpl. eexists; split; [done|]. by constructor.
  - simpl in *. destruct (f y) as [zy|]; [|done].
    destruct (f x) as [zx|]; [|done]. simpl in *.
    destruct (mapM f l) as [k0|]; [|done]. simpl in *.
    injection Hk as <-. eexists; split; [done|]. constructor.
  - destruct (IH1 k Hk) as (k' & Hk' & Hp1).
    destruct (IH2 k' Hk') as (k'' & Hk'' & Hp2).
    exists k''. split; [done|]. by etrans.
Qed.

Lemma take_idx_Permutation {A} (l : list A) (rel : list nat) :
  rel ≡ₚ seq 0 (length l) → ∃ l', take_idx l rel = Some l' ∧ l' ≡ₚ l.
Proof.
  intros Hrel. symmetry in Hrel.
  destruct (mapM_Permutation (λ i, l !! i) _ _ Hrel l (take_idx_seq l))
    as (l' & Hl' & Hperm).
  by exists l'.
Qed.

Lemma take_idx_zip {A B} (a a' : list A) (b b' : list B) rel :
  take_idx a rel = Some a' → take_idx b rel = Some b' →
  take_idx (zip a b) rel = Some (zip a' b').
Proof.
  unfold take_idx. rewrite !mapM_Some. intros Ha. revert b'.
  induction Ha as [|i x rel a' Hx Ha IH]; intros b' Hb;
    inversion Hb as [|? y ? b'' Hy Hb']; subst; simpl; constructor; auto.
  apply lookup_zip_with_Some. eauto.
Qed.

Lemma take_idx_length {A} (a a' : list A) rel :
  take_idx a rel = Some a' → length a' = length rel.
Proof. unfold take_idx. intros H%mapM_Some. by erewrite <- Forall2_length. Qed.

Lemma np_sort_Permutation l l' : l ≡ₚ l' → np_sort l = np_sort l'.
Proof.
  intros Hp. unfold np_sort.
  apply (Sorted_unique Z.le); try apply Sorted_merge_sort; try apply _.
  by rewrite !merge_sort_Permutation.
Qed.

(** A dictionary filled item by item from items with distinct keys. *)
Lemma foldl_insert_list_to_map (kvs : list (Z * list Z)) :
  NoDup kvs.*1 →
  foldl (λ (d : gmap Z (list Z)) kv, <[kv.1 := kv.2]> d) ∅ kvs
  = list_to_map kvs.
Proof.
  induction kvs as [|kv kvs IH] using rev_ind; intros Hnd; [done|].
  rewrite foldl_app. simpl. rewrite fmap_app in Hnd.
  apply NoDup_app in Hnd as (Hnd & Hkv & _). rewrite IH by done.
  apply map_eq. intros c. destruct (decide (c = kv.1)) as [->|Hne].
  - rewrite lookup_insert_eq. symmetry.
    apply elem_of_list_to_map_1.
    + rewrite fmap_app. apply NoDup_app. split; [done|]. split; [done|].
      apply NoDup_singleton.
    + destruct kv. set_solver.
  - rewrite lookup_insert_ne by done.
    destruct (list_to_map kvs !! c) as [v|] eqn:Hc.
    + symmetry. apply elem_of_list_to_map_1.
      * rewrite fmap_app. apply NoDup_app. split; [done|]. split; [done|].
        apply NoDup_singleton.
      * apply elem_of_list_to_map_2 in Hc. set_solver.
    + symmetry. apply not_elem_of_list_to_map_1.
      apply not_elem_of_list_to_map_2 in Hc.
      rewrite fmap_app. simpl. set_solver.
Qed.

(** ** Sorted labels as runs *)

Lemma runs_of_sorted (abs cls : list Z) :
  length abs = length cls → Sorted Z.le cls →
  ∃ gs, abs = abs_of gs ∧ cls = cls_of gs
        ∧ StronglySorted Z.lt (run_label <$> gs).
Proof.
  revert abs. induction cls as [|c cls IH]; intros [|a abs] Hlen Hs;
    try discriminate.
  { exists []. repeat split. constructor. }
  apply Sorted_inv in Hs as [Hs Hhd].
  destruct (IH abs) as (gs & -> & -> & Hgs); [by injection Hlen|done|].
  destruct gs as [|[c' [x xs]] gs].
  { exists [(c, (a, []))]. repeat split. repeat constructor. }
  unfold cls_of in Hhd. simpl in Hhd. apply HdRel_inv in Hhd.
  unfold run_label in Hhd. simpl in Hhd.
  destruct (decide (c = c')) as [->|Hne].
  - exists ((c', (a, x :: xs)) :: gs). repeat split. exact Hgs.
  - exists ((c, (a, [])) :: (c', (x, xs)) :: gs). repeat split.
    constructor; [done|]. simpl.
    apply StronglySorted_inv in Hgs as [_ Hall].
    constructor; [unfold run_label; simpl; lia|].
    eapply Forall_impl; [exact Hall|]. unfold run_label. simpl. lia.
Qed.

Lemma np_diff_cons x t : np_diff (x :: t) = diff_from x t.
Proof. revert x. induction t as [|y t IH]; intros x; [done|]. simpl. f_equal. apply IH. Qed.

Lemma wrap64_small z : 0 ≤ z < 2 ^ 63 → wrap64 z = z.
Proof. intros Hz. unfold wrap64. rewrite Z.mod_small; lia. Qed.

Lemma diff_from_replicate c n rest :
  (λ d, bool_decide (0 < d)) <$> diff_from c (replicate n c ++ rest)
  = replicate n false ++ ((λ d, bool_decide (0 < d)) <$> diff_from c rest).
Proof.
  induction n as [|n IH]; [done|].
  cbn [replicate app diff_from]. rewrite fmap_cons, IH.
  rewrite Z.sub_diag. done.
Qed.

Lemma diff_flags prev gs :
  0 ≤ prev →
  Forall (λ c, prev < c < 2 ^ 63) (run_label <$> gs) →
  StronglySorted Z.lt (run_label <$> gs) →
  (λ d, bool_decide (0 < d)) <$> diff_from prev (cls_of gs) = flags_of gs.
Proof.
  revert prev. induction gs as [|[c [x xs]] gs IH]; intros prev Hprev Hb Hs;
    [done|].
  apply Forall_cons in Hb as [Hc Hb].
  apply StronglySorted_inv in Hs as [Hs Hall].
  unfold run_label in *. simpl in *.
  unfold cls_of, flags_of. simpl.
  rewrite wrap64_small by lia. rewrite bool_decide_true by lia. f_equal.
  rewrite diff_from_replicate. f_equal. apply IH; [lia| |done].
  apply Forall_forall. intros c' Hc'.
  eapply Forall_forall in Hb; [|exact Hc'].
  eapply Forall_forall in Hall; [|exact Hc']. lia.
Qed.

Lemma nonzero_from_replicate_false k n rest :
  nonzero_from k (replicate n false ++ rest) = nonzero_from (k + n) rest.
Proof.
  revert k. induction n as [|n IH]; intros k; simpl.
  - by rewrite Nat.add_0_r.
  - rewrite IH. f_equal. lia.
Qed.

Lemma nonzero_flags k gs : nonzero_from k (flags_of gs) = offsets k gs.
Proof.
  revert k. induction gs as [|[c [x xs]] gs IH]; intros k; [done|].
  unfold flags_of. simpl. f_equal.
  rewrite nonzero_from_replicate_false. fold (flags_of gs).
  rewrite IH. f_equal. lia.
Qed.

Lemma cls_of_cons g gs :
  cls_of (g :: gs) = replicate (length (run_ids g)) (run_label g) ++ cls_of gs.
Proof. done. Qed.

Lemma abs_of_cons g gs : abs_of (g :: gs) = run_ids g ++ abs_of gs.
Proof. done. Qed.

Lemma take_idx_cons {A} (a : list A) i idx :
  take_idx a (i :: idx)
  = (x ← a !! i; k ← take_idx a idx; Some (x :: k)).
Proof. done. Qed.

Lemma length_cls_of gs : length (cls_of gs) = length (abs_of gs).
Proof.
  induction gs as [|g gs IH]; [done|].
  rewrite cls_of_cons, abs_of_cons, !length_app, length_replicate. lia.
Qed.

Lemma take_idx_offsets pre gs :
  take_idx (pre ++ cls_of gs) (offsets (length pre) gs)
  = Some (run_label <$> gs).
Proof.
  revert pre. induction gs as [|g gs IH]; intros pre; [done|].
  rewrite cls_of_cons. cbn [offsets]. rewrite take_idx_cons.
  assert (Hhd : (pre ++ replicate (length (run_ids g)) (run_label g)
                  ++ cls_of gs) !! length pre = Some (run_label g)).
  { unfold run_ids. cbn [length replicate app].
    by rewrite list_lookup_middle. }
  rewrite Hhd. cbn [mbind option_bind].
  rewrite (assoc_L (++)).
  replace (length pre + length (run_ids g))%nat
    with (length (pre ++ replicate (length (run_ids g)) (run_label g)))
    by (by rewrite length_app, length_replicate).
  by rewrite IH.
Qed.

(** The dictionary comprehension of [_spikes_per_cluster], item by item. *)
Lemma items_mapM {B} (cs : list Z) (idx : list nat) (f : nat → nat → B) :
  length cs = length idx →
  mapM (λ i, c ← cs !! i; a ← idx !! i; b ← idx !! S i; Some (c, f a b))
       (seq 0 (length cs - 1))
  = Some (zip_with (λ c ab, (c, f ab.1 ab.2)) cs (zip idx (tail idx))).
Proof.
  intros Hlen. apply mapM_Some, Forall2_same_length_lookup. split.
  - rewrite length_seq, !length_zip_with.
    destruct idx as [|a idx]; cbn [tail length] in *; lia.
  - intros i j y [-> _]%lookup_seq Hy. simpl.
    apply lookup_zip_with_Some in Hy as (c & [a b] & -> & Hc & Hab).
    apply lookup_zip_with_Some in Hab as (a' & b' & [= <- <-] & Ha & Hb).
    rewrite lookup_tail in Hb. by rewrite Hc, Ha, Hb.
Qed.

Lemma run_items_offsets pre gs c_last i_last :
  last (run_label <$> gs) = Some c_last →
  last (offsets (length pre) gs) = Some i_last →
  zip_with (λ c ab, (c, np_sort (slice (pre ++ abs_of gs) ab.1 ab.2)))
           (run_label <$> gs)
           (zip (offsets (length pre) gs) (tail (offsets (length pre) gs)))
  ++ [(c_last, np_sort (drop i_last (pre ++ abs_of gs)))]
  = run_items gs.
Proof.
  revert pre. induction gs as [|g gs IH]; intros pre Hc Hi; [done|].
  destruct gs as [|g' gs].
  - injection Hc as <-. injection Hi as <-. cbn [offsets tail zip zip_with fmap list_fmap app].
    rewrite abs_of_cons. unfold abs_of at 1. cbn [mbind list_bind].
    rewrite app_nil_r, drop_app_length. done.
  - rewrite !fmap_cons in Hc. rewrite last_cons_cons in Hc.
    cbn [offsets] in Hi. rewrite last_cons_cons in Hi.
    specialize (IH (pre ++ run_ids g)).
    rewrite length_app in IH. specialize (IH Hc Hi).
    rewrite <- (assoc_L (++)), <- abs_of_cons in IH.
    change (run_items (g :: g' :: gs))
      with ((run_label g, np_sort (run_ids g)) :: run_items (g' :: gs)).
    rewrite <- IH. rewrite fmap_cons.
    cbn [offsets tail zip_with app]. f_equal.
    unfold slice. cbn [fst snd]. f_equal. f_equal.
    replace (length pre + length (run_ids g) - length pre)%nat
      with (length (run_ids g)) by lia.
    rewrite abs_of_cons, drop_app_length, take_app_length. done.
Qed.

(** *** The ids of a label, on the runs *)

Lemma ids_of_app c a1 a2 c1 c2 :
  length a1 = length c1 →
  ids_of c (a1 ++ a2) (c1 ++ c2) = ids_of c a1 c1 ++ ids_of c a2 c2.
Proof.
  intros Hlen. unfold ids_of.
  by rewrite zip_with_app, filter_app, fmap_app.
Qed.

Lemma ids_of_replicate c c' a :
  ids_of c a (replicate (length a) c') = if decide (c' = c) then a else [].
Proof.
  unfold ids_of. induction a as [|x a IH]; [by case_decide|].
  cbn [length replicate zip_with].
  destruct (decide (c' = c)) as [->|Hne].
  - rewrite filter_cons_True by done. rewrite fmap_cons. cbn [fst].
    by rewrite IH.
  - rewrite filter_cons_False by done. by rewrite IH.
Qed.

Lemma ids_of_runs_notin c gs :
  c ∉ run_label <$> gs → ids_of c (abs_of gs) (cls_of gs) = [].
Proof.
  induction gs as [|g gs IH]; intros Hc; [done|].
  rewrite fmap_cons, not_elem_of_cons in Hc. destruct Hc as [Hne Hc].
  rewrite abs_of_cons, cls_of_cons, ids_of_app
    by (by rewrite length_replicate).
  rewrite ids_of_replicate, IH by done. by rewrite decide_False.
Qed.

Lemma ids_of_runs_in g gs :
  NoDup (run_label <$> gs) → g ∈ gs →
  ids_of (run_label g) (abs_of gs) (cls_of gs) = run_ids g.
Proof.
  induction gs as [|g' gs IH]; intros Hnd Hg; [by apply elem_of_nil in Hg|].
  rewrite fmap_cons in Hnd. apply NoDup_cons in Hnd as [Hg' Hnd].
  rewrite abs_of_cons, cls_of_cons, ids_of_app
    by (by rewrite length_replicate).
  rewrite ids_of_replicate.
  apply elem_of_cons in Hg as [->|Hg].
  - rewrite decide_True by done. rewrite ids_of_runs_notin by done.
    by rewrite app_nil_r.
  - rewrite decide_False, IH; [done..|].
    intros Heq. apply Hg'. rewrite Heq. by apply list_elem_of_fmap_2.
Qed.

(** *** [_spikes_per_cluster] on the runs *)

Lemma length_offsets k gs : length (offsets k gs) = length gs.
Proof.
  revert k. induction gs as [|g gs IH]; intros k; [done|].
  simpl. by rewrite IH.
Qed.

Lemma StronglySorted_lt_NoDup (l : list Z) : StronglySorted Z.lt l → NoDup l.
Proof.
  induction 1 as [|x l Hl IH Hall]; constructor; [|done].
  intros Hx. eapply Forall_forall in Hall; [|exact Hx]. lia.
Qed.

Lemma run_items_keys gs : (run_items gs).*1 = run_label <$> gs.
Proof. unfold run_items. rewrite <- list_fmap_compose. done. Qed.

Lemma flags_runs gs :
  gs ≠ [] →
  Forall (λ c, 0 ≤ c < 2 ^ 63) (run_label <$> gs) →
  StronglySorted Z.lt (run_label <$> gs) →
  (λ d, bool_decide (0 < d)) <$> (1 :: np_diff (cls_of gs)) = flags_of gs.
Proof.
  destruct gs as [|g gs]; [done|]. intros _ Hb Hs.
  rewrite fmap_cons in Hb, Hs.
  apply Forall_cons in Hb as [Hg Hb].
  apply StronglySorted_inv in Hs as [Hs Hall].
  rewrite cls_of_cons. unfold run_ids. cbn [length replicate app].
  rewrite np_diff_cons, fmap_cons, diff_from_replicate.
  change (flags_of (g :: gs))
    with (true :: replicate (length g.2.2) false ++ flags_of gs).
  f_equal. f_equal.
  apply diff_flags; [lia| |done].
  apply Forall_forall. intros c Hc.
  eapply Forall_forall in Hb; [|exact Hc].
  eapply Forall_forall in Hall; [|exact Hc]. lia.
Qed.

Lemma spikes_per_cluster_with_runs np_argsort ids cl :
  cl ≠ [] → length ids = length cl →
  Forall (λ c, 0 ≤ c < 2 ^ 63) cl →
  is_argsort Z.le (np_argsort cl) cl →
  ∃ gs, zip (abs_of gs) (cls_of gs) ≡ₚ zip ids cl
        ∧ StronglySorted Z.lt (run_label <$> gs)
        ∧ _spikes_per_cluster_with np_argsort ids cl
          = Some (list_to_map (run_items gs)).
Proof.
  intros Hne Hlen Hbound [Hperm (s & Hs & Hsorted)].
  destruct (take_idx_Permutation ids (np_argsort cl)) as (abs & Habs & _);
    [by rewrite Hlen|].
  pose proof (take_idx_zip _ _ _ _ _ Habs Hs) as Hzip.
  destruct (take_idx_Permutation (zip ids cl) (np_argsort cl))
    as (z & Hz & Hzperm).
  { rewrite length_zip_with. by replace (length ids `min` length cl)%nat
      with (length cl) by lia. }
  rewrite Hzip in Hz. injection Hz as <-.
  assert (Hlen' : length abs = length s).
  { apply take_idx_length in Habs, Hs. congruence. }
  destruct (runs_of_sorted abs s Hlen' Hsorted) as (gs & -> & -> & Hgs).
  exists gs. split; [done|]. split; [done|].
  assert (Hgsne : gs ≠ []).
  { intros ->. apply take_idx_length in Hs. simpl in Hs.
    apply Permutation_length in Hperm. rewrite length_seq in Hperm.
    destruct cl; [done|]. simpl in *. lia. }
  assert (Hb : Forall (λ c, 0 ≤ c < 2 ^ 63) (run_label <$> gs)).
  { apply Forall_forall. intros c (g & -> & Hg)%list_elem_of_fmap.
    assert (Hin : run_label g ∈ cls_of gs).
    { unfold cls_of. apply list_elem_of_bind. exists g. split; [|done].
      unfold run_ids. simpl. left. }
    assert (Hin' : run_label g ∈ (zip (abs_of gs) (cls_of gs)).*2).
    { rewrite snd_zip; [done|]. by rewrite length_cls_of. }
    rewrite Hzperm in Hin'. rewrite snd_zip in Hin' by lia.
    eapply Forall_forall in Hbound; [exact Hbound|done]. }
  unfold _spikes_per_cluster_with. rewrite Habs, Hs. cbn [mbind option_bind].
  destruct (cls_of gs) as [|c0 t] eqn:Hcls.
  { destruct gs as [|g gs]; [done|]. by rewrite cls_of_cons in Hcls. }
  rewrite <- Hcls.
  rewrite (flags_runs gs Hgsne Hb Hgs). unfold nonzero.
  rewrite nonzero_flags.
  pose proof (take_idx_offsets [] gs) as Hti. cbn [app length] in Hti.
  rewrite Hti. cbn [mbind option_bind].
  rewrite items_mapM by (by rewrite length_fmap, length_offsets).
  cbn [mbind option_bind].
  destruct (last (run_label <$> gs)) as [c_last|] eqn:Hcl.
  2:{ apply last_None in Hcl. by apply fmap_nil_inv in Hcl. }
  destruct (last (offsets 0 gs)) as [i_last|] eqn:Hil.
  2:{ apply last_None in Hil. apply (f_equal length) in Hil.
      rewrite length_offsets in Hil. by destruct gs. }
  cbn [mbind option_bind]. f_equal.
  pose proof (run_items_offsets [] gs c_last i_last Hcl Hil) as Hitems.
  cbn [app length] in Hitems.
  rewrite <- foldl_insert_list_to_map.
  2:{ rewrite run_items_keys. by apply StronglySorted_lt_NoDup. }
  rewrite <- Hitems, foldl_app. done.
Qed.

(** *** The reference [argsort] *)

Lemma argsort_is_argsort (a : list Z) : is_argsort Z.le (argsort Z.le a) a.
Proof.
  unfold argsort.
  pose proof (merge_sort_Permutation (key_le Z.le)
                (zip a (seq 0 (length a)))) as Hperm.
  pose proof (Sorted_merge_sort (key_le Z.le)
                (zip a (seq 0 (length a)))) as Hsorted.
  revert Hperm Hsorted.
  generalize (merge_sort (key_le Z.le) (zip a (seq 0 (length a)))).
  intros ps Hperm Hsorted. split.
  - rewrite Hperm, snd_zip; [done|]. by rewrite length_seq.
  - exists ps.*1. split.
    + apply mapM_Some, Forall2_fmap, Forall_Forall2_diag.
      rewrite Hperm. apply Forall_forall. intros [x i] Hin.
      apply list_elem_of_lookup in Hin as [j Hj].
      apply lookup_zip_with_Some in Hj as (x' & i' & [= <- <-] & Hx & Hi).
      apply lookup_seq in Hi as [-> _]. done.
    + eapply Sorted_fmap; [|exact Hsorted]. by intros [] [].
Qed.

(** *** The dictionary of [_spikes_per_cluster] *)

Lemma abs_of_concat gs : abs_of gs = concat (run_ids <$> gs).
Proof.
  induction gs as [|g gs IH]; [done|].
  by rewrite abs_of_cons, fmap_cons, IH.
Qed.

Lemma concat_np_sort (ls : list (list Z)) :
  concat (np_sort <$> ls) ≡ₚ concat ls.
Proof.
  induction ls as [|l ls IH]; [done|].
  rewrite fmap_cons. simpl. rewrite IH. unfold np_sort.
  by rewrite merge_sort_Permutation.
Qed.

Lemma elem_of_cls_of c gs : c ∈ cls_of gs ↔ c ∈ run_label <$> gs.
Proof.
  unfold cls_of. rewrite list_elem_of_bind, list_elem_of_fmap. split.
  - intros (g & Hc & Hg). apply elem_of_replicate in Hc as [-> _]. eauto.
  - intros (g & -> & Hg). exists g. split; [|done].
    apply elem_of_replicate. split; [done|]. unfold run_ids. simpl. lia.
Qed.

Lemma ids_of_Permutation c ids cl ids' cl' :
  zip ids cl ≡ₚ zip ids' cl' → ids_of c ids cl ≡ₚ ids_of c ids' cl'.
Proof. intros Hp. unfold ids_of. by rewrite Hp. Qed.

(** What the code returns, label by label. *)
Lemma run_items_lookup gs ids cl c :
  length ids = length cl →
  zip (abs_of gs) (cls_of gs) ≡ₚ zip ids cl →
  StronglySorted Z.lt (run_label <$> gs) →
  (list_to_map (run_items gs) : gmap Z (list Z)) !! c
  = if decide (c ∈ cl) then Some (np_sort (ids_of c ids cl)) else None.
Proof.
  intros Hlen Hp Hgs.
  pose proof (StronglySorted_lt_NoDup _ Hgs) as Hnd.
  assert (Hcl : c ∈ cl ↔ c ∈ run_label <$> gs).
  { rewrite <- elem_of_cls_of.
    rewrite <- (snd_zip ids cl) by lia. rewrite <- Hp.
    rewrite snd_zip; [done|]. by rewrite length_cls_of. }
  destruct (decide (c ∈ cl)) as [Hc|Hc].
  - apply Hcl, list_elem_of_fmap in Hc as (g & -> & Hg).
    apply elem_of_list_to_map_1; [by rewrite run_items_keys|].
    unfold run_items. apply list_elem_of_fmap. exists g. split; [|done].
    f_equal. apply np_sort_Permutation.
    rewrite <- (ids_of_runs_in g gs Hnd Hg).
    by apply ids_of_Permutation.
  - apply not_elem_of_list_to_map_1. rewrite run_items_keys. by rewrite <- Hcl.
Qed.

Lemma run_items_concat gs ids cl :
  length ids = length cl →
  zip (abs_of gs) (cls_of gs) ≡ₚ zip ids cl →
  StronglySorted Z.lt (run_label <$> gs) →
  concat (map_to_list (list_to_map (run_items gs) : gmap Z (list Z))).*2
  ≡ₚ ids.
Proof.
  intros Hlen Hp Hgs.
  rewrite map_to_list_to_map
    by (rewrite run_items_keys; by apply StronglySorted_lt_NoDup).
  unfold run_items. rewrite <- list_fmap_compose.
  change (snd ∘ (λ g, (run_label g, np_sort (run_ids g))))
    with (np_sort ∘ run_ids).
  rewrite list_fmap_compose, concat_np_sort, <- abs_of_concat.
  rewrite <- (fst_zip (abs_of gs) (cls_of gs)) by (by rewrite length_cls_of).
  rewrite Hp. rewrite fst_zip by lia. done.
Qed.

Lemma elem_of_ids_of x c ids cl : x ∈ ids_of c ids cl ↔ (x, c) ∈ zip ids cl.
Proof.
  unfold ids_of. rewrite list_elem_of_fmap. split.
  - intros ([x' c'] & -> & [Hc Hin]%list_elem_of_filter). simpl in *.
    by subst.
  - intros Hin. exists (x, c). split; [done|].
    by apply list_elem_of_filter.
Qed.

Lemma zip_label_unique (ids cl : list Z) x c1 c2 :
  NoDup ids → length ids = length cl →
  (x, c1) ∈ zip ids cl → (x, c2) ∈ zip ids cl → c1 = c2.
Proof.
  intros Hnd Hlen H1 H2.
  assert (Hnd' : NoDup (zip ids cl).*1) by (rewrite fst_zip by lia; done).
  pose proof (elem_of_list_to_map_1 (M := gmap Z) _ _ _ Hnd' H1) as E1.
  pose proof (elem_of_list_to_map_1 (M := gmap Z) _ _ _ Hnd' H2) as E2.
  congruence.
Qed.

(** C1: on a non-empty array of non-negative int64 labels and a matching
    array of ids, [_spikes_per_cluster] returns a dictionary, the same
    whatever order [np.argsort] gives to equal labels; its keys are the
    labels that occur; the value of a label is the ascending arrangement of
    the ids carrying it; the values together are the ids, each once; and
    when the ids are distinct the values are pairwise disjoint. *)
Theorem spikes_per_cluster_partition spike_ids spike_clusters :
  spike_clusters ≠ [] →
  length spike_ids = length spike_clusters →
  Forall (λ c, 0 ≤ c < 2 ^ 63) spike_clusters →
  ∃ d,
    _spikes_per_cluster spike_ids spike_clusters = Some d
    ∧ (∀ np_argsort,
         is_argsort Z.le (np_argsort spike_clusters) spike_clusters →
         _spikes_per_cluster_with np_argsort spike_ids spike_clusters = Some d)
    ∧ (∀ c, c ∈ dom d ↔ c ∈ spike_clusters)
    ∧ (∀ c sp, d !! c = Some sp →
         Sorted Z.le sp ∧ sp ≡ₚ ids_of c spike_ids spike_clusters)
    ∧ concat (map_to_list d).*2 ≡ₚ spike_ids
    ∧ (NoDup spike_ids →
       ∀ c1 c2 sp1 sp2, c1 ≠ c2 → d !! c1 = Some sp1 → d !! c2 = Some sp2 →
       ∀ x, x ∈ sp1 → x ∉ sp2).
Proof.
  intros Hne Hlen Hbound.
  destruct (spikes_per_cluster_with_runs (argsort Z.le) spike_ids
              spike_clusters Hne Hlen Hbound (argsort_is_argsort _))
    as (gs & Hp & Hgs & Hrun).
  pose proof (run_items_lookup gs spike_ids spike_clusters) as Hlk.
  exists (list_to_map (run_items gs)).
  assert (Hval : ∀ c sp,
    (list_to_map (run_items gs) : gmap Z (list Z)) !! c = Some sp →
    Sorted Z.le sp ∧ sp ≡ₚ ids_of c spike_ids spike_clusters).
  { intros c sp Hc. rewrite Hlk in Hc by done.
    case_decide; [|done]. injection Hc as <-. unfold np_sort. split.
    - apply Sorted_merge_sort. apply _.
    - apply merge_sort_Permutation. }
  split; [exact Hrun|]. split; [|split; [|split; [exact Hval|split]]].
  - intros np_argsort Harg.
    destruct (spikes_per_cluster_with_runs np_argsort spike_ids
                spike_clusters Hne Hlen Hbound Harg)
      as (gs' & Hp' & Hgs' & ->).
    f_equal. apply map_eq. intros c.
    rewrite Hlk by done.
    by rewrite (run_items_lookup gs' spike_ids spike_clusters) by done.
  - intros c. rewrite elem_of_dom, Hlk by done.
    case_decide; split; intros H'; done.
  - by apply (run_items_concat gs spike_ids spike_clusters).
  - intros Hnd c1 c2 sp1 sp2 Hc H1 H2 x Hx1 Hx2.
    apply Hval in H1 as [_ H1]. apply Hval in H2 as [_ H2].
    rewrite H1 in Hx1. rewrite H2 in Hx2.
    apply elem_of_ids_of in Hx1, Hx2.
    by apply Hc, (zip_label_unique spike_ids spike_clusters x).
Qed.

Lemma spikes_per_cluster_partition_witness :
  ∃ d,
    _spikes_per_cluster [10; 11; 12; 13; 14] [2; 5; 2; 5; 2] = Some d
    ∧ (∀ np_argsort,
         is_argsort Z.le (np_argsort [2; 5; 2; 5; 2]) [2; 5; 2; 5; 2] →
         _spikes_per_cluster_with np_argsort [10; 11; 12; 13; 14]
           [2; 5; 2; 5; 2] = Some d)
    ∧ (∀ c, c ∈ dom d ↔ c ∈ [2; 5; 2; 5; 2])
    ∧ (∀ c sp, d !! c = Some sp →
         Sorted Z.le sp
         ∧ sp ≡ₚ ids_of c [10; 11; 12; 13; 14] [2; 5; 2; 5; 2])
    ∧ concat (map_to_list d).*2 ≡ₚ [10; 11; 12; 13; 14]
    ∧ (NoDup [10; 11; 12; 13; 14] →
       ∀ c1 c2 sp1 sp2, c1 ≠ c2 → d !! c1 = Some sp1 → d !! c2 = Some sp2 →
       ∀ x, x ∈ sp1 → x ∉ sp2).
Proof.
  apply (spikes_per_cluster_partition [10; 11; 12; 13; 14] [2; 5; 2; 5; 2]).
  - discriminate.
  - reflexivity.
  - repeat constructor; lia.
Defined.

(** ** [_concatenate_per_cluster_arrays] *)

Lemma mapM_lookup_default {V} (d : gmap Z (list V)) (cs : list Z) :
  (∀ c, c ∈ cs → c ∈ dom d) →
  mapM (λ c, d !! c) cs = Some ((λ c, default [] (d !! c)) <$> cs).
Proof.
  intros Hcs. apply mapM_Some, Forall2_fmap_r, Forall_Forall2_diag.
  apply Forall_forall. intros c Hc. simpl.
  apply Hcs, elem_of_dom in Hc as [v Hv]. by rewrite Hv.
Qed.

Lemma mapM_length_default {V} (d : gmap Z (list V)) (cs : list Z) :
  (∀ c, c ∈ cs → c ∈ dom d) →
  mapM (λ c, length <$> d !! c) cs
  = Some ((λ c, length (default [] (d !! c))) <$> cs).
Proof.
  intros Hcs. apply mapM_Some, Forall2_fmap_r, Forall_Forall2_diag.
  apply Forall_forall. intros c Hc. simpl.
  apply Hcs, elem_of_dom in Hc as [v Hv]. by rewrite Hv.
Qed.

Lemma zip_concat_fmap {A B C} (f : C → list A) (g : C → list B) cs :
  (∀ c, c ∈ cs → length (f c) = length (g c)) →
  zip (concat (f <$> cs)) (concat (g <$> cs)) = cs ≫= (λ c, zip (f c) (g c)).
Proof.
  induction cs as [|c cs IH]; intros Hlen; [done|].
  rewrite !fmap_cons, bind_cons. cbn [concat].
  rewrite zip_with_app by (apply Hlen; left).
  rewrite IH; [done|]. intros c' Hc'. apply Hlen. by right.
Qed.

Lemma length_concat_fmap {A B C} (f : C → list A) (g : C → list B) cs :
  (∀ c, c ∈ cs → length (f c) = length (g c)) →
  length (concat (f <$> cs)) = length (concat (g <$> cs)).
Proof.
  induction cs as [|c cs IH]; intros Hlen; [done|].
  rewrite !fmap_cons. cbn [concat]. rewrite !length_app.
  rewrite IH, (Hlen c); [done|left|]. intros c' Hc'. apply Hlen. by right.
Qed.

Lemma Sorted_le_NoDup_lt (l : list Z) :
  Sorted Z.le l → NoDup l → StronglySorted Z.lt l.
Proof.
  intros Hs%Sorted_StronglySorted Hnd; [|apply _].
  induction Hs as [|x l Hl IH Hall]; [constructor|].
  apply NoDup_cons in Hnd as [Hx Hnd]. constructor; [by apply IH|].
  apply Forall_forall. intros y Hy.
  eapply Forall_forall in Hall; [|exact Hy].
  assert (x ≠ y) by (by intros ->). lia.
Qed.

Lemma StronglySorted_fst {A} (ps : list (Z * A)) :
  StronglySorted Z.lt ps.*1 → StronglySorted (λ p q, p.1 < q.1) ps.
Proof.
  induction ps as [|p ps IH]; intros Hs; [constructor|].
  rewrite fmap_cons in Hs. apply StronglySorted_inv in Hs as [Hs Hall].
  constructor; [by apply IH|]. by rewrite Forall_fmap in Hall.
Qed.

(** Rows in ascending order of distinct spike ids: there is one such
    arrangement of given labelled rows. *)
Lemma sorted_rows_unique {A} (ps1 ps2 : list (Z * A)) :
  ps1 ≡ₚ ps2 →
  StronglySorted Z.lt ps1.*1 → StronglySorted Z.lt ps2.*1 → ps1 = ps2.
Proof.
  intros Hp H1%StronglySorted_fst H2%StronglySorted_fst.
  eapply (StronglySorted_unique_strong (λ p q : Z * A, p.1 < q.1));
    [|done..].
  intros p q _ _ Hpq Hqp. lia.
Qed.

Lemma sorted_keys_nil {V} (d : gmap Z V) : sorted_keys d = [] → d = ∅.
Proof.
  unfold sorted_keys. intros Hnil.
  assert (Hel : elements (dom d) ≡ₚ []).
  { by rewrite <- (merge_sort_Permutation Z.le), Hnil. }
  apply Permutation_nil_r, elements_empty_inv in Hel.
  apply dom_empty_inv_L. by unfold_leibniz.
Qed.

(** What the code returns with any sorting routine: the rows in ascending
    order of their spike ids. *)
Lemma concatenate_with_spec {A} np_argsort (spc : gmap Z (list Z))
    (arrays : gmap Z (list A)) :
  arrays ≠ ∅ → dom arrays ⊆ dom spc →
  (∀ c sp rows, spc !! c = Some sp → arrays !! c = Some rows →
                length rows = length sp) →
  NoDup (labelled_rows spc arrays).*1 →
  (∀ l, is_argsort Z.le (np_argsort l) l) →
  ∃ ps, _concatenate_per_cluster_arrays_with np_argsort spc arrays
        = Some ps.*2
        ∧ ps ≡ₚ labelled_rows spc arrays ∧ StronglySorted Z.lt ps.*1.
Proof.
  intros Hne Hdom Hlens Hnd Hvalid.
  assert (Hcs : ∀ c, c ∈ sorted_keys arrays → c ∈ dom arrays)
    by (intros c; apply sorted_keys_elem).
  assert (Hcs' : ∀ c, c ∈ sorted_keys arrays → c ∈ dom spc)
    by (intros c Hc; apply Hdom, Hcs, Hc).
  assert (Hlen : ∀ c, c ∈ sorted_keys arrays →
    length (default [] (spc !! c)) = length (default [] (arrays !! c))).
  { intros c Hc. pose proof (Hcs c Hc) as [rows Hrows]%elem_of_dom.
    pose proof (Hcs' c Hc) as [sp Hsp]%elem_of_dom.
    rewrite Hrows, Hsp. simpl. symmetry. by eapply Hlens. }
  unfold _concatenate_per_cluster_arrays_with.
  rewrite bool_decide_true by done.
  rewrite !mapM_length_default by done. cbn [mbind option_bind].
  rewrite bool_decide_true.
  2:{ apply Forall_fmap_ext_1, Forall_forall. intros c Hc. by apply Hlen. }
  rewrite !mapM_lookup_default by done. cbn [mbind option_bind].
  assert (Hconc : ∀ {B} (ls : list (list B)),
            length ls = length (sorted_keys arrays) →
            np_concatenate ls = Some (concat ls)).
  { intros B ls Hls. destruct ls; [|done].
    destruct (sorted_keys arrays) eqn:Hk; [|done].
    by apply sorted_keys_nil in Hk. }
  rewrite !Hconc by (by rewrite length_fmap). cbn [mbind option_bind].
  set (spikes := concat ((λ c, default [] (spc !! c)) <$> sorted_keys arrays)).
  set (rows := concat ((λ c, default [] (arrays !! c)) <$> sorted_keys arrays)).
  assert (Hrl : length spikes = length rows)
    by (by apply length_concat_fmap).
  assert (Hz : zip spikes rows = labelled_rows spc arrays)
    by (by apply zip_concat_fmap).
  destruct (Hvalid spikes) as [Hperm (s & Hs & Hsorted)].
  destruct (take_idx_Permutation rows (np_argsort spikes))
    as (res & Hres & _); [by rewrite <- Hrl|].
  pose proof (take_idx_zip _ _ _ _ _ Hs Hres) as Hzip.
  destruct (take_idx_Permutation (zip spikes rows) (np_argsort spikes))
    as (z & Hz' & Hzperm).
  { rewrite length_zip_with. by replace (length spikes `min` length rows)%nat
      with (length spikes) by lia. }
  rewrite Hzip in Hz'. injection Hz' as <-. rewrite Hz in Hzperm.
  assert (Hsl : length s = length res).
  { apply take_idx_length in Hs, Hres. congruence. }
  exists (zip s res). rewrite snd_zip by lia. split; [done|].
  split; [done|]. rewrite fst_zip by lia.
  apply Sorted_le_NoDup_lt; [done|].
  rewrite <- (fst_zip s res) by lia. by rewrite Hzperm.
Qed.

Lemma seq_Z_sorted j n : StronglySorted Z.lt (Z.of_nat <$> seq j n).
Proof.
  revert j. induction n as [|n IH]; intros j; [constructor|].
  cbn [seq]. rewrite fmap_cons. constructor; [apply IH|].
  rewrite Forall_fmap. apply Forall_forall. intros k Hk%elem_of_seq.
  simpl. lia.
Qed.

(** Rows labelled with 0..n-1 that are rows of [orig], in ascending order of
    their labels, are [orig]. *)
Lemma sorted_rows_original {A} (ps : list (Z * A)) (orig : list A) :
  StronglySorted Z.lt ps.*1 →
  ps.*1 ≡ₚ Z.of_nat <$> seq 0 (length orig) →
  (∀ s r, (s, r) ∈ ps → orig !! Z.to_nat s = Some r) →
  ps.*2 = orig.
Proof.
  intros Hs Hperm Horig.
  assert (Hkeys : ps.*1 = Z.of_nat <$> seq 0 (length orig)).
  { apply (StronglySorted_unique_strong Z.lt);
      [intros; lia|done|apply seq_Z_sorted|done]. }
  assert (Hlen : length ps = length orig).
  { apply (f_equal length) in Hkeys.
    by rewrite !length_fmap, length_seq in Hkeys. }
  apply (list_eq_same_length _ _ (length orig)); [done|by rewrite length_fmap|].
  intros i x y Hi Hx Hy.
  apply list_lookup_fmap_Some in Hx as ([k x'] & -> & Hp). simpl.
  assert (Hk : ps.*1 !! i = Some k) by (by rewrite list_lookup_fmap, Hp).
  rewrite Hkeys, list_lookup_fmap, lookup_seq_lt in Hk by done.
  injection Hk as <-.
  apply list_elem_of_lookup_2, Horig in Hp. rewrite Nat2Z.id in Hp.
  simpl in Hp. congruence.
Qed.

(** C2 (as stated, refuted): the empty dictionaries satisfy the premises,
    and [np.concatenate] of no array is a ValueError. *)
Lemma concatenate_empty_counterexample :
  ¬ (∀ (spc : gmap Z (list Z)) (arrays : gmap Z (list Z)),
       map_Forall (λ c rows, length <$> spc !! c = Some (length rows)) arrays →
       NoDup (labelled_rows spc arrays).*1 →
       ∃ res, _concatenate_per_cluster_arrays spc arrays = Some res).
Proof.
  intros H. destruct (H ∅ ∅) as [res Hres].
  - apply map_Forall_empty.
  - vm_compute. constructor.
  - vm_compute in Hres. discriminate Hres.
Qed.

(** C2 (amended): when [arrays] is not empty, has for each of its clusters
    as many rows as [spikes_per_cluster] has spikes, and the spike ids are
    distinct, the code returns the rows in ascending order of their spike
    ids, whatever order [np.argsort] is implemented with; and when the spike
    ids are 0..n-1 and each row is the row of [orig] at its spike, the code
    returns [orig]. *)
Theorem concatenate_per_cluster_arrays_sorted {A}
    (spikes_per_cluster : gmap Z (list Z)) (arrays : gmap Z (list A)) :
  arrays ≠ ∅ →
  map_Forall (λ c rows, length <$> spikes_per_cluster !! c
                        = Some (length rows)) arrays →
  NoDup (labelled_rows spikes_per_cluster arrays).*1 →
  ∃ ps,
    ps ≡ₚ labelled_rows spikes_per_cluster arrays
    ∧ StronglySorted Z.lt ps.*1
    ∧ _concatenate_per_cluster_arrays spikes_per_cluster arrays = Some ps.*2
    ∧ (∀ np_argsort,
         (∀ l, is_argsort Z.le (np_argsort l) l) →
         _concatenate_per_cluster_arrays_with np_argsort spikes_per_cluster
           arrays = Some ps.*2)
    ∧ (∀ orig,
         (labelled_rows spikes_per_cluster arrays).*1
           ≡ₚ Z.of_nat <$> seq 0 (length orig) →
         (∀ s r, (s, r) ∈ labelled_rows spikes_per_cluster arrays →
                 orig !! Z.to_nat s = Some r) →
         _concatenate_per_cluster_arrays spikes_per_cluster arrays
         = Some orig).
Proof.
  intros Hne Hrows Hnd.
  assert (Hdom : dom arrays ⊆ dom spikes_per_cluster).
  { intros c [rows Hc]%elem_of_dom. specialize (Hrows c rows Hc).
    simpl in Hrows. apply elem_of_dom.
    destruct (spikes_per_cluster !! c); [by eexists|done]. }
  assert (Hlens : ∀ c sp rows, spikes_per_cluster !! c = Some sp →
            arrays !! c = Some rows → length rows = length sp).
  { intros c sp rows Hsp Hc. specialize (Hrows c rows Hc). simpl in Hrows.
    rewrite Hsp in Hrows. simpl in Hrows. congruence. }
  destruct (concatenate_with_spec (argsort Z.le) spikes_per_cluster arrays
              Hne Hdom Hlens Hnd argsort_is_argsort)
    as (ps & Hrun & Hperm & Hsorted).
  exists ps. split; [done|]. split; [done|]. split; [exact Hrun|]. split.
  - intros np_argsort Hvalid.
    destruct (concatenate_with_spec np_argsort spikes_per_cluster arrays
                Hne Hdom Hlens Hnd Hvalid)
      as (ps' & -> & Hperm' & Hsorted').
    do 2 f_equal. apply sorted_rows_unique; [|done..].
    by rewrite Hperm, Hperm'.
  - intros orig Hids Horig. unfold _concatenate_per_cluster_arrays.
    rewrite Hrun. f_equal. apply sorted_rows_original; [done| |].
    + by rewrite Hperm.
    + intros s r Hin. apply Horig. by rewrite <- Hperm.
Qed.

Lemma concatenate_per_cluster_arrays_sorted_witness :
  _concatenate_per_cluster_arrays spc_five arrays_five
  = Some [10; 11; 12; 13; 14].
Proof.
  assert (Hne : arrays_five ≠ ∅).
  { intros H. apply (f_equal (λ d : gmap Z (list Z), d !! 2)) in H.
    vm_compute in H. discriminate H. }
  assert (Hrows : map_Forall
            (λ c rows, length <$> spc_five !! c = Some (length rows))
            arrays_five).
  { apply (bool_decide_eq_true_1 _). vm_compute. reflexivity. }
  assert (Hnd : NoDup (labelled_rows spc_five arrays_five).*1).
  { apply (bool_decide_eq_true_1 _). vm_compute. reflexivity. }
  destruct (concatenate_per_cluster_arrays_sorted spc_five arrays_five
              Hne Hrows Hnd) as (ps & _ & _ & _ & _ & Horig).
  apply (Horig [10; 11; 12; 13; 14]).
  - apply (bool_decide_eq_true_1 _). vm_compute. reflexivity.
  - intros s r Hin. vm_compute in Hin.
    repeat (apply elem_of_cons in Hin as [[= -> ->]|Hin]; [reflexivity|]).
    by apply elem_of_nil in Hin.
Defined.

(** ** More of [_utils.py] *)

(** *** [_unique] and [_spikes_in_clusters] *)

Lemma bincount_lookup (x : list Z) (init : list nat) k :
  foldl (λ counts v, alter S (Z.to_nat v) counts) init x !! k
  = (λ n, (n + count_of k x)%nat) <$> init !! k.
Proof.
  revert init. induction x as [|v x IH]; intros init; simpl.
  - unfold count_of. simpl. destruct (init !! k); simpl; [f_equal; lia|done].
  - rewrite IH. unfold count_of. rewrite list_lookup_alter.
    destruct (decide (Z.to_nat v = k)) as [<-|Hne].
    + rewrite filter_cons_True by done. destruct (init !! _); simpl; [|done].
      f_equal. lia.
    + by rewrite filter_cons_False by done.
Qed.

Lemma count_of_pos k (x : list Z) :
  Forall (λ v, 0 ≤ v) x → count_of k x ≠ 0%nat ↔ Z.of_nat k ∈ x.
Proof.
  intros Hx. unfold count_of. split.
  - intros Hn. destruct (filter _ x) as [|v l] eqn:Hf; [done|].
    assert (Hv : v ∈ filter (λ v, Z.to_nat v = k) x) by (rewrite Hf; left).
    apply list_elem_of_filter in Hv as [<- Hv].
    rewrite Forall_forall in Hx. rewrite Z2Nat.id by auto. done.
  - intros Hin Hlen. apply length_zero_iff_nil in Hlen.
    assert (Hv : Z.of_nat k ∈ filter (λ v, Z.to_nat v = k) x).
    { apply list_elem_of_filter. split; [lia|done]. }
    rewrite Hlen in Hv. by apply elem_of_nil in Hv.
Qed.

Lemma foldr_max_bound (x : list Z) v : v ∈ x → v ≤ foldr Z.max 0 x.
Proof.
  induction x as [|w x IH]; [by intros ?%elem_of_nil|].
  intros [->|Hv]%elem_of_cons; simpl; [lia|]. specialize (IH Hv). lia.
Qed.

(** [_unique] on non-negative integers. *)
Lemma unique_spec (x : list Z) :
  Forall (λ v, 0 ≤ v) x →
  ∃ u, _unique x = Some u
       ∧ StronglySorted lt u
       ∧ ∀ k, k ∈ u ↔ Z.of_nat k ∈ x.
Proof.
  intros Hx. unfold _unique. case_bool_decide as Hlen.
  - exists []. split; [done|]. split; [constructor|].
    destruct x; [|done]. intros k. split; by intros ?%elem_of_nil.
  - unfold np_bincount. destruct x as [|v0 x0] eqn:Hxe; [done|].
    rewrite <- Hxe in *. rewrite bool_decide_true by done.
    cbn [mbind option_bind]. eexists. split; [done|].
    split; [apply nonzero_from_sorted|].
    intros k. unfold nonzero. rewrite elem_of_nonzero_from.
    rewrite <- count_of_pos by done. split.
    + intros (j & -> & Hj). simpl. rewrite list_lookup_fmap in Hj.
      rewrite bincount_lookup in Hj.
      destruct (replicate _ _ !! j) as [n|] eqn:Hr; [|done].
      apply lookup_replicate in Hr as [-> _]. simpl in Hj.
      injection Hj as Hj. by apply bool_decide_eq_true in Hj.
    + intros Hk. exists k. split; [done|].
      rewrite list_lookup_fmap, bincount_lookup.
      rewrite (lookup_replicate_2 _ 0%nat); simpl.
      { by rewrite bool_decide_true. }
      apply count_of_pos in Hk; [|done].
      apply foldr_max_bound in Hk. lia.
Qed.

(** X3: on non-negative integers [_unique] returns the distinct values of
    its argument in ascending order; a negative value makes [np.bincount]
    raise ValueError. *)
Theorem unique_sorted_values (x : list Z) :
  (Forall (λ v, 0 ≤ v) x →
   ∃ u, _unique x = Some u
        ∧ StronglySorted lt u
        ∧ ∀ k, k ∈ u ↔ Z.of_nat k ∈ x)
  ∧ (Exists (λ v, v < 0) x → _unique x = None).
Proof.
  split; [apply unique_spec|].
  intros Hneg. unfold _unique.
  destruct x as [|v0 x0] eqn:Hxe; [by apply Exists_nil in Hneg|].
  rewrite bool_decide_false by done. unfold np_bincount.
  rewrite bool_decide_false; [done|].
  intros Hall. apply Exists_exists in Hneg as (v & Hv & Hlt).
  rewrite Forall_forall in Hall. specialize (Hall v Hv). lia.
Qed.

(** X4: [_spikes_in_clusters] returns, in ascending order and without
    repeat, the positions of [spike_clusters] whose label is one of
    [clusters]: nothing when either is empty. *)
Theorem spikes_in_clusters_positions (spike_clusters clusters : list Z) :
  StronglySorted lt (_spikes_in_clusters spike_clusters clusters)
  ∧ ∀ i, i ∈ _spikes_in_clusters spike_clusters clusters
         ↔ ∃ c, spike_clusters !! i = Some c ∧ c ∈ clusters.
Proof.
  split; [|apply elem_of_spikes_in_clusters].
  rewrite spikes_in_clusters_nonzero. apply nonzero_from_sorted.
Qed.

(** *** When [_spikes_per_cluster] returns *)

Lemma length_np_diff (a : list Z) : length (np_diff a) = (length a - 1)%nat.
Proof.
  induction a as [|x [|y t] IH]; [done..|].
  change (np_diff (x :: y :: t)) with (wrap64 (y - x) :: np_diff (y :: t)).
  cbn [length] in *. lia.
Qed.

Lemma take_idx_is_Some {A} (a : list A) (idx : list nat) :
  is_Some (take_idx a idx) ↔ Forall (λ i, (i < length a)%nat) idx.
Proof.
  unfold take_idx. rewrite mapM_is_Some. apply Forall_iff. intros i.
  simpl. apply lookup_lt_is_Some.
Qed.

Lemma take_idx_app_l {A} (a extra : list A) (idx : list nat) :
  Forall (λ i, (i < length a)%nat) idx →
  take_idx (a ++ extra) idx = take_idx a idx.
Proof.
  intros Hidx. unfold take_idx.
  induction Hidx as [|i idx Hi _ IH]; [done|].
  cbn [mapM]. rewrite lookup_app_l by done. by rewrite IH.
Qed.

Lemma spikes_per_cluster_with_is_Some np_argsort (ids cl : list Z) :
  np_argsort cl ≡ₚ seq 0 (length cl) →
  is_Some (_spikes_per_cluster_with np_argsort ids cl)
  ↔ cl ≠ [] ∧ (length cl ≤ length ids)%nat.
Proof.
  intros Hperm.
  assert (Hrel : ∀ i, i ∈ np_argsort cl ↔ (i < length cl)%nat).
  { intros i. rewrite Hperm, elem_of_seq. lia. }
  unfold _spikes_per_cluster_with. split.
  - intros [d Hd].
    destruct (take_idx ids (np_argsort cl)) as [abs|] eqn:Habs; [|done].
    destruct (take_idx cl (np_argsort cl)) as [s|] eqn:Hs; [|done].
    cbn [mbind option_bind] in Hd. destruct s as [|c0 t]; [done|].
    assert (Hne : cl ≠ []).
    { intros ->. apply Permutation_nil_r in Hperm.
      rewrite Hperm in Hs. by injection Hs. }
    split; [done|].
    assert (His : is_Some (take_idx ids (np_argsort cl))) by eauto.
    apply take_idx_is_Some in His. rewrite Forall_forall in His.
    assert (Hlast : (length cl - 1 < length ids)%nat).
    { apply His, Hrel. destruct cl; [done|]. simpl. lia. }
    lia.
  - intros [Hne Hlen].
    destruct (take_idx_is_Some ids (np_argsort cl)) as [_ [abs Habs]].
    { apply Forall_forall. intros i Hi%Hrel. lia. }
    destruct (take_idx_is_Some cl (np_argsort cl)) as [_ [s Hs]].
    { apply Forall_forall. by intros i Hi%Hrel. }
    rewrite Habs, Hs. cbn [mbind option_bind].
    assert (Hslen : length s = length cl).
    { apply take_idx_length in Hs. apply Permutation_length in Hperm.
      rewrite length_seq in Hperm. congruence. }
    destruct s as [|c0 t]; [by destruct cl|].
    set (flags := (λ d, bool_decide (0 < d)) <$> 1 :: np_diff (c0 :: t)).
    assert (Hfl : length flags = length (c0 :: t)).
    { unfold flags. rewrite length_fmap. cbn [length].
      rewrite length_np_diff. simpl. lia. }
    destruct (nonzero_sorted_bounded flags) as [_ Hb].
    destruct (take_idx_is_Some (c0 :: t) (nonzero flags)) as [_ [cs Hcs]].
    { apply Forall_forall. intros i Hi%Hb. by rewrite <- Hfl. }
    rewrite Hcs. cbn [mbind option_bind].
    pose proof (take_idx_length _ _ _ Hcs) as Hcl.
    rewrite items_mapM by done. cbn [mbind option_bind].
    assert (Hidx : nonzero flags ≠ []).
    { unfold flags, nonzero. rewrite fmap_cons. simpl. done. }
    destruct (last cs) as [c_last|] eqn:Hlc.
    2:{ apply last_None in Hlc. subst cs. by destruct (nonzero flags). }
    destruct (last (nonzero flags)) as [i_last|] eqn:Hli.
    2:{ by apply last_None in Hli. }
    cbn [mbind option_bind]. eauto.
Qed.

(** X5: [_spikes_per_cluster] returns exactly when the label array is not
    empty and there are at least as many spike ids as labels, whatever
    permutation [np.argsort] returns; it raises IndexError otherwise.  The
    spike ids beyond the length of the label array are ignored. *)
Theorem spikes_per_cluster_defined (spike_ids spike_clusters : list Z) :
  (is_Some (_spikes_per_cluster spike_ids spike_clusters)
   ↔ spike_clusters ≠ [] ∧ (length spike_clusters ≤ length spike_ids)%nat)
  ∧ (∀ np_argsort,
       np_argsort spike_clusters ≡ₚ seq 0 (length spike_clusters) →
       is_Some (_spikes_per_cluster_with np_argsort spike_ids spike_clusters)
       ↔ spike_clusters ≠ []
         ∧ (length spike_clusters ≤ length spike_ids)%nat)
  ∧ (∀ surplus,
       length spike_ids = length spike_clusters →
       _spikes_per_cluster (spike_ids ++ surplus) spike_clusters
       = _spikes_per_cluster spike_ids spike_clusters).
Proof.
  split; [|split].
  - apply spikes_per_cluster_with_is_Some, argsort_Permutation.
  - intros f Hf. by apply spikes_per_cluster_with_is_Some.
  - intros surplus Hlen. unfold _spikes_per_cluster, _spikes_per_cluster_with.
    rewrite take_idx_app_l; [done|].
    apply Forall_forall. intros i Hi.
    rewrite argsort_Permutation, elem_of_seq in Hi. lia.
Qed.

Lemma Sorted_np_sort (l : list Z) : Sorted Z.le l → np_sort l = l.
Proof.
  intros Hl. unfold np_sort.
  apply (Sorted_unique Z.le); [apply Sorted_merge_sort; apply _|done|].
  apply merge_sort_Permutation.
Qed.

Lemma ids_of_arange c k (l : list Z) :
  ids_of c (Z.of_nat <$> seq k (length l)) l
  = Z.of_nat <$> nonzero_from k ((λ x, bool_decide (x = c)) <$> l).
Proof.
  revert k. induction l as [|x l IH]; intros k; [done|].
  unfold ids_of in *. cbn [length seq]. rewrite !fmap_cons. cbn [zip zip_with].
  change (nonzero_from k (bool_decide (x = c) :: ?b))
    with ((if bool_decide (x = c) then [k] else []) ++ nonzero_from (S k) b).
  rewrite fmap_app, <- IH. destruct (decide (x = c)) as [->|Hne].
  - rewrite filter_cons_True by done. by rewrite bool_decide_true.
  - rewrite filter_cons_False by done. by rewrite bool_decide_false.
Qed.

Lemma StronglySorted_lt_of_nat (l : list nat) :
  StronglySorted lt l → Sorted Z.le (Z.of_nat <$> l).
Proof.
  intros Hl. apply StronglySorted_Sorted.
  induction Hl as [|x l _ IH Hx]; [constructor|].
  rewrite fmap_cons. constructor; [done|].
  apply Forall_fmap. eapply Forall_impl; [exact Hx|]. simpl. lia.
Qed.

(** The dictionary of [_spikes_per_cluster] for the spike ids 0..n-1: the
    positions of each label, and all positions between them. *)
Lemma spikes_per_cluster_arange (sc : list Z) :
  sc ≠ [] → Forall (λ c, 0 ≤ c < 2 ^ 63) sc →
  ∃ d, _spikes_per_cluster (Z.of_nat <$> seq 0 (length sc)) sc = Some d
       ∧ (∀ c, d !! c
               = if decide (c ∈ sc)
                 then Some (Z.of_nat <$>
                              nonzero ((λ x, bool_decide (x = c)) <$> sc))
                 else None)
       ∧ concat (map_to_list d).*2 ≡ₚ Z.of_nat <$> seq 0 (length sc).
Proof.
  intros Hne Hb.
  set (ids := Z.of_nat <$> seq 0 (length sc)).
  assert (Hlen : length ids = length sc).
  { unfold ids. by rewrite length_fmap, length_seq. }
  destruct (spikes_per_cluster_with_runs (argsort Z.le) ids sc
              Hne Hlen Hb (argsort_is_argsort _)) as (gs & Hperm & Hgs & Hd).
  eexists. split; [exact Hd|]. split.
  - intros c. rewrite (run_items_lookup gs ids sc c Hlen Hperm Hgs).
    destruct (decide (c ∈ sc)) as [Hc|Hc]; [|done].
    f_equal. unfold ids. rewrite ids_of_arange. unfold nonzero.
    apply Sorted_np_sort, StronglySorted_lt_of_nat, nonzero_from_sorted.
  - by apply (run_items_concat gs ids sc).
Qed.

(** X6: for the spike ids 0..n-1, the keys of the dictionary of
    [_spikes_per_cluster] are the labels that occur, and the entry of a
    cluster is what [_spikes_in_clusters] returns for that cluster alone. *)
Theorem spikes_per_cluster_selects (spike_clusters : list Z) :
  spike_clusters ≠ [] →
  Forall (λ c, 0 ≤ c < 2 ^ 63) spike_clusters →
  ∃ d, _spikes_per_cluster (Z.of_nat <$> seq 0 (length spike_clusters))
         spike_clusters = Some d
       ∧ ∀ c, d !! c
              = if decide (c ∈ spike_clusters)
                then Some (Z.of_nat <$> _spikes_in_clusters spike_clusters [c])
                else None.
Proof.
  intros Hne Hb.
  destruct (spikes_per_cluster_arange spike_clusters Hne Hb)
    as (d & Hd & Hlook & _).
  exists d. split; [done|]. intros c. rewrite Hlook.
  destruct (decide (c ∈ spike_clusters)); [|done].
  rewrite spikes_in_clusters_nonzero. unfold nonzero, in1d.
  do 3 f_equal. apply list_fmap_ext. intros _ x _.
  apply bool_decide_ext. by rewrite list_elem_of_singleton.
Qed.

Lemma spikes_per_cluster_selects_witness :
  ∃ d, _spikes_per_cluster (Z.of_nat <$> seq 0 (length [2; 5; 2]))
         [2; 5; 2] = Some d
       ∧ ∀ c, d !! c
              = if decide (c ∈ [2; 5; 2])
                then Some (Z.of_nat <$> _spikes_in_clusters [2; 5; 2] [c])
                else None.
Proof.
  apply (spikes_per_cluster_selects [2; 5; 2]); [done|].
  repeat constructor; lia.
Defined.

(** X26: the keys of the dictionary of [_spikes_per_cluster], in ascending
    order, are what [_unique] returns for the label array. *)
Theorem spikes_per_cluster_keys_unique (spike_ids spike_clusters : list Z) :
  spike_clusters ≠ [] →
  length spike_ids = length spike_clusters →
  Forall (λ c, 0 ≤ c < 2 ^ 63) spike_clusters →
  ∃ d u, _spikes_per_cluster spike_ids spike_clusters = Some d
         ∧ _unique spike_clusters = Some u
         ∧ sorted_keys d = Z.of_nat <$> u.
Proof.
  intros Hne Hlen Hb.
  destruct (spikes_per_cluster_with_runs (argsort Z.le) spike_ids
              spike_clusters Hne Hlen Hb (argsort_is_argsort _))
    as (gs & Hperm & Hgs & Hd).
  destruct (unique_spec spike_clusters) as (u & Hu & Husorted & Huel).
  { eapply Forall_impl; [exact Hb|]. simpl. lia. }
  eexists _, u. split; [exact Hd|]. split; [done|].
  apply (Sorted_unique Z.le).
  - unfold sorted_keys. apply Sorted_merge_sort. apply _.
  - by apply StronglySorted_lt_of_nat.
  - apply NoDup_Permutation.
    + apply sorted_keys_NoDup.
    + apply NoDup_fmap; [apply _|].
      clear Huel Hu. induction Husorted as [|k l _ IH Hall];
        constructor; [|done].
      intros Hk. eapply Forall_forall in Hall; [|exact Hk]. lia.
    + intros c. rewrite sorted_keys_elem, elem_of_dom.
      rewrite (run_items_lookup gs spike_ids spike_clusters c Hlen Hperm Hgs).
      rewrite list_elem_of_fmap. split.
      * destruct (decide (c ∈ spike_clusters)) as [Hc|]; [|by intros [? ?]].
        intros _. rewrite Forall_forall in Hb. specialize (Hb c Hc).
        exists (Z.to_nat c). split; [lia|]. apply Huel.
        by rewrite Z2Nat.id by lia.
      * intros (k & -> & Hk%Huel). rewrite decide_True by done. eauto.
Qed.

Lemma spikes_per_cluster_keys_unique_witness :
  ∃ d u, _spikes_per_cluster [10; 11; 12; 13; 14] [2; 5; 2; 5; 2] = Some d
         ∧ _unique [2; 5; 2; 5; 2] = Some u
         ∧ sorted_keys d = Z.of_nat <$> u.
Proof.
  apply (spikes_per_cluster_keys_unique [10; 11; 12; 13; 14] [2; 5; 2; 5; 2]).
  - discriminate.
  - reflexivity.
  - repeat constructor; lia.
Defined.

(** *** When [_concatenate_per_cluster_arrays] returns *)

Lemma np_concatenate_Some {B} (ls : list (list B)) :
  ls ≠ [] → np_concatenate ls = Some (concat ls).
Proof. by destruct ls. Qed.

Lemma sorted_keys_empty {V} (d : gmap Z V) : sorted_keys d = [] ↔ d = ∅.
Proof.
  split; [apply sorted_keys_nil|]. intros ->. unfold sorted_keys.
  by rewrite dom_empty_L, elements_empty.
Qed.

Lemma Forall_lt_Permutation_seq (idx : list nat) n :
  idx ≡ₚ seq 0 n → Forall (λ i, (i < n)%nat) idx.
Proof.
  intros Hp. apply Forall_forall. intros i Hi.
  rewrite Hp, elem_of_seq in Hi. lia.
Qed.

(** When [_concatenate_per_cluster_arrays] returns: the three ways it can
    fail are its two assertions and [np.concatenate] of no array. *)
Lemma concatenate_with_is_Some {A} np_argsort (spc : gmap Z (list Z))
    (arrays : gmap Z (list A)) :
  (∀ l, np_argsort l ≡ₚ seq 0 (length l)) →
  is_Some (_concatenate_per_cluster_arrays_with np_argsort spc arrays)
  ↔ arrays ≠ ∅
    ∧ dom arrays ⊆ dom spc
    ∧ map_Forall (λ c rows, length <$> spc !! c = Some (length rows)) arrays.
Proof.
  intros Hvalid.
  assert (Hcs : ∀ c, c ∈ sorted_keys arrays → c ∈ dom arrays)
    by (intros c; apply sorted_keys_elem).
  unfold _concatenate_per_cluster_arrays_with.
  case_bool_decide as Hdom.
  2:{ split; [by intros [? ?]|]. by intros (_ & ? & _). }
  assert (Hcs' : ∀ c, c ∈ sorted_keys arrays → c ∈ dom spc)
    by (intros c Hc; apply Hdom, Hcs, Hc).
  rewrite !mapM_length_default by done. cbn [mbind option_bind].
  case_bool_decide as Hn.
  2:{ split; [by intros [? ?]|]. intros (_ & _ & Hlens). destruct Hn.
      apply Forall_fmap_ext_1, Forall_forall. intros c Hc.
      pose proof (Hcs c Hc) as [rows Hrows]%elem_of_dom.
      specialize (Hlens c rows Hrows). simpl in Hlens.
      destruct (spc !! c) as [sp|]; [|done]. rewrite Hrows. simpl in *.
      congruence. }
  assert (Hlen : ∀ c, c ∈ sorted_keys arrays →
    length (default [] (spc !! c)) = length (default [] (arrays !! c))).
  { intros c Hc. apply Forall_fmap_ext in Hn.
    rewrite Forall_forall in Hn. by apply Hn. }
  rewrite !mapM_lookup_default by done. cbn [mbind option_bind].
  destruct (decide (arrays = ∅)) as [->|Hne].
  { replace (sorted_keys (∅ : gmap Z (list A))) with (@nil Z)
      by (symmetry; by apply sorted_keys_empty).
    split; [by intros [? ?]|]. by intros (? & _). }
  assert (Hk : sorted_keys arrays ≠ []) by (by rewrite sorted_keys_empty).
  rewrite !np_concatenate_Some by (by intros ?%fmap_nil_inv).
  cbn [mbind option_bind].
  split.
  - intros _. split; [done|]. split; [done|]. intros c rows Hrows.
    assert (Hc : c ∈ sorted_keys arrays).
    { apply sorted_keys_elem, elem_of_dom. eauto. }
    specialize (Hlen c Hc). rewrite Hrows in Hlen.
    pose proof (Hcs' c Hc) as [sp Hsp]%elem_of_dom. rewrite Hsp in *.
    simpl in *. congruence.
  - intros _. apply take_idx_is_Some.
    erewrite <- length_concat_fmap by exact Hlen.
    apply Forall_lt_Permutation_seq, Hvalid.
Qed.

(** X7: [_concatenate_per_cluster_arrays] returns exactly when [arrays] is
    not empty, its clusters are clusters of [spikes_per_cluster], and each
    array has as many rows as its cluster has spikes; otherwise an [assert]
    fails or [np.concatenate] raises ValueError. *)
Theorem concatenate_per_cluster_arrays_defined {A}
    (spikes_per_cluster : gmap Z (list Z)) (arrays : gmap Z (list A)) :
  (is_Some (_concatenate_per_cluster_arrays spikes_per_cluster arrays)
   ↔ arrays ≠ ∅
     ∧ dom arrays ⊆ dom spikes_per_cluster
     ∧ map_Forall (λ c rows, length <$> spikes_per_cluster !! c
                             = Some (length rows)) arrays)
  ∧ (∀ np_argsort,
       (∀ l, np_argsort l ≡ₚ seq 0 (length l)) →
       is_Some (_concatenate_per_cluster_arrays_with np_argsort
                  spikes_per_cluster arrays)
       ↔ arrays ≠ ∅
         ∧ dom arrays ⊆ dom spikes_per_cluster
         ∧ map_Forall (λ c rows, length <$> spikes_per_cluster !! c
                                 = Some (length rows)) arrays).
Proof.
  split.
  - apply concatenate_with_is_Some. intros l. apply argsort_Permutation.
  - intros f Hf. by apply concatenate_with_is_Some.
Qed.

(** *** [_flatten_spikes_per_cluster] *)

Lemma float64_of_int_small z : Z.abs z ≤ 2 ^ 53 → float64_of_int z = z.
Proof.
  intros Hz. unfold float64_of_int.
  destruct (decide (Z.abs z = 2 ^ 53)) as [Heq|Hne].
  - rewrite Heq. vm_compute (Z.log2 (2 ^ 53) - 52).
    rewrite bool_decide_false by lia.
    change (2 ^ 1) with 2. change (2 ^ (1 - 1)) with 1.
    change (2 ^ 53 mod 2) with 0. change (2 ^ 53 / 2) with (2 ^ 52).
    rewrite bool_decide_true by lia.
    destruct (Z.abs_spec z) as [[? Ha]|[? Ha]].
    + rewrite Z.sgn_pos by lia. lia.
    + rewrite Z.sgn_neg by lia. lia.
  - rewrite bool_decide_true; [done|].
    destruct (decide (Z.abs z = 0)) as [->|Hnz]; [done|].
    assert (Z.log2 (Z.abs z) < 53); [|lia].
    apply Z.log2_lt_pow2; lia.
Qed.

Lemma astype_float64_small z :
  Z.abs z ≤ 2 ^ 53 → astype_int64 (float64_of_int z) = z.
Proof.
  intros Hz. rewrite float64_of_int_small by done. unfold astype_int64.
  rewrite bool_decide_true; [done|]. lia.
Qed.

Lemma label_arrays_lookup spc c :
  label_arrays spc !! c
  = (λ sp, replicate (length sp) (astype_int64 (float64_of_int c)))
      <$> spc !! c.
Proof.
  unfold label_arrays. rewrite map_lookup_imap. by destruct (spc !! c).
Qed.

Lemma label_arrays_dom spc : dom (label_arrays spc) = dom spc.
Proof.
  apply set_eq. intros c. rewrite !elem_of_dom, label_arrays_lookup.
  by rewrite fmap_is_Some.
Qed.

Lemma label_arrays_empty spc : label_arrays spc = ∅ ↔ spc = ∅.
Proof.
  rewrite <- !dom_empty_iff_L. by rewrite label_arrays_dom.
Qed.

Lemma label_arrays_lengths spc :
  map_Forall (λ c rows, length <$> spc !! c = Some (length rows))
             (label_arrays spc).
Proof.
  intros c rows. rewrite label_arrays_lookup.
  destruct (spc !! c) as [sp|]; [|done]. simpl. intros [= <-].
  by rewrite length_replicate.
Qed.

Lemma label_arrays_concat spc (cs : list Z) :
  (∀ c, c ∈ cs → c ∈ dom spc) →
  astype_int64 <$>
    concat ((λ c, replicate (length (default [] (spc !! c)))
                    (float64_of_int c)) <$> cs)
  = concat ((λ c, default [] (label_arrays spc !! c)) <$> cs).
Proof.
  induction cs as [|c l IH]; intros Hcs; [done|].
  rewrite !fmap_cons. cbn [concat]. rewrite fmap_app, IH.
  2:{ intros c' Hc'. apply Hcs. by right. }
  f_equal. rewrite label_arrays_lookup.
  assert (Hc : c ∈ dom spc) by (apply Hcs; left).
  apply elem_of_dom in Hc as [sp ->]. simpl. by rewrite fmap_replicate.
Qed.

(** Flattening is concatenating the label arrays of the clusters. *)
Lemma flatten_as_concatenate np_argsort (spc : gmap Z (list Z)) :
  _flatten_spikes_per_cluster_with np_argsort spc
  = _concatenate_per_cluster_arrays_with np_argsort spc (label_arrays spc).
Proof.
  unfold _flatten_spikes_per_cluster_with,
    _concatenate_per_cluster_arrays_with.
  rewrite bool_decide_true by (by rewrite label_arrays_dom).
  assert (Hk : sorted_keys (label_arrays spc) = sorted_keys spc).
  { unfold sorted_keys. by rewrite label_arrays_dom. }
  rewrite Hk.
  assert (Hcs : ∀ c, c ∈ sorted_keys spc → c ∈ dom spc)
    by (intros c; apply sorted_keys_elem).
  assert (Hcs' : ∀ c, c ∈ sorted_keys spc → c ∈ dom (label_arrays spc))
    by (intros c; rewrite label_arrays_dom; apply Hcs).
  rewrite !mapM_length_default by done. cbn [mbind option_bind].
  assert (Hlen : ∀ c, c ∈ sorted_keys spc →
    length (default [] (spc !! c))
    = length (default [] (label_arrays spc !! c))).
  { intros c Hc. rewrite label_arrays_lookup.
    destruct (spc !! c); [|done]. simpl. by rewrite length_replicate. }
  rewrite bool_decide_true.
  2:{ apply Forall_fmap_ext, Forall_forall. intros c Hc. by apply Hlen. }
  rewrite !mapM_lookup_default by done.
  assert (Hlab : mapM (λ cluster, sp ← spc !! cluster;
                   Some (replicate (length sp) (float64_of_int cluster)))
                   (sorted_keys spc)
                 = Some ((λ c, replicate (length (default [] (spc !! c)))
                                 (float64_of_int c)) <$> sorted_keys spc)).
  { apply mapM_Some, Forall2_fmap_r, Forall_Forall2_diag.
    apply Forall_forall. intros c Hc. simpl.
    apply Hcs, elem_of_dom in Hc as [v Hv]. by rewrite Hv. }
  rewrite Hlab. cbn [mbind option_bind].
  destruct (sorted_keys spc) as [|c0 cs] eqn:Hks; [done|].
  rewrite <- Hks in *.
  rewrite !np_concatenate_Some by (rewrite Hks; done).
  cbn [mbind option_bind].
  rewrite label_arrays_concat by done.
  rewrite bool_decide_true; [done|].
  by apply length_concat_fmap.
Qed.

(** X8: [_flatten_spikes_per_cluster] returns on every dictionary but the
    empty one, on which [np.concatenate] raises ValueError. *)
Theorem flatten_spikes_per_cluster_defined
    (spikes_per_cluster : gmap Z (list Z)) :
  (is_Some (_flatten_spikes_per_cluster spikes_per_cluster)
   ↔ spikes_per_cluster ≠ ∅)
  ∧ (∀ np_argsort,
       (∀ l, np_argsort l ≡ₚ seq 0 (length l)) →
       is_Some (_flatten_spikes_per_cluster_with np_argsort
                  spikes_per_cluster)
       ↔ spikes_per_cluster ≠ ∅).
Proof.
  assert (H : ∀ np_argsort,
       (∀ l, np_argsort l ≡ₚ seq 0 (length l)) →
       is_Some (_flatten_spikes_per_cluster_with np_argsort
                  spikes_per_cluster)
       ↔ spikes_per_cluster ≠ ∅).
  { intros f Hf. rewrite flatten_as_concatenate.
    rewrite concatenate_with_is_Some by done.
    rewrite label_arrays_empty, label_arrays_dom. split; [by intros []|].
    intros Hne. split; [done|]. split; [done|]. apply label_arrays_lengths. }
  split; [|done]. apply H. intros l. apply argsort_Permutation.
Qed.

Lemma sorted_keys_map_to_list {V} (d : gmap Z V) :
  sorted_keys d ≡ₚ (map_to_list d).*1.
Proof.
  unfold sorted_keys. rewrite merge_sort_Permutation.
  apply NoDup_Permutation;
    [apply NoDup_elements|apply NoDup_fst_map_to_list|].
  intros c. rewrite elem_of_elements, elem_of_dom, list_elem_of_fmap. split.
  - intros [v Hv]. exists (c, v). split; [done|].
    by apply elem_of_map_to_list.
  - intros ([c' v] & -> & Hv%elem_of_map_to_list). eauto.
Qed.

Lemma concat_sorted_keys (spc : gmap Z (list Z)) :
  concat ((λ c, default [] (spc !! c)) <$> sorted_keys spc)
  ≡ₚ concat (map_to_list spc).*2.
Proof.
  rewrite sorted_keys_map_to_list. rewrite <- list_fmap_compose.
  apply reflexive_eq. f_equal. apply list_fmap_ext.
  intros _ [c sp] Hin%list_elem_of_lookup_2%elem_of_map_to_list. simpl.
  by rewrite Hin.
Qed.

Lemma elem_of_labelled_rows {A} (spc : gmap Z (list Z))
    (arrays : gmap Z (list A)) s r :
  (s, r) ∈ labelled_rows spc arrays
  ↔ ∃ c sp rows, spc !! c = Some sp ∧ arrays !! c = Some rows
                 ∧ (s, r) ∈ zip sp rows.
Proof.
  unfold labelled_rows. rewrite list_elem_of_bind. split.
  - intros (c & Hin & Hc). exists c.
    destruct (spc !! c) as [sp|]; [|by apply elem_of_nil in Hin].
    destruct (arrays !! c) as [rows|].
    + by exists sp, rows.
    + simpl in Hin. rewrite zip_with_nil_r in Hin.
      by apply elem_of_nil in Hin.
  - intros (c & sp & rows & Hsp & Hrows & Hin). exists c.
    rewrite Hsp, Hrows. split; [done|].
    apply sorted_keys_elem, elem_of_dom. eauto.
Qed.

Lemma labelled_rows_fst {A} (spc : gmap Z (list Z))
    (arrays : gmap Z (list A)) :
  (∀ c, c ∈ sorted_keys arrays →
     length (default [] (spc !! c)) = length (default [] (arrays !! c))) →
  (labelled_rows spc arrays).*1
  = concat ((λ c, default [] (spc !! c)) <$> sorted_keys arrays).
Proof.
  intros Hlen. unfold labelled_rows.
  rewrite <- (zip_concat_fmap _ _ _ Hlen).
  rewrite fst_zip; [done|]. by rewrite (length_concat_fmap _ _ _ Hlen).
Qed.

Lemma elem_of_zip_replicate (sp : list Z) (c : Z) s r :
  (s, r) ∈ zip sp (replicate (length sp) c) ↔ s ∈ sp ∧ r = c.
Proof.
  rewrite !list_elem_of_lookup. split.
  - intros (i & [Hs [-> _]%lookup_replicate]%lookup_zip_Some). eauto.
  - intros [[i Hi] ->]. exists i. apply lookup_zip_Some. split; [done|].
    apply lookup_replicate. split; [done|]. by eapply lookup_lt_Some.
Qed.

(** What flattening returns on a partition of the spikes 0..n-1: the label
    of each spike. *)
Lemma flatten_with_spec np_argsort (spc : gmap Z (list Z)) n :
  spc ≠ ∅ →
  map_Forall (λ c _, Z.abs c ≤ 2 ^ 53) spc →
  concat (map_to_list spc).*2 ≡ₚ Z.of_nat <$> seq 0 n →
  (∀ l, is_argsort Z.le (np_argsort l) l) →
  ∃ r, _flatten_spikes_per_cluster_with np_argsort spc = Some r
       ∧ length r = n
       ∧ ∀ i c, r !! i = Some c
                ↔ ∃ sp, spc !! c = Some sp ∧ Z.of_nat i ∈ sp.
Proof.
  intros Hne Hkeys Hpart Hvalid.
  assert (Hlen : ∀ c, c ∈ sorted_keys (label_arrays spc) →
    length (default [] (spc !! c))
    = length (default [] (label_arrays spc !! c))).
  { intros c _. rewrite label_arrays_lookup.
    destruct (spc !! c); [|done]. simpl. by rewrite length_replicate. }
  assert (Hfst : (labelled_rows spc (label_arrays spc)).*1
                 ≡ₚ Z.of_nat <$> seq 0 n).
  { rewrite labelled_rows_fst by done.
    replace (sorted_keys (label_arrays spc)) with (sorted_keys spc)
      by (unfold sorted_keys; by rewrite label_arrays_dom).
    by rewrite concat_sorted_keys. }
  destruct (concatenate_with_spec np_argsort spc (label_arrays spc))
    as (ps & Hres & Hperm & Hsorted).
  - by rewrite label_arrays_empty.
  - by rewrite label_arrays_dom.
  - intros c sp rows Hsp Hrows. rewrite label_arrays_lookup, Hsp in Hrows.
    injection Hrows as <-. by rewrite length_replicate.
  - rewrite Hfst. apply NoDup_fmap; [apply _|apply NoDup_seq].
  - done.
  - rewrite flatten_as_concatenate, Hres.
    assert (Hk : ps.*1 = Z.of_nat <$> seq 0 n).
    { apply (StronglySorted_unique_strong Z.lt);
        [intros; lia|done|apply seq_Z_sorted|].
      by rewrite Hperm. }
    assert (Hpl : length ps = n).
    { apply (f_equal length) in Hk.
      by rewrite !length_fmap, length_seq in Hk. }
    exists ps.*2. split; [done|]. split; [by rewrite length_fmap|].
    assert (Hin : ∀ i c, (Z.of_nat i, c) ∈ ps
                         ↔ ∃ sp, spc !! c = Some sp ∧ Z.of_nat i ∈ sp).
    { intros i c. rewrite Hperm, elem_of_labelled_rows. split.
      - intros (k & sp & rows & Hsp & Hrows & Hz).
        rewrite label_arrays_lookup, Hsp in Hrows. injection Hrows as <-.
        apply elem_of_zip_replicate in Hz as [Hi ->].
        rewrite astype_float64_small by (by eapply (Hkeys k)). eauto.
      - intros (sp & Hsp & Hi). exists c, sp. eexists. split; [done|].
        rewrite label_arrays_lookup, Hsp. split; [done|].
        apply elem_of_zip_replicate. split; [done|].
        symmetry. apply astype_float64_small. by eapply (Hkeys c). }
    assert (Hat : ∀ i c, ps !! i = Some (Z.of_nat i, c) ↔ (Z.of_nat i, c) ∈ ps).
    { intros i c. split; [apply list_elem_of_lookup_2|].
      intros (j & Hj)%list_elem_of_lookup.
      assert (Hkj : ps.*1 !! j = Some (Z.of_nat i))
        by (by rewrite list_lookup_fmap, Hj).
      rewrite Hk, list_lookup_fmap in Hkj.
      apply fmap_Some in Hkj as (j' & Hj' & Heq).
      apply lookup_seq in Hj' as [-> _]. simpl in Heq.
      apply Nat2Z.inj in Heq. by subst. }
    intros i c. rewrite <- Hin, <- Hat. rewrite list_lookup_fmap. split.
    + intros ([k c'] & Hp & ->)%fmap_Some. simpl.
      assert (Hki : ps.*1 !! i = Some k) by (by rewrite list_lookup_fmap, Hp).
      rewrite Hk, list_lookup_fmap in Hki.
      apply fmap_Some in Hki as (j' & Hj' & ->).
      apply lookup_seq in Hj' as [-> _]. done.
    + intros ->. done.
Qed.

Lemma elem_of_zip_arange (l : list Z) x c :
  (x, c) ∈ zip (Z.of_nat <$> seq 0 (length l)) l
  ↔ ∃ i, x = Z.of_nat i ∧ l !! i = Some c.
Proof.
  rewrite list_elem_of_lookup. split.
  - intros (i & [Hx Hc]%lookup_zip_Some). exists i. split; [|done].
    rewrite list_lookup_fmap in Hx. apply fmap_Some in Hx as (j & Hj & ->).
    by apply lookup_seq in Hj as [-> _].
  - intros (i & -> & Hc). exists i. apply lookup_zip_Some. split; [|done].
    rewrite list_lookup_fmap, lookup_seq_lt; [done|].
    by eapply lookup_lt_Some.
Qed.

Lemma NoDup_concat_elem {A} (ls : list (list A)) l :
  NoDup (concat ls) → l ∈ ls → NoDup l.
Proof.
  induction ls as [|l' ls IH]; [by intros _ ?%elem_of_nil|].
  cbn [concat]. intros (Hl' & _ & Hls)%NoDup_app [->|Hin]%elem_of_cons; auto.
Qed.

Lemma elem_of_concat {A} (ls : list (list A)) x :
  x ∈ concat ls ↔ ∃ l, x ∈ l ∧ l ∈ ls.
Proof.
  induction ls as [|l' ls IH]; cbn [concat].
  - split; [by intros ?%elem_of_nil|]. by intros (l & _ & ?%elem_of_nil).
  - rewrite elem_of_app, IH. split.
    + intros [Hx|(l & Hx & Hl)]; [exists l'; split; [done|left]|].
      exists l. split; [done|by right].
    + intros (l & Hx & [->|Hl]%elem_of_cons); [by left|right; eauto].
Qed.

Lemma StronglySorted_lt_nat_NoDup (l : list nat) :
  StronglySorted lt l → NoDup l.
Proof.
  induction 1 as [|x l Hl IH Hall]; constructor; [|done].
  intros Hx. eapply Forall_forall in Hall; [|exact Hx]. lia.
Qed.

(** Flattening the dictionary of [_spikes_per_cluster] gives the labels
    back, with any sorting routine in either function. *)
Lemma flatten_per_cluster_with f g (sc : list Z) :
  sc ≠ [] → Forall (λ c, 0 ≤ c ≤ 2 ^ 53) sc →
  is_argsort Z.le (f sc) sc → (∀ l, is_argsort Z.le (g l) l) →
  ∃ d, _spikes_per_cluster_with f (Z.of_nat <$> seq 0 (length sc)) sc = Some d
       ∧ _flatten_spikes_per_cluster_with g d = Some sc.
Proof.
  intros Hne Hb Hf Hg.
  set (ids := Z.of_nat <$> seq 0 (length sc)).
  assert (Hlen : length ids = length sc).
  { unfold ids. by rewrite length_fmap, length_seq. }
  assert (Hb' : Forall (λ c, 0 ≤ c < 2 ^ 63) sc).
  { eapply Forall_impl; [exact Hb|]. simpl. lia. }
  destruct (spikes_per_cluster_with_runs f ids sc Hne Hlen Hb' Hf)
    as (gs & Hperm & Hgs & Hd).
  eexists. split; [exact Hd|].
  pose proof (run_items_lookup gs ids sc) as Hlook.
  specialize (λ c, Hlook c Hlen Hperm Hgs).
  destruct (flatten_with_spec g (list_to_map (run_items gs)) (length sc))
    as (r & Hr & Hrlen & Hspec).
  - destruct sc as [|c0 sc']; [done|]. intros Hempty.
    specialize (Hlook c0). rewrite Hempty, lookup_empty in Hlook.
    rewrite decide_True in Hlook by left. done.
  - intros c sp Hc. rewrite Hlook in Hc.
    destruct (decide (c ∈ sc)) as [Hin|]; [|done].
    rewrite Forall_forall in Hb. specialize (Hb c Hin). lia.
  - by apply (run_items_concat gs ids sc).
  - done.
  - rewrite Hr. f_equal.
    apply (list_eq_same_length _ _ (length sc)); [done..|].
    intros i x y Hi Hx Hy.
    apply Hspec in Hx as (sp & Hsp & Hin). rewrite Hlook in Hsp.
    destruct (decide (x ∈ sc)); [|done]. injection Hsp as <-.
    unfold np_sort in Hin. rewrite merge_sort_Permutation in Hin.
    apply elem_of_ids_of, elem_of_zip_arange in Hin as (j & Hj & Hc).
    apply Nat2Z.inj in Hj as <-. congruence.
Qed.

(** X9: on a dictionary whose keys are at most [2 ^ 53] in absolute value
    and whose values hold each of the spikes 0..n-1 once,
    [_flatten_spikes_per_cluster] returns the array of length n that gives
    every spike the key of the cluster holding it, with any sorting
    routine. *)
Theorem flatten_spikes_per_cluster_labels
    (spikes_per_cluster : gmap Z (list Z)) n :
  spikes_per_cluster ≠ ∅ →
  map_Forall (λ c _, Z.abs c ≤ 2 ^ 53) spikes_per_cluster →
  concat (map_to_list spikes_per_cluster).*2 ≡ₚ Z.of_nat <$> seq 0 n →
  ∃ r, _flatten_spikes_per_cluster spikes_per_cluster = Some r
       ∧ (∀ np_argsort,
            (∀ l, is_argsort Z.le (np_argsort l) l) →
            _flatten_spikes_per_cluster_with np_argsort spikes_per_cluster
            = Some r)
       ∧ length r = n
       ∧ ∀ i c, r !! i = Some c
                ↔ ∃ sp, spikes_per_cluster !! c = Some sp ∧ Z.of_nat i ∈ sp.
Proof.
  intros Hne Hkeys Hpart.
  destruct (flatten_with_spec (argsort Z.le) spikes_per_cluster n
              Hne Hkeys Hpart argsort_is_argsort) as (r & Hr & Hlen & Hspec).
  exists r. split; [done|]. split; [|done].
  intros f Hf.
  destruct (flatten_with_spec f spikes_per_cluster n Hne Hkeys Hpart Hf)
    as (r' & Hr' & Hlen' & Hspec').
  rewrite Hr'. f_equal.
  apply (list_eq_same_length _ _ n); [done..|].
  intros i x y Hi Hx Hy. apply Hspec', Hspec in Hx. congruence.
Qed.

Lemma flatten_spikes_per_cluster_labels_witness :
  ∃ r, _flatten_spikes_per_cluster spc_five = Some r
       ∧ (∀ np_argsort,
            (∀ l, is_argsort Z.le (np_argsort l) l) →
            _flatten_spikes_per_cluster_with np_argsort spc_five = Some r)
       ∧ length r = 5%nat
       ∧ ∀ i c, r !! i = Some c
                ↔ ∃ sp, spc_five !! c = Some sp ∧ Z.of_nat i ∈ sp.
Proof.
  apply (flatten_spikes_per_cluster_labels spc_five 5).
  - apply (bool_decide_eq_false_1 (spc_five = ∅)). vm_compute. reflexivity.
  - apply (bool_decide_eq_true_1 _). vm_compute. reflexivity.
  - apply (bool_decide_eq_true_1 _). vm_compute. reflexivity.
Defined.

(** X10: flattening the dictionary that [_spikes_per_cluster] builds from a
    non-empty label array, for the spike ids 0..n-1 and labels between 0
    and [2 ^ 53], gives the label array back, with any sorting routine. *)
Theorem flatten_spikes_per_cluster_inverse (spike_clusters : list Z) :
  spike_clusters ≠ [] →
  Forall (λ c, 0 ≤ c ≤ 2 ^ 53) spike_clusters →
  ∃ d, _spikes_per_cluster (Z.of_nat <$> seq 0 (length spike_clusters))
         spike_clusters = Some d
       ∧ _flatten_spikes_per_cluster d = Some spike_clusters
       ∧ ∀ np_argsort,
           (∀ l, is_argsort Z.le (np_argsort l) l) →
           _spikes_per_cluster_with np_argsort
             (Z.of_nat <$> seq 0 (length spike_clusters)) spike_clusters
           = Some d
           ∧ _flatten_spikes_per_cluster_with np_argsort d
             = Some spike_clusters.
Proof.
  intros Hne Hb.
  destruct (flatten_per_cluster_with (argsort Z.le) (argsort Z.le)
              spike_clusters Hne Hb (argsort_is_argsort _)
              argsort_is_argsort) as (d & Hd & Hfl).
  exists d. split; [done|]. split; [done|]. intros f Hf.
  destruct (flatten_per_cluster_with (argsort Z.le) f
              spike_clusters Hne Hb (argsort_is_argsort _) Hf)
    as (d1 & Hd1 & Hfl1).
  destruct (flatten_per_cluster_with f f
              spike_clusters Hne Hb (Hf _) Hf) as (d2 & Hd2 & Hfl2).
  unfold _spikes_per_cluster in Hd. rewrite Hd in Hd1.
  injection Hd1 as <-. split; [|done].
  rewrite Hd2. f_equal. 
  (* the dictionary does not depend on the sorting routine *)
  set (ids := Z.of_nat <$> seq 0 (length spike_clusters)) in *.
  assert (Hlen : length ids = length spike_clusters).
  { unfold ids. by rewrite length_fmap, length_seq. }
  assert (Hb' : Forall (λ c, 0 ≤ c < 2 ^ 63) spike_clusters).
  { eapply Forall_impl; [exact Hb|]. simpl. lia. }
  destruct (spikes_per_cluster_with_runs f ids spike_clusters Hne Hlen Hb'
              (Hf _)) as (gs & Hperm & Hgs & Hd').
  destruct (spikes_per_cluster_with_runs (argsort Z.le) ids spike_clusters
              Hne Hlen Hb' (argsort_is_argsort _))
    as (gs0 & Hperm0 & Hgs0 & Hd0).
  rewrite Hd' in Hd2. rewrite Hd0 in Hd. injection Hd2 as <-.
  injection Hd as <-. apply map_eq. intros c.
  by rewrite !(run_items_lookup _ ids spike_clusters c).
Qed.

Lemma flatten_spikes_per_cluster_inverse_witness :
  ∃ d, _spikes_per_cluster (Z.of_nat <$> seq 0 (length [2; 5; 2; 5; 2]))
         [2; 5; 2; 5; 2] = Some d
       ∧ _flatten_spikes_per_cluster d = Some [2; 5; 2; 5; 2]
       ∧ ∀ np_argsort,
           (∀ l, is_argsort Z.le (np_argsort l) l) →
           _spikes_per_cluster_with np_argsort
             (Z.of_nat <$> seq 0 (length [2; 5; 2; 5; 2])) [2; 5; 2; 5; 2]
           = Some d
           ∧ _flatten_spikes_per_cluster_with np_argsort d
             = Some [2; 5; 2; 5; 2].
Proof.
  apply (flatten_spikes_per_cluster_inverse [2; 5; 2; 5; 2]); [done|].
  repeat constructor; lia.
Defined.

(** X11: conversely, on a dictionary with keys between 0 and [2 ^ 53] whose
    values are sorted, not empty, and hold each of the spikes 0..n-1 once,
    [_spikes_per_cluster] of the flattened array is the dictionary. *)
Theorem spikes_per_cluster_flatten (spikes_per_cluster : gmap Z (list Z)) n :
  spikes_per_cluster ≠ ∅ →
  map_Forall (λ c sp, 0 ≤ c ≤ 2 ^ 53 ∧ sp ≠ [] ∧ Sorted Z.le sp)
             spikes_per_cluster →
  concat (map_to_list spikes_per_cluster).*2 ≡ₚ Z.of_nat <$> seq 0 n →
  ∃ r, _flatten_spikes_per_cluster spikes_per_cluster = Some r
       ∧ length r = n
       ∧ _spikes_per_cluster (Z.of_nat <$> seq 0 n) r
         = Some spikes_per_cluster.
Proof.
  intros Hne Hall Hpart.
  destruct (flatten_with_spec (argsort Z.le) spikes_per_cluster n)
    as (r & Hr & Hrlen & Hspec); [done| |done|apply argsort_is_argsort|].
  { intros c sp Hc. destruct (Hall c sp Hc) as [? _]. lia. }
  exists r. split; [done|]. split; [done|]. subst n.
  assert (Hnat : ∀ c sp x, spikes_per_cluster !! c = Some sp → x ∈ sp →
                           ∃ i, x = Z.of_nat i ∧ r !! i = Some c).
  { intros c sp x Hc Hx.
    assert (Hin : x ∈ concat (map_to_list spikes_per_cluster).*2).
    { apply elem_of_concat. exists sp. split; [done|].
      apply list_elem_of_fmap. exists (c, sp). split; [done|].
      by apply elem_of_map_to_list. }
    rewrite Hpart in Hin. apply list_elem_of_fmap in Hin as (i & -> & _).
    exists i. split; [done|]. apply Hspec. eauto. }
  assert (Hkey : ∀ c sp, spikes_per_cluster !! c = Some sp → c ∈ r).
  { intros c sp Hc. destruct (Hall c sp Hc) as (_ & Hsp & _).
    destruct sp as [|x sp']; [done|].
    destruct (Hnat c _ x Hc) as (i & _ & Hi); [left|].
    by eapply list_elem_of_lookup_2. }
  assert (Hrne : r ≠ []).
  { intros ->. destruct (map_choose _ Hne) as (c & sp & Hc).
    apply Hkey in Hc. by apply elem_of_nil in Hc. }
  assert (Hb : Forall (λ c, 0 ≤ c < 2 ^ 63) r).
  { apply Forall_forall. intros c (i & Hi)%list_elem_of_lookup.
    apply Hspec in Hi as (sp & Hc & _). destruct (Hall c sp Hc) as [? _].
    lia. }
  set (ids := Z.of_nat <$> seq 0 (length r)).
  assert (Hlen : length ids = length r).
  { unfold ids. by rewrite length_fmap, length_seq. }
  destruct (spikes_per_cluster_with_runs (argsort Z.le) ids r Hrne Hlen Hb
              (argsort_is_argsort _)) as (gs & Hperm & Hgs & Hd).
  unfold _spikes_per_cluster. rewrite Hd. f_equal. apply map_eq. intros c.
  rewrite (run_items_lookup gs ids r c Hlen Hperm Hgs).
  destruct (spikes_per_cluster !! c) as [sp|] eqn:Hc.
  - rewrite decide_True by (by eapply Hkey). f_equal.
    destruct (Hall c sp Hc) as (_ & _ & Hsorted).
    apply (Sorted_unique Z.le); [apply Sorted_merge_sort; apply _|done|].
    unfold np_sort. rewrite merge_sort_Permutation.
    apply NoDup_Permutation.
    + unfold ids. rewrite ids_of_arange.
      apply NoDup_fmap; [apply _|].
      apply StronglySorted_lt_nat_NoDup, nonzero_from_sorted.
    + apply (NoDup_concat_elem (map_to_list spikes_per_cluster).*2).
      * rewrite Hpart. apply NoDup_fmap; [apply _|apply NoDup_seq].
      * apply list_elem_of_fmap. exists (c, sp). split; [done|].
        by apply elem_of_map_to_list.
    + intros x. rewrite elem_of_ids_of. unfold ids.
      rewrite elem_of_zip_arange. split.
      * intros (i & -> & Hi). apply Hspec in Hi as (sp' & Hc' & Hin).
        congruence.
      * intros Hx. by eapply Hnat.
  - rewrite decide_False; [done|].
    intros (i & Hi)%list_elem_of_lookup.
    apply Hspec in Hi as (sp & Hc' & _). congruence.
Qed.

Lemma spikes_per_cluster_flatten_witness :
  ∃ r, _flatten_spikes_per_cluster spc_five = Some r
       ∧ length r = 5%nat
       ∧ _spikes_per_cluster (Z.of_nat <$> seq 0 5) r = Some spc_five.
Proof.
  apply (spikes_per_cluster_flatten spc_five 5).
  - apply (bool_decide_eq_false_1 (spc_five = ∅)). vm_compute. reflexivity.
  - apply (bool_decide_eq_true_1 _). vm_compute. reflexivity.
  - apply (bool_decide_eq_true_1 _). vm_compute. reflexivity.
Defined.

(** *** [_update_cluster_selection] *)

Lemma filter_all {A} (P : A → Prop) `{!∀ x, Decision (P x)} (l : list A) :
  Forall P l → filter P l = l.
Proof.
  induction 1 as [|x l Hx _ IH]; [done|].
  by rewrite filter_cons_True, IH.
Qed.

Lemma filter_none {A} (P : A → Prop) `{!∀ x, Decision (P x)} (l : list A) :
  Forall (λ x, ¬ P x) l → filter P l = [].
Proof.
  induction 1 as [|x l Hx _ IH]; [done|].
  by rewrite filter_cons_False.
Qed.

Lemma occurrences_filter (P : Z → Prop) `{!∀ x, Decision (P x)} c l :
  occurrences c (filter P l)
  = if decide (P c) then occurrences c l else 0%nat.
Proof.
  unfold occurrences. induction l as [|x l IH]; [by destruct (decide _)|].
  destruct (decide (P x)) as [Hx|Hx].
  - rewrite (filter_cons_True P) by done.
    destruct (decide (x = c)) as [->|Hne].
    + rewrite !(filter_cons_True (λ y, y = c)) by done. simpl. rewrite IH.
      by destruct (decide (P c)).
    + rewrite !(filter_cons_False (λ y, y = c)) by done. done.
  - rewrite (filter_cons_False P) by done. rewrite IH.
    destruct (decide (P c)) as [Hc|Hc]; [|done].
    rewrite (filter_cons_False (λ y, y = c)); [done|]. by intros ->.
Qed.

(** X12: the updated selection is the selected clusters that are not
    deleted, in their order and each as many times as it was selected,
    followed by the new clusters that are not among them, in their order and
    each as many times as it is listed; it has no repeat when the selection
    and the new clusters have none. *)
Theorem update_cluster_selection_members (clusters : list Z) up :
  ∃ kept new,
    _update_cluster_selection clusters up = kept ++ new
    ∧ kept `sublist_of` clusters
    ∧ new `sublist_of` added up
    ∧ (∀ c, occurrences c kept
            = if decide (c ∈ deleted up) then 0%nat
              else occurrences c clusters)
    ∧ (∀ c, occurrences c new
            = if decide (c ∈ kept) then 0%nat
              else occurrences c (added up))
    ∧ (∀ c, c ∈ kept ↔ c ∈ clusters ∧ c ∉ deleted up)
    ∧ (∀ c, c ∈ new ↔ c ∈ added up ∧ ¬ (c ∈ clusters ∧ c ∉ deleted up))
    ∧ (NoDup clusters → NoDup (added up) →
       NoDup (_update_cluster_selection clusters up)).
Proof.
  unfold _update_cluster_selection.
  set (kept := filter (λ clu, clu ∉ deleted up) clusters).
  assert (Hkept : ∀ c, c ∈ kept ↔ c ∈ clusters ∧ c ∉ deleted up).
  { intros c. unfold kept. rewrite list_elem_of_filter. tauto. }
  assert (Hnew : ∀ c, c ∈ filter (λ clu, clu ∉ kept) (added up)
                      ↔ c ∈ added up ∧ ¬ (c ∈ clusters ∧ c ∉ deleted up)).
  { intros c. rewrite list_elem_of_filter, Hkept. tauto. }
  exists kept, (filter (λ clu, clu ∉ kept) (added up)).
  split; [done|]. split; [apply sublist_filter|].
  split; [apply sublist_filter|].
  split.
  { intros c. unfold kept. rewrite occurrences_filter.
    by destruct (decide (c ∉ deleted up)), (decide (c ∈ deleted up)). }
  split.
  { intros c. rewrite occurrences_filter.
    by destruct (decide (c ∉ kept)), (decide (c ∈ kept)). }
  split; [done|]. split; [done|].
  intros Hc Ha. apply NoDup_app. split; [by apply NoDup_filter|].
  split; [|by apply NoDup_filter].
  intros c Hin [Hnot _]%list_elem_of_filter. done.
Qed.

(** X13: when no new cluster is a deleted one, updating the selection a
    second time with the same record changes nothing. *)
Theorem update_cluster_selection_idempotent (clusters : list Z) up :
  Forall (λ c, c ∉ deleted up) (added up) →
  _update_cluster_selection (_update_cluster_selection clusters up) up
  = _update_cluster_selection clusters up.
Proof.
  intros Hdisj. rewrite Forall_forall in Hdisj.
  unfold _update_cluster_selection.
  set (kept := filter (λ clu, clu ∉ deleted up) clusters).
  set (new := filter (λ clu, clu ∉ kept) (added up)).
  assert (Hf : filter (λ clu, clu ∉ deleted up) (kept ++ new) = kept ++ new).
  { apply filter_all. apply Forall_forall.
    intros c [Hc|Hc]%elem_of_app.
    - by apply list_elem_of_filter in Hc as [? _].
    - apply list_elem_of_filter in Hc as [_ Hc]. by apply Hdisj. }
  rewrite Hf.
  rewrite (filter_none _ (added up)); [by rewrite app_nil_r|].
  apply Forall_forall. intros c Hc Hnot. apply Hnot.
  destruct (decide (c ∈ kept)) as [Hk|Hk]; apply elem_of_app; [by left|].
  right. by apply list_elem_of_filter.
Qed.

Lemma update_cluster_selection_idempotent_witness :
  _update_cluster_selection
    (_update_cluster_selection [1; 2; 7] {| added := [3]; deleted := [1; 2] |})
    {| added := [3]; deleted := [1; 2] |}
  = _update_cluster_selection [1; 2; 7] {| added := [3]; deleted := [1; 2] |}.
Proof.
  apply (update_cluster_selection_idempotent [1; 2; 7]
           {| added := [3]; deleted := [1; 2] |}).
  apply (bool_decide_eq_true_1 _). vm_compute. reflexivity.
Defined.

(** ** More of the store item *)

(** *** [_prepare_file] and [_clusters_to_store] *)

(** An entry of zero rows, as [np.zeros] creates it for an empty cluster. *)
Lemma prepare_file_no_row name c shp s arr :
  disk_store s !! (c, name) = Some arr → shape arr = shp → rows arr = [] →
  _prepare_file name c shp s = (Raise IndexError, s).
Proof.
  intros Harr Hshape Hrows. unfold _prepare_file, bind at 1, disk_load.
  rewrite Harr. unfold bind at 1. rewrite bool_decide_true by done.
  unfold bind at 1, lift, first_row. by rewrite Hrows.
Qed.

Lemma prepare_file_create name c shp s :
  (∀ arr, disk_store s !! (c, name) = Some arr → shape arr ≠ shp) →
  _prepare_file name c shp s
  = (Ok true, State (<[(c, name) := np_zeros shp]> (disk_store s))
                    (memory_store s) (handles s) (warnings s) (progress s)).
Proof.
  intros Hnew. unfold _prepare_file, bind at 1, disk_load.
  destruct (disk_store s !! (c, name)) as [arr|] eqn:Harr; [|done].
  unfold bind at 1. by rewrite bool_decide_false by (by apply Hnew).
Qed.

(** X14: for an entry without a row, the entry of an empty cluster, on a
    store of rectangular arrays: [_prepare_file] creates the entry or
    raises IndexError, and the next call raises IndexError, since [arr[0]]
    is out of range; the store is then left as it is. *)
Theorem prepare_file_empty_cluster name cluster rest s :
  wf_disk (disk_store s) →
  let '(r1, s1) := _prepare_file name cluster (0%nat :: rest) s in
  (r1 = Ok true ∨ r1 = Raise IndexError)
  ∧ _prepare_file name cluster (0%nat :: rest) s1 = (Raise IndexError, s1).
Proof.
  intros Hwf.
  destruct (disk_store s !! (cluster, name)) as [arr|] eqn:Harr.
  - destruct (decide (shape arr = 0%nat :: rest)) as [Hshape|Hshape].
    + destruct (Hwf _ _ Harr) as (_ & Hlen & _). rewrite Hshape in Hlen.
      apply length_zero_iff_nil in Hlen.
      rewrite (prepare_file_no_row name cluster _ s arr) by done.
      split; [by right|]. by apply (prepare_file_no_row _ _ _ _ arr).
    + rewrite prepare_file_create
        by (intros arr0 H0; rewrite Harr in H0; by injection H0 as <-).
      split; [by left|].
      apply (prepare_file_no_row _ _ _ _ (np_zeros (0%nat :: rest)));
        [simpl; by rewrite lookup_insert_eq|done..].
  - rewrite prepare_file_create
      by (intros arr0 H0; by rewrite Harr in H0).
    split; [by left|].
    apply (prepare_file_no_row _ _ _ _ (np_zeros (0%nat :: rest)));
      [simpl; by rewrite lookup_insert_eq|done..].
Qed.

Lemma prepare_file_empty_cluster_witness :
  let '(r1, s1) := _prepare_file "masks" 7 [0; 2]%nat empty_state in
  (r1 = Ok true ∨ r1 = Raise IndexError)
  ∧ _prepare_file "masks" 7 [0; 2]%nat s1 = (Raise IndexError, s1).
Proof.
  apply (prepare_file_empty_cluster "masks" 7 [2%nat] empty_state).
  apply (bool_decide_eq_true_1 _). vm_compute. reflexivity.
Defined.

(** When [_prepare_file] returns False, the entry is one that it keeps. *)
Lemma prepare_file_false_kept name c shp s s' :
  wf_disk (disk_store s) →
  _prepare_file name c shp s = (Ok false, s') →
  entry_kept shp (disk_store s !! (c, name)) = true.
Proof.
  intros Hwf. unfold _prepare_file, bind at 1, disk_load, entry_kept.
  destruct (disk_store s !! (c, name)) as [arr|] eqn:Harr; [|by intros [=]].
  unfold bind at 1. case_bool_decide as Hshape; [|by intros [=]].
  rewrite bool_decide_true by (split; [done|by eapply Hwf]).
  unfold bind at 1, lift. unfold first_row, last_row.
  destruct (rows arr) as [|r0 rs] eqn:Hrows; [by intros [=]|].
  cbn [lookup list_lookup].
  destruct (last (r0 :: rs)) as [r1|] eqn:Hlast.
  2:{ by apply last_None in Hlast. }
  unfold bind at 1. destruct (all_zero r0); [|done].
  unfold bind at 1, ret at 1. destruct (all_zero r1); [by intros [=]|done].
Qed.

(** [_clusters_to_store] in full: every cluster of the mapping gets its two
    flags and its two entries of the expected shape, blank when flagged and
    as they were otherwise, and no other entry is touched. *)
Lemma clusters_to_store_full m (spc : gmap Z (list Z)) D0 :
  map_Forall (λ _ sp, sp ≠ []) spc → wf_disk D0 →
  triple (λ s, disk_store s = D0) (_clusters_to_store m spc)
    (λ ts s',
       wf_disk (disk_store s')
       ∧ dom ts = dom spc
       ∧ (∀ c name, c ∈ dom spc → name ∈ names →
            ∃ b arr, to_store_get ts c name = Ok b
                     ∧ disk_store s' !! (c, name) = Some arr
                     ∧ shape arr = entry_shape m name (size_of spc c)
                     ∧ (if b
                        then arr = np_zeros
                                     (entry_shape m name (size_of spc c))
                        else D0 !! (c, name) = Some arr
                             ∧ entry_kept
                                 (entry_shape m name (size_of spc c))
                                 (Some arr) = true))
       ∧ (∀ c name, c ∉ dom spc ∨ name ∉ names →
            disk_store s' !! (c, name) = D0 !! (c, name)))
    no_raise.
Proof.
  intros Hspc HD0. unfold _clusters_to_store.
  assert (Hkeys : sorted_keys (length <$> spc) = sorted_keys spc).
  { unfold sorted_keys. by rewrite dom_fmap_L. }
  rewrite Hkeys.
  assert (Hmasks : "masks"%string ∈ names) by (unfold names; set_solver).
  assert (Hfeatures : "features"%string ∈ names)
    by (unfold names; set_solver).
  eapply triple_conseq;
    [apply (triple_foldlM
       (λ pre ts s,
          wf_disk (disk_store s)
          ∧ dom ts = list_to_set pre
          ∧ (∀ c name, c ∈ pre → name ∈ names →
               ∃ b arr, to_store_get ts c name = Ok b
                        ∧ disk_store s !! (c, name) = Some arr
                        ∧ shape arr = entry_shape m name (size_of spc c)
                        ∧ (if b
                           then arr = np_zeros
                                        (entry_shape m name (size_of spc c))
                           else D0 !! (c, name) = Some arr
                             ∧ entry_kept
                                 (entry_shape m name (size_of spc c))
                                 (Some arr) = true))
          ∧ (∀ c name, c ∉ pre ∨ name ∉ names →
               disk_store s !! (c, name) = D0 !! (c, name)))) | | | done].
  - intros pre x suf ts Hl s (Hwf & Hdom & Hready & Hframe).
    assert (Hx : x ∈ dom spc).
    { apply sorted_keys_elem. rewrite Hl. set_solver. }
    assert (Hxpre : x ∉ pre).
    { pose proof (sorted_keys_NoDup spc) as Hnd. rewrite Hl in Hnd.
      apply NoDup_app in Hnd as (_ & Hnd & _). intros Hin.
      apply (Hnd x Hin). by left. }
    apply elem_of_dom in Hx as [sp Hsp].
    pose proof (Hspc x sp Hsp) as Hne. simpl in Hne.
    assert (Hsize : default 0%nat ((length <$> spc) !! x) = length sp)
      by (by rewrite lookup_fmap, Hsp).
    assert (Hn : length sp ≠ 0%nat) by (by destruct sp).
    rewrite Hsize. unfold bind at 1.
    pose proof (prepare_file_spec "masks" x (length sp) [n_channels m]
                  (disk_store s) Hn Hwf s eq_refl) as H1.
    destruct (_prepare_file "masks" x _ s) as [[b1|e1] s1] eqn:Hrun1;
      [|done].
    destruct H1 as (Hframe1 & arr1 & Harr1 & Hshape1 & Hwf1 & Hb1).
    assert (Hwfd1 : wf_disk (disk_store s1))
      by (by eapply wf_disk_update).
    unfold bind at 1.
    pose proof (prepare_file_spec "features" x (length sp)
                  [n_channels m; nfeatures_per_channel m]
                  (disk_store s1) Hn Hwfd1 s1 eq_refl) as H2.
    destruct (_prepare_file "features" x _ s1) as [[b2|e2] s2] eqn:Hrun2;
      [|done].
    destruct H2 as (Hframe2 & arr2 & Harr2 & Hshape2 & Hwf2 & Hb2).
    unfold ret. split; [by eapply wf_disk_update|]. split.
    { rewrite dom_insert_L, Hdom, list_to_set_app_L. simpl. set_solver. }
    split.
    + intros c name Hc Hname.
      apply elem_of_app in Hc as [Hc|Hc].
      * assert (c ≠ x) by congruence.
        destruct (Hready c name Hc Hname) as (b & arr & Hb & Harr & Hsh & Hz).
        exists b, arr. rewrite to_store_get_insert_ne by done.
        rewrite Hframe2, Hframe1 by congruence. done.
      * apply list_elem_of_singleton in Hc as ->.
        rewrite to_store_get_insert by done.
        unfold size_of. rewrite Hsize. unfold entry_shape.
        apply elem_of_cons in Hname as [->|Hname].
        -- exists b1, arr1. rewrite bool_decide_true by done.
           rewrite Hframe2 by done. repeat split; try done.
           destruct b1; [done|].
           rewrite <- Hframe by (left; done). split; [done|].
           rewrite <- Hb1. by eapply prepare_file_false_kept.
        -- apply list_elem_of_singleton in Hname as ->.
           exists b2, arr2. rewrite bool_decide_false by done.
           repeat split; try done. destruct b2; [done|].
           rewrite <- Hframe by (left; done).
           rewrite <- Hframe1 by done. split; [done|].
           rewrite <- Hb2. by eapply prepare_file_false_kept.
    + intros c name Hc.
      assert (Hk : (c, name) ≠ (x, "masks"%string)
                   ∧ (c, name) ≠ (x, "features"%string)).
      { destruct Hc as [Hc|Hc].
        - rewrite elem_of_app, list_elem_of_singleton in Hc.
          split; intros [= -> ->]; tauto.
        - split; intros [= -> ->]; tauto. }
      destruct Hk as [Hk1 Hk2]. rewrite Hframe2, Hframe1 by done.
      apply Hframe. destruct Hc as [Hc|Hc]; [left|by right].
      rewrite elem_of_app in Hc. tauto.
  - intros s Hs. simpl. rewrite Hs. split; [done|]. split.
    { by rewrite dom_empty_L. }
    split; [|done]. intros c name Hc. by apply elem_of_nil in Hc.
  - intros ts s (Hwf & Hdom & Hready & Hframe). split; [done|].
    assert (Hel : ∀ c, c ∈ sorted_keys spc ↔ c ∈ dom spc)
      by (intros c; apply sorted_keys_elem).
    split; [|split].
    + rewrite Hdom. apply set_eq. intros c.
      by rewrite elem_of_list_to_set.
    + intros c name Hc. apply Hready. by apply Hel.
    + intros c name Hc. apply Hframe. rewrite Hel. done.
Qed.

(** X15: on a store of rectangular arrays, with no empty cluster in the
    mapping, [_clusters_to_store] returns a flag for both fields of exactly
    the clusters of the mapping; afterwards both entries of each of them
    have the expected shape, blank when flagged and as they were when not,
    and every other entry is as it was. *)
Theorem clusters_to_store_contract m (spikes_per_cluster : gmap Z (list Z)) s :
  map_Forall (λ _ sp, sp ≠ []) spikes_per_cluster →
  wf_disk (disk_store s) →
  ∃ to_store s',
    _clusters_to_store m spikes_per_cluster s = (Ok to_store, s')
    ∧ dom to_store = dom spikes_per_cluster
    ∧ (∀ c name, c ∈ dom spikes_per_cluster → name ∈ names →
         ∃ b arr,
           to_store_get to_store c name = Ok b
           ∧ disk_store s' !! (c, name) = Some arr
           ∧ shape arr = entry_shape m name (size_of spikes_per_cluster c)
           ∧ (if b
              then arr = np_zeros
                           (entry_shape m name (size_of spikes_per_cluster c))
              else disk_store s !! (c, name) = Some arr))
    ∧ (∀ c name, c ∉ dom spikes_per_cluster ∨ name ∉ names →
         disk_store s' !! (c, name) = disk_store s !! (c, name)).
Proof.
  intros Hspc Hwf.
  pose proof (clusters_to_store_full m spikes_per_cluster (disk_store s)
                Hspc Hwf s eq_refl) as H.
  destruct (_clusters_to_store m spikes_per_cluster s) as [[ts|e] s'];
    [|done].
  destruct H as (_ & Hdom & Hready & Hframe). exists ts, s'.
  split; [done|]. split; [done|]. split; [|done].
  intros c name Hc Hname.
  destruct (Hready c name Hc Hname) as (b & arr & Hb & Harr & Hsh & Hz).
  exists b, arr. repeat split; try done. destruct b; [done|]. apply Hz.
Qed.

Lemma clusters_to_store_contract_witness :
  ∃ to_store s',
    _clusters_to_store model_three_spikes spc_three_spikes state_written
    = (Ok to_store, s')
    ∧ dom to_store = dom spc_three_spikes
    ∧ (∀ c name, c ∈ dom spc_three_spikes → name ∈ names →
         ∃ b arr,
           to_store_get to_store c name = Ok b
           ∧ disk_store s' !! (c, name) = Some arr
           ∧ shape arr = entry_shape model_three_spikes name
                           (size_of spc_three_spikes c)
           ∧ (if b
              then arr = np_zeros
                           (entry_shape model_three_spikes name
                              (size_of spc_three_spikes c))
              else disk_store state_written !! (c, name) = Some arr))
    ∧ (∀ c name, c ∉ dom spc_three_spikes ∨ name ∉ names →
         disk_store s' !! (c, name) = disk_store state_written !! (c, name)).
Proof.
  apply (clusters_to_store_contract model_three_spikes spc_three_spikes
           state_written).
  - apply (bool_decide_eq_true_1 _). vm_compute. reflexivity.
  - unfold wf_disk. apply (bool_decide_eq_true_1 _). vm_compute. reflexivity.
Defined.

(** *** The entries a pass writes to *)

Lemma untouched_refl Kd Km s : untouched Kd Km s s.
Proof. by split. Qed.

Lemma untouched_trans Kd Km s0 s1 s2 :
  untouched Kd Km s0 s1 → untouched Kd Km s1 s2 → untouched Kd Km s0 s2.
Proof.
  intros [Hd1 Hm1] [Hd2 Hm2]. split.
  - intros k Hk. by rewrite Hd2, Hd1.
  - intros c Hc. by rewrite Hm2, Hm1.
Qed.

Lemma untouched_same Kd Km s0 s :
  disk_store s = disk_store s0 → memory_store s = memory_store s0 →
  untouched Kd Km s0 s.
Proof. intros Hd Hm. split; intros; by rewrite ?Hd, ?Hm. Qed.

Lemma touches_only_weaken {A} (Kd Kd' : Z * string → Prop)
    (Km Km' : Z → Prop) (m : M A) :
  (∀ k, Kd k → Kd' k) → (∀ c, Km c → Km' c) →
  touches_only Kd Km m → touches_only Kd' Km' m.
Proof.
  intros HKd HKm Hm s. destruct (Hm s) as [Hd Hmem].
  split; intros; [apply Hd|apply Hmem]; auto.
Qed.

Section footprint.

Context (Kd : Z * string → Prop) (Km : Z → Prop).

Lemma touches_only_ret {A} (a : A) : touches_only Kd Km (ret a).
Proof. intros s. apply untouched_refl. Qed.

Lemma touches_only_raise {A} e : touches_only Kd Km (@raise A e).
Proof. intros s. apply untouched_refl. Qed.

Lemma touches_only_lift {A} (r : result A) : touches_only Kd Km (lift r).
Proof. intros s. apply untouched_refl. Qed.

Lemma touches_only_bind {A B} (m : M A) (k : A → M B) :
  touches_only Kd Km m → (∀ a, touches_only Kd Km (k a)) →
  touches_only Kd Km (bind m k).
Proof.
  intros Hm Hk s. unfold bind. specialize (Hm s).
  destruct (m s) as [[a|e] s']; [|done].
  eapply untouched_trans; [exact Hm|apply Hk].
Qed.

Lemma touches_only_foldlM {A B} (f : B → A → M B) l :
  (∀ b x, x ∈ l → touches_only Kd Km (f b x)) →
  ∀ b, touches_only Kd Km (foldlM f b l).
Proof.
  induction l as [|x l IH]; intros Hf b; [apply touches_only_ret|].
  apply touches_only_bind; [apply Hf; left|].
  intros b'. apply IH. intros b'' y Hy. apply Hf. by right.
Qed.

Lemma touches_only_report pr c : touches_only Kd Km (report pr c).
Proof. intros s. unfold report. destruct pr; by apply untouched_same. Qed.

Lemma touches_only_warn name c : touches_only Kd Km (warn name c).
Proof. intros s. by apply untouched_same. Qed.

Lemma touches_only_disk_load c name : touches_only Kd Km (disk_load c name).
Proof. intros s. apply untouched_refl. Qed.

Lemma touches_only_cluster_file c : touches_only Kd Km (cluster_file c).
Proof. intros s. by apply untouched_same. Qed.

Lemma touches_only_disk_store c name arr :
  Kd (c, name) → touches_only Kd Km (disk_store_ c name arr).
Proof.
  intros Hc s. split; [|done]. intros k Hk. simpl.
  apply lookup_insert_ne. congruence.
Qed.

Lemma touches_only_memory_store c fields :
  Km c → touches_only Kd Km (memory_store_ c fields).
Proof.
  intros Hc s. split; [done|]. intros c' Hc'. simpl.
  apply lookup_insert_ne. congruence.
Qed.

Lemma touches_only_close_all fs : touches_only Kd Km (close_all fs).
Proof.
  intros s. unfold close_all; simpl.
  apply (map_fold_weak_ind
           (λ r (_ : gmap (string * Z) nat), untouched Kd Km s r)).
  - apply untouched_refl.
  - intros k f fs' r _ Hr. eapply untouched_trans; [exact Hr|].
    by apply untouched_same.
Qed.

Lemma touches_only_disk_setitem c name i data :
  Kd (c, name) → touches_only Kd Km (disk_setitem c name i data).
Proof.
  intros Hc. unfold disk_setitem.
  apply touches_only_bind; [apply touches_only_disk_load|].
  intros [arr|]; [|apply touches_only_raise].
  apply touches_only_bind; [apply touches_only_lift|].
  intros arr'. by apply touches_only_disk_store.
Qed.

Lemma touches_only_prepare_file name c shp :
  Kd (c, name) → touches_only Kd Km (_prepare_file name c shp).
Proof.
  intros Hc. unfold _prepare_file.
  apply touches_only_bind; [apply touches_only_disk_load|].
  intros arr. apply touches_only_bind.
  - destruct arr as [arr|]; [|apply touches_only_ret].
    case_bool_decide; [|apply touches_only_ret].
    apply touches_only_bind; [apply touches_only_lift|]. intros r0.
    apply touches_only_bind.
    + destruct (all_zero r0); [|apply touches_only_ret].
      apply touches_only_bind; [apply touches_only_lift|].
      intros r1. apply touches_only_ret.
    + intros [|]; [|apply touches_only_ret].
      apply touches_only_bind; [apply touches_only_warn|].
      intros _. apply touches_only_ret.
  - intros [|]; [apply touches_only_ret|].
    apply touches_only_bind; [by apply touches_only_disk_store|].
    intros _. apply touches_only_ret.
Qed.

Lemma touches_only_arr lv c name : touches_only Kd Km (_arr lv c name).
Proof.
  unfold _arr. destruct (files lv !! (name, c)); [apply touches_only_ret|].
  apply touches_only_bind; [apply touches_only_cluster_file|].
  intros f. apply touches_only_ret.
Qed.

Lemma touches_only_store_extra m pr u c :
  Km c → touches_only Kd Km (store_extra m pr u c).
Proof.
  intros Hc. unfold store_extra.
  apply touches_only_bind; [apply touches_only_disk_load|]. intros features.
  apply touches_only_bind; [apply touches_only_disk_load|]. intros masks.
  apply touches_only_bind; [|intros; apply touches_only_report].
  unfold _store_extra_fields. destruct masks; [|apply touches_only_raise].
  apply touches_only_bind; [apply touches_only_lift|]. intros f.
  by apply touches_only_memory_store.
Qed.

End footprint.

Lemma touches_only_clusters_to_store m spc Km :
  touches_only (entries_of spc) Km (_clusters_to_store m spc).
Proof.
  unfold _clusters_to_store. apply touches_only_foldlM.
  intros ts c Hc. apply sorted_keys_elem in Hc. rewrite dom_fmap_L in Hc.
  apply touches_only_bind.
  { apply touches_only_prepare_file. split; [done|].
    unfold names; simpl; set_solver. }
  intros b1. apply touches_only_bind.
  { apply touches_only_prepare_file. split; [done|].
    unfold names; simpl; set_solver. }
  intros b2. apply touches_only_ret.
Qed.

Lemma touches_only_store_field m ts c spike lv name Km :
  touches_only (flagged ts) Km (store_field m ts c spike lv name).
Proof.
  unfold store_field.
  destruct (to_store_get ts c name) as [[|]|e] eqn:Hget.
  - apply touches_only_bind; [apply touches_only_lift|].
    intros [|]; [|apply touches_only_ret].
    apply touches_only_bind; [apply touches_only_lift|]. intros data.
    apply touches_only_bind; [apply touches_only_arr|]. intros lv'.
    apply touches_only_bind; [by apply touches_only_disk_setitem|].
    intros _. apply touches_only_ret.
  - intros s. unfold bind, lift, ret. apply untouched_refl.
  - intros s. unfold bind, lift. apply untouched_refl.
Qed.

Lemma touches_only_store_spike m pr ts lv it Km :
  touches_only (flagged ts) Km (store_spike m pr ts lv it).
Proof.
  unfold store_spike. destruct it as [iteration spike].
  apply touches_only_bind; [apply touches_only_lift|]. intros c.
  apply touches_only_bind.
  { apply touches_only_foldlM. intros lv' name _.
    apply touches_only_store_field. }
  intros lv'. apply touches_only_bind; [|intros; apply touches_only_ret].
  destruct (pr && _); [apply touches_only_report|apply touches_only_ret].
Qed.

Lemma prepare_file_false name c shp s s' :
  _prepare_file name c shp s = (Ok false, s') → s' = s.
Proof.
  unfold _prepare_file, bind at 1, disk_load.
  destruct (disk_store s !! (c, name)) as [arr|]; [|by intros [=]].
  unfold bind at 1. case_bool_decide; [|by intros [=]].
  unfold bind at 1, lift. destruct (first_row arr) as [r0|]; [|by intros [=]].
  unfold bind at 1. destruct (all_zero r0); [|by intros [=]].
  unfold bind at 1. destruct (last_row arr) as [r1|]; [|by intros [=]].
  unfold ret at 1. destruct (all_zero r1); [by intros [=]|by intros [=]].
Qed.

Lemma clusters_to_store_flags m spc s ts s' :
  _clusters_to_store m spc s = (Ok ts, s') →
  dom ts = dom spc
  ∧ (∀ k b, to_store_get ts k.1 k.2 = Ok b → entries_of spc k)
  ∧ (∀ k, ¬ flagged ts k → disk_store s' !! k = disk_store s !! k).
Proof.
  intros Hrun.
  assert (Hloop : triple (λ s1, s1 = s) (_clusters_to_store m spc)
            (λ ts s1,
               dom ts = dom spc
               ∧ (∀ c t, ts !! c = Some t →
                         dom t = {["masks"; "features"]}%string)
               ∧ (∀ k, ¬ flagged ts k →
                       disk_store s1 !! k = disk_store s !! k))
            (λ _ _, True)).
  { unfold _clusters_to_store.
    assert (Hkeys : sorted_keys (length <$> spc) = sorted_keys spc).
    { unfold sorted_keys. by rewrite dom_fmap_L. }
    rewrite Hkeys.
    eapply triple_conseq;
      [apply (triple_foldlM
         (λ pre (ts : gmap Z (gmap string bool)) s1,
            dom ts = list_to_set pre
            ∧ (∀ c t, ts !! c = Some t →
                      dom t = {["masks"; "features"]}%string)
            ∧ (∀ k, ¬ flagged ts k →
                    disk_store s1 !! k = disk_store s !! k))
         (λ _ _, True)) | | | done].
    - intros pre x suf ts0 Hl s1 (Hdom & Hnames & Hframe).
      assert (Hxpre : x ∉ pre).
      { pose proof (sorted_keys_NoDup spc) as Hnd. rewrite Hl in Hnd.
        apply NoDup_app in Hnd as (_ & Hnd & _). intros Hin.
        apply (Hnd x Hin). by left. }
      assert (Hxts : ts0 !! x = None).
      { apply not_elem_of_dom. rewrite Hdom. set_solver. }
      cbv zeta. unfold bind at 1.
      set (shp1 := [default 0%nat ((length <$> spc) !! x); n_channels m]).
      pose proof (touches_only_prepare_file (λ k, k = (x, "masks"%string))
                    (λ _, False) "masks" x shp1 eq_refl s1) as [Hf1 _].
      destruct (_prepare_file "masks" x shp1 s1) as [[b1|] s2] eqn:H1;
        [|done].
      unfold bind at 1.
      set (shp2 := [default 0%nat ((length <$> spc) !! x); n_channels m;
                    nfeatures_per_channel m]).
      pose proof (touches_only_prepare_file (λ k, k = (x, "features"%string))
                    (λ _, False) "features" x shp2 eq_refl s2) as [Hf2 _].
      destruct (_prepare_file "features" x shp2 s2) as [[b2|] s3] eqn:H2;
        [|done].
      unfold ret. simpl in Hf1, Hf2. split; [|split].
      + rewrite dom_insert_L, Hdom, list_to_set_app_L. simpl. set_solver.
      + intros c t. destruct (decide (c = x)) as [->|Hne].
        * rewrite lookup_insert_eq. intros [= <-].
          rewrite !dom_insert_L, dom_empty_L. set_solver.
        * rewrite lookup_insert_ne by done. apply Hnames.
      + intros [c name] Hk. unfold flagged in Hk. simpl in Hk.
        destruct (decide (c = x)) as [->|Hne].
        * assert (Hold : ¬ flagged ts0 (x, name)).
          { unfold flagged, to_store_get. simpl. by rewrite Hxts. }
          rewrite <- (Hframe _ Hold).
          unfold to_store_get in Hk. rewrite lookup_insert_eq in Hk.
          simpl in Hk.
          destruct (decide (name = "features"%string)) as [->|Hn2].
          { rewrite lookup_insert_eq in Hk. destruct b2; [done|].
            apply prepare_file_false in H2 as ->.
            apply Hf1. congruence. }
          rewrite lookup_insert_ne in Hk by done.
          destruct (decide (name = "masks"%string)) as [->|Hn1].
          { rewrite lookup_insert_eq in Hk. destruct b1; [done|].
            apply prepare_file_false in H1 as ->.
            apply Hf2. congruence. }
          rewrite Hf2, Hf1 by congruence. done.
        * rewrite to_store_get_insert_ne in Hk by done.
          rewrite Hf2, Hf1 by congruence. by apply Hframe.
    - intros s1 ->. simpl. split; [by rewrite dom_empty_L|].
      split; [|done]. intros c t. by rewrite lookup_empty.
    - intros ts1 s1 (Hdom & Hnames & Hframe). split; [|done].
      rewrite Hdom. apply set_eq. intros c.
      rewrite elem_of_list_to_set. apply sorted_keys_elem. }
  specialize (Hloop s eq_refl). rewrite Hrun in Hloop.
  destruct Hloop as (Hdom & Hnames & Hframe).
  split; [done|]. split; [|done].
  intros [c name] b Hget. unfold to_store_get in Hget. simpl in Hget.
  destruct (ts !! c) as [t|] eqn:Ht; [|done]. simpl in Hget.
  destruct (t !! name) as [b'|] eqn:Hb; [|done].
  split; simpl.
  - rewrite <- Hdom. by apply elem_of_dom.
  - assert (Hin : name ∈ dom t) by (by apply elem_of_dom).
    rewrite (Hnames c t Ht) in Hin. unfold names. set_solver.
Qed.

Lemma touches_only_pass m pr ts (spc : gmap Z (list Z)) n spikes :
  touches_only (flagged ts) (λ c, c ∈ dom spc)
    (report pr (PrSetMax n (size spc));;
     do lv <- foldlM (store_spike m pr ts) (Locals ∅ ∅) spikes;
     foldlM (store_extra m pr) tt (sorted_keys spc);;
     close_all (files lv)).
Proof.
  apply touches_only_bind; [apply touches_only_report|]. intros _.
  apply touches_only_bind.
  { apply touches_only_foldlM. intros lv it _.
    apply touches_only_store_spike. }
  intros lv. apply touches_only_bind; [|intros; apply touches_only_close_all].
  apply touches_only_foldlM. intros u c Hc%sorted_keys_elem.
  by apply touches_only_store_extra.
Qed.

Lemma touches_only_store_all_clusters m pr spc :
  touches_only (entries_of spc) (λ c, c ∈ dom spc)
    (store_all_clusters m pr spc).
Proof.
  intros s. unfold store_all_clusters, bind at 1.
  pose proof (touches_only_clusters_to_store m spc (λ c, c ∈ dom spc) s)
    as H0.
  destruct (_clusters_to_store m spc s) as [[ts|e] s0] eqn:Hcts; [|done].
  apply clusters_to_store_flags in Hcts as (_ & Hcts & _).
  eapply untouched_trans; [exact H0|]. cbv zeta.
  eapply touches_only_weaken; [| |apply touches_only_pass]; [|done].
  intros k Hk. by eapply Hcts.
Qed.

(** X16: whatever its outcome, [store_all_clusters] leaves as they were
    the entries of the disk store other than the two fields of the clusters
    of the mapping, and the entries of the memory store of the other
    clusters. *)
Theorem store_all_clusters_locality m pr spikes_per_cluster s :
  let s' := (store_all_clusters m pr spikes_per_cluster s).2 in
  (∀ c name, c ∉ dom spikes_per_cluster ∨ name ∉ names →
     disk_store s' !! (c, name) = disk_store s !! (c, name))
  ∧ (∀ c, c ∉ dom spikes_per_cluster →
       memory_store s' !! c = memory_store s !! c).
Proof.
  intros s'.
  destruct (touches_only_store_all_clusters m pr spikes_per_cluster s)
    as [Hd Hm].
  split; [|exact Hm]. intros c name Hc. apply Hd.
  unfold entries_of. simpl. tauto.
Qed.

(** The pass writes to an entry only if [_clusters_to_store] flagged it. *)
Lemma unflagged_entries m pr spc s ts s0 k :
  _clusters_to_store m spc s = (Ok ts, s0) → ¬ flagged ts k →
  disk_store (store_all_clusters m pr spc s).2 !! k = disk_store s !! k.
Proof.
  intros Hcts Hflag. unfold store_all_clusters, bind at 1.
  rewrite Hcts. cbv zeta.
  apply clusters_to_store_flags in Hcts as (_ & _ & Hframe).
  rewrite <- (Hframe k) by done.
  by apply touches_only_pass.
Qed.

(** X17: whatever its outcome, [store_all_clusters] leaves every entry of
    the disk store that [_clusters_to_store] did not flag as it was before
    the call. *)
Theorem store_all_clusters_unflagged m pr spikes_per_cluster s to_store s0 :
  _clusters_to_store m spikes_per_cluster s = (Ok to_store, s0) →
  let s' := (store_all_clusters m pr spikes_per_cluster s).2 in
  ∀ c name, to_store_get to_store c name ≠ Ok true →
            disk_store s' !! (c, name) = disk_store s !! (c, name).
Proof.
  intros Hcts s' c name Hflag.
  by apply (unflagged_entries m pr spikes_per_cluster s to_store s0 (c, name)).
Qed.

Lemma store_all_clusters_unflagged_witness :
  ∃ to_store s0,
    _clusters_to_store model_three_spikes spc_three_spikes state_populated
    = (Ok to_store, s0)
    ∧ ∀ c name,
        to_store_get to_store c name ≠ Ok true →
        disk_store (store_all_clusters model_three_spikes true
                      spc_three_spikes state_populated).2 !! (c, name)
        = disk_store state_populated !! (c, name).
Proof.
  eexists _, _. split; [vm_compute; reflexivity|].
  eapply (store_all_clusters_unflagged model_three_spikes true
            spc_three_spikes state_populated).
  vm_compute. reflexivity.
Defined.

(** *** A pass over a populated store *)

Lemma prepare_file_kept name c shp s :
  entry_kept shp (disk_store s !! (c, name)) = true →
  _prepare_file name c shp s = (Ok false, s).
Proof.
  unfold entry_kept. intros Hk.
  destruct (disk_store s !! (c, name)) as [arr|] eqn:Harr; [|done].
  apply andb_true_iff in Hk as [[Hshape _]%bool_decide_eq_true Hrows].
  destruct (first_row arr) as [r0|] eqn:Hr0; [|done].
  destruct (last_row arr) as [r1|] eqn:Hr1; [|done].
  apply negb_true_iff in Hrows.
  unfold _prepare_file, bind at 1, disk_load. rewrite Harr.
  unfold bind at 1. rewrite bool_decide_true by done.
  unfold bind at 1, lift. rewrite Hr0. unfold bind at 1.
  destruct (all_zero r0); [|done].
  unfold bind at 1. rewrite Hr1. unfold ret at 1. simpl in Hrows.
  by rewrite Hrows.
Qed.

Lemma populated_lookup m spc d c name :
  populated m spc d → c ∈ dom spc → name ∈ names →
  entry_kept (entry_shape m name (size_of spc c)) (d !! (c, name)) = true.
Proof.
  intros Hp [sp Hsp]%elem_of_dom Hname. specialize (Hp c sp Hsp).
  simpl in Hp. rewrite Forall_forall in Hp.
  unfold size_of. rewrite lookup_fmap, Hsp. simpl. by apply Hp.
Qed.

(** On a populated store [_clusters_to_store] flags nothing and changes
    nothing. *)
Lemma clusters_to_store_populated m spc s :
  populated m spc (disk_store s) →
  ∃ ts, _clusters_to_store m spc s = (Ok ts, s)
        ∧ dom ts = dom spc
        ∧ ∀ c name, c ∈ dom spc → name ∈ names →
                    to_store_get ts c name = Ok false.
Proof.
  intros Hp.
  assert (Hloop : triple (λ s', s' = s) (_clusters_to_store m spc)
            (λ ts s', s' = s ∧ dom ts = dom spc
                      ∧ ∀ c name, c ∈ dom spc → name ∈ names →
                                  to_store_get ts c name = Ok false)
            no_raise).
  { unfold _clusters_to_store.
    assert (Hkeys : sorted_keys (length <$> spc) = sorted_keys spc).
    { unfold sorted_keys. by rewrite dom_fmap_L. }
    rewrite Hkeys.
    eapply triple_conseq;
      [apply (triple_foldlM
         (λ pre (ts : gmap Z (gmap string bool)) s',
            s' = s ∧ dom ts = list_to_set pre
            ∧ ∀ c name, c ∈ pre → name ∈ names →
                        to_store_get ts c name = Ok false)) | | | done].
    - intros pre x suf ts Hl s' (-> & Hdom & Hflags).
      assert (Hx : x ∈ dom spc).
      { apply sorted_keys_elem. rewrite Hl. set_solver. }
      assert (Hxpre : x ∉ pre).
      { pose proof (sorted_keys_NoDup spc) as Hnd. rewrite Hl in Hnd.
        apply NoDup_app in Hnd as (_ & Hnd & _). intros Hin.
        apply (Hnd x Hin). by left. }
      pose proof (populated_lookup m spc _ x "masks" Hp Hx) as H1.
      pose proof (populated_lookup m spc _ x "features" Hp Hx) as H2.
      unfold size_of, entry_shape in H1, H2.
      rewrite bool_decide_true in H1 by done.
      rewrite bool_decide_false in H2 by done.
      cbv zeta. unfold bind at 1.
      rewrite prepare_file_kept by (apply H1; unfold names; set_solver).
      unfold bind at 1.
      rewrite prepare_file_kept by (apply H2; unfold names; set_solver).
      unfold ret. split; [done|]. split.
      { rewrite dom_insert_L, Hdom, list_to_set_app_L. simpl. set_solver. }
      intros c name [Hc|Hc]%elem_of_app Hname.
      + rewrite to_store_get_insert_ne by congruence. by apply Hflags.
      + apply list_elem_of_singleton in Hc as ->.
        rewrite to_store_get_insert by done. by case_bool_decide.
    - intros s' ->. simpl. split; [done|]. split; [by rewrite dom_empty_L|].
      intros c name Hc. by apply elem_of_nil in Hc.
    - intros ts s' (-> & Hdom & Hflags). split; [done|].
      assert (Hel : ∀ c, c ∈ sorted_keys spc ↔ c ∈ dom spc)
        by (intros c; apply sorted_keys_elem).
      split.
      + rewrite Hdom. apply set_eq. intros c. by rewrite elem_of_list_to_set.
      + intros c name Hc. apply Hflags. by apply Hel. }
  specialize (Hloop s eq_refl).
  destruct (_clusters_to_store m spc s) as [[ts|e] s']; [|done].
  destruct Hloop as (-> & Hdom & Hflags). by exists ts.
Qed.

(** The aggregation pass: the memory store gets, for each cluster, the
    fields computed from the masks of the cluster in the disk store, which
    the pass only reads. *)
Lemma store_extras_full m pr D H W cs :
  length (probe_positions m) = n_channels m →
  (∀ c, c ∈ cs → ∃ arr n, D !! (c, "masks"%string) = Some arr
                          ∧ shape arr = [n; n_channels m] ∧ wf_ndarray arr) →
  triple (λ s, disk_store s = D ∧ handles s = H ∧ warnings s = W)
    (foldlM (store_extra m pr) tt cs)
    (λ _ s', disk_store s' = D ∧ handles s' = H ∧ warnings s' = W
             ∧ ∀ c, c ∈ cs →
                 ∃ masks f, D !! (c, "masks"%string) = Some masks
                            ∧ extra_fields_of m masks = Ok f
                            ∧ memory_store s' !! c = Some f)
    no_raise.
Proof.
  intros Hm Hcs.
  eapply triple_conseq;
    [apply (triple_foldlM
       (λ pre (_ : unit) s,
          disk_store s = D ∧ handles s = H ∧ warnings s = W
          ∧ ∀ c, c ∈ pre →
              ∃ masks f, D !! (c, "masks"%string) = Some masks
                         ∧ extra_fields_of m masks = Ok f
                         ∧ memory_store s !! c = Some f)) | | | done].
  - intros pre c suf [] -> s (Hd & Hh & Hw & Hmem).
    destruct (Hcs c) as (arr & n & Harr & Hshape & Hwf); [set_solver|].
    destruct (extra_fields_of_ok m arr n Hm Hshape Hwf) as [f Hf].
    unfold store_extra, bind, disk_load, _store_extra_fields.
    rewrite Hd, Harr. unfold bind, lift. rewrite Hf.
    unfold memory_store_, report.
    assert (Hpost : ∀ c', c' ∈ pre ++ [c] →
      ∃ masks f', D !! (c', "masks"%string) = Some masks
                  ∧ extra_fields_of m masks = Ok f'
                  ∧ <[c := f]> (memory_store s) !! c' = Some f').
    { intros c' Hc'. destruct (decide (c' = c)) as [->|Hne].
      - exists arr, f. by rewrite lookup_insert_eq.
      - rewrite lookup_insert_ne by done. apply Hmem.
        apply elem_of_app in Hc' as [?|Hc']; [done|].
        by apply list_elem_of_singleton in Hc'. }
    by destruct pr.
  - intros s (Hd & Hh & Hw). repeat split; try done.
    intros c Hc. by apply elem_of_nil in Hc.
  - done.
Qed.

Lemma close_all_empty s : close_all ∅ s = (Ok tt, s).
Proof. unfold close_all. by rewrite map_fold_empty. Qed.

Lemma entry_kept_inv shp entry :
  entry_kept shp entry = true →
  ∃ arr, entry = Some arr ∧ shape arr = shp ∧ wf_ndarray arr.
Proof.
  unfold entry_kept. destruct entry as [arr|]; [|done].
  intros [[? ?]%bool_decide_eq_true _]%andb_true_iff. by exists arr.
Qed.

(** A pass over a populated store only computes the fields of the memory
    store again. *)
Lemma pass_populated m pr spikes_per_cluster s :
  length (probe_positions m) = n_channels m →
  populated m spikes_per_cluster (disk_store s) →
  ∃ s', store_all_clusters m pr spikes_per_cluster s = (Ok tt, s')
        ∧ disk_store s' = disk_store s
        ∧ handles s' = handles s
        ∧ warnings s' = warnings s
        ∧ ∀ c, c ∈ dom spikes_per_cluster →
            ∃ masks f, disk_store s !! (c, "masks"%string) = Some masks
                       ∧ extra_fields_of m masks = Ok f
                       ∧ memory_store s' !! c = Some f.
Proof.
  intros Hm Hp.
  destruct (clusters_to_store_populated m spikes_per_cluster s Hp)
    as (ts & Hcts & Hdom & Hflags).
  unfold store_all_clusters, bind at 1. rewrite Hcts. cbv zeta.
  assert (Hmasks : "masks"%string ∈ names) by (unfold names; set_solver).
  assert (Hfeatures : "features"%string ∈ names)
    by (unfold names; set_solver).
  assert (Hnone : filter (λ cluster, needs_store ts cluster = true)
                         (sorted_keys ts) = []).
  { apply filter_none. apply Forall_forall.
    intros c Hc%sorted_keys_elem. rewrite Hdom in Hc. unfold needs_store.
    by rewrite !Hflags. }
  rewrite Hnone.
  assert (Hsp : _spikes_in_clusters (spike_clusters m) [] = []).
  { unfold _spikes_in_clusters. rewrite bool_decide_true; [done|by right]. }
  rewrite Hsp. cbn [length seq zip zip_with foldlM].
  assert (Hrep : ∃ s1,
    report pr (PrSetMax 0 (size spikes_per_cluster)) s = (Ok tt, s1)
    ∧ disk_store s1 = disk_store s ∧ handles s1 = handles s
    ∧ warnings s1 = warnings s).
  { unfold report. destruct pr; eauto. }
  destruct Hrep as (s1 & Hrep & Hd1 & Hh1 & Hw1).
  unfold bind at 1. rewrite Hrep. unfold bind at 1, ret at 1.
  pose proof (store_extras_full m pr (disk_store s) (handles s) (warnings s)
                (sorted_keys spikes_per_cluster) Hm) as H2.
  specialize (H2 ltac:(intros c Hc%sorted_keys_elem;
    destruct (entry_kept_inv _ _
                (populated_lookup m _ _ c "masks" Hp Hc Hmasks))
      as (arr & Harr & Hshape & Hwf);
    exists arr, (size_of spikes_per_cluster c); split; [done|];
    split; [|done]; rewrite Hshape; unfold entry_shape;
    by rewrite bool_decide_true) s1 (conj Hd1 (conj Hh1 Hw1))).
  unfold bind at 1.
  destruct (foldlM (store_extra m pr) _ _ s1) as [[[]|e] s2]; [|done].
  destruct H2 as (Hd2 & Hh2 & Hw2 & Hmem).
  simpl. rewrite close_all_empty. eexists. split; [done|].
  repeat split; try done.
  intros c Hc. apply Hmem. by apply sorted_keys_elem.
Qed.

(** X18: when the probe has one position per channel and both entries of
    every cluster of the mapping are kept by [_prepare_file], the pass
    returns without writing to the disk store, leaving a file open or
    warning; it only computes again, from the masks in the disk store, the
    fields of the memory store. *)
Theorem store_all_clusters_populated m pr spikes_per_cluster s :
  length (probe_positions m) = n_channels m →
  populated m spikes_per_cluster (disk_store s) →
  ∃ s', store_all_clusters m pr spikes_per_cluster s = (Ok tt, s')
        ∧ disk_store s' = disk_store s
        ∧ handles s' = handles s
        ∧ warnings s' = warnings s
        ∧ ∀ c, c ∈ dom spikes_per_cluster →
            ∃ masks f, disk_store s !! (c, "masks"%string) = Some masks
                       ∧ extra_fields_of m masks = Ok f
                       ∧ memory_store s' !! c = Some f.
Proof. apply pass_populated. Qed.

Lemma store_all_clusters_populated_witness :
  ∃ s', store_all_clusters model_three_spikes true spc_three_spikes
          state_populated = (Ok tt, s')
        ∧ disk_store s' = disk_store state_populated
        ∧ handles s' = handles state_populated
        ∧ warnings s' = warnings state_populated
        ∧ ∀ c, c ∈ dom spc_three_spikes →
            ∃ masks f,
              disk_store state_populated !! (c, "masks"%string) = Some masks
              ∧ extra_fields_of model_three_spikes masks = Ok f
              ∧ memory_store s' !! c = Some f.
Proof.
  apply (store_all_clusters_populated model_three_spikes true
           spc_three_spikes state_populated).
  - reflexivity.
  - unfold populated. apply (bool_decide_eq_true_1 _). vm_compute. reflexivity.
Defined.

(** *** The memory store and the way back *)

Lemma up_to_date_nonempty m spc :
  up_to_date m spc → map_Forall (λ _ sp, sp ≠ []) spc.
Proof. intros Hs c sp Hc. by destruct (Hs c sp Hc). Qed.

(** The whole pass, on a well-shaped model and store with an up-to-date
    mapping. *)
Lemma store_all_clusters_post0 m pr spc s :
  wf_model m → up_to_date m spc → wf_disk (disk_store s) →
  ∃ ts s0 s',
    _clusters_to_store m spc s = (Ok ts, s0)
    ∧ store_all_clusters m pr spc s = (Ok tt, s')
    ∧ (∀ c name, c ∈ dom spc → name ∈ names →
         ∃ b arr,
           to_store_get ts c name = Ok b
           ∧ disk_store s' !! (c, name) = Some arr
           ∧ shape arr = entry_shape m name (size_of spc c)
           ∧ wf_ndarray arr
           ∧ (if b
              then Forall2 (λ spike row, _data m name spike = Ok row)
                           (spikes_of m c) (rows arr)
              else entry_kept (entry_shape m name (size_of spc c))
                              (disk_store s !! (c, name)) = true))
    ∧ (∀ c, c ∈ dom spc →
         ∃ masks f, disk_store s' !! (c, "masks"%string) = Some masks
                    ∧ extra_fields_of m masks = Ok f
                    ∧ memory_store s' !! c = Some f).
Proof.
  intros Hm Hspc Hwf.
  pose proof (clusters_to_store_full m spc (disk_store s)
                (up_to_date_nonempty _ _ Hspc) Hwf s eq_refl) as H0.
  destruct (_clusters_to_store m spc s) as [[ts|e] s0] eqn:Hcts; [|done].
  destruct H0 as (Hwf0 & Hdom & Hfull & _).
  assert (Hready : entries_ready m spc ts (disk_store s0) (sorted_keys spc)).
  { intros c name Hc%sorted_keys_elem Hname.
    destruct (Hfull c name Hc Hname) as (b & arr & Hb & Harr & Hsh & Hz).
    exists b, arr. repeat split; try done. intros ->. done. }
  exists ts, s0.
  unfold store_all_clusters, bind at 1. rewrite Hcts. cbv zeta.
  fold (stored_spikes m ts).
  assert (Hrep : ∃ s1,
    report pr (PrSetMax (length (stored_spikes m ts)) (size spc)) s0
    = (Ok tt, s1) ∧ disk_store s1 = disk_store s0).
  { unfold report. destruct pr; eauto. }
  destruct Hrep as (s1 & Hrep & Hd1).
  unfold bind at 1. rewrite Hrep.
  pose proof (store_spikes_spec m spc ts Hm Hspc pr
                (disk_store s0) Hdom Hwf0 Hready s1 Hd1) as H1.
  unfold bind at 1.
  destruct (foldlM (store_spike m pr ts) _ _ s1) as [[lv|e] s2]; [|done].
  assert (Hmasks : "masks"%string ∈ names) by (unfold names; set_solver).
  pose proof (store_extras_full m pr (disk_store s2) (handles s2)
                (warnings s2) (sorted_keys spc)
                (proj2 (proj2 (proj2 Hm)))) as H2.
  specialize (H2 ltac:(intros c Hc%sorted_keys_elem;
    destruct (H1 c _ Hc Hmasks) as (arr & Harr & Hshape & Hwfa & _);
    by exists arr, (size_of spc c)) s2 ltac:(done)).
  unfold bind at 1.
  destruct (foldlM (store_extra m pr) _ _ s2) as [[[]|e] s3] eqn:Hext;
    [|done].
  destruct H2 as (Hd3 & _ & _ & Hmem).
  eexists. split; [done|]. split; [reflexivity|].
  pose proof (disk_close_all (files lv) s3) as Hclose.
  assert (Hmemc : memory_store (close_all (files lv) s3).2 = memory_store s3).
  { unfold close_all; simpl.
    by apply (map_fold_weak_ind
                (λ r (_ : gmap (string * Z) nat),
                   memory_store r = memory_store s3)). }
  unfold close_all in *. simpl in *. rewrite Hclose, Hmemc, Hd3.
  split.
  - intros c name Hc Hname.
    destruct (Hfull c name Hc Hname) as (b & arr0 & Hb & Harr0 & _ & Hz).
    destruct (H1 c name Hc Hname) as (arr & Harr & Hshape & Hwfa & Hmarked).
    exists b, arr. split; [done|]. split; [done|]. split; [done|].
    split; [done|]. destruct b.
    + destruct (Hmarked Hb) as [_ Hrows].
      assert (Hcl : c ∈ filter (λ cluster, needs_store ts cluster = true)
                           (sorted_keys ts)).
      { apply list_elem_of_filter. split.
        - by eapply needs_store_marked.
        - apply sorted_keys_elem. by rewrite Hdom. }
      unfold stored_spikes, done_of in Hrows.
      rewrite (filter_spikes_in_clusters m _ c Hcl) in Hrows.
      destruct (size_of_up_to_date m _ Hspc c Hc) as [Hsize _].
      destruct Hwfa as (_ & Hlen & _). rewrite Hshape in Hlen.
      rewrite take_ge in Hrows; [done|].
      rewrite Hlen, <- Hsize. unfold entry_shape. by case_bool_decide.
    + destruct Hz as [-> Hk]. exact Hk.
  - intros c Hc. apply Hmem. by apply sorted_keys_elem.
Qed.

Lemma store_all_clusters_post m pr spc s :
  wf_model m → up_to_date m spc → wf_disk (disk_store s) →
  ∃ ts s0 s',
    _clusters_to_store m spc s = (Ok ts, s0)
    ∧ store_all_clusters m pr spc s = (Ok tt, s')
    ∧ (∀ c name, c ∈ dom spc → name ∈ names →
         ∃ b arr,
           to_store_get ts c name = Ok b
           ∧ disk_store s' !! (c, name) = Some arr
           ∧ shape arr = entry_shape m name (size_of spc c)
           ∧ wf_ndarray arr
           ∧ (if b
              then Forall2 (λ spike row, _data m name spike = Ok row)
                           (spikes_of m c) (rows arr)
              else disk_store s !! (c, name) = Some arr
                   ∧ entry_kept (entry_shape m name (size_of spc c))
                                (Some arr) = true))
    ∧ (∀ c, c ∈ dom spc →
         ∃ masks f, disk_store s' !! (c, "masks"%string) = Some masks
                    ∧ extra_fields_of m masks = Ok f
                    ∧ memory_store s' !! c = Some f).
Proof.
  intros Hm Hspc Hwf.
  destruct (store_all_clusters_post0 m pr spc s Hm Hspc Hwf)
    as (ts & s0 & s' & Hcts & Hrun & Hentries & Hmem).
  exists ts, s0, s'. split; [done|]. split; [done|]. split; [|done].
  intros c name Hc Hname.
  destruct (Hentries c name Hc Hname) as (b & arr & Hb & Harr & Hsh & Hwfa & Hz).
  exists b, arr. do 4 (split; [done|]). destruct b; [done|].
  pose proof (unflagged_entries m pr spc s ts s0 (c, name) Hcts) as Hsame.
  rewrite Hrun in Hsame. simpl in Hsame.
  rewrite Hsame in Harr by (unfold flagged; simpl; by rewrite Hb).
  rewrite Harr in Hz. done.
Qed.

(** X19: on a well-shaped model and store, with an up-to-date mapping,
    the pass leaves in the memory store, for every cluster of the mapping,
    the fields computed from the masks of the cluster as the disk store
    holds them at the end. *)
Theorem store_all_clusters_memory m pr spikes_per_cluster s :
  wf_model m → up_to_date m spikes_per_cluster → wf_disk (disk_store s) →
  ∃ s', store_all_clusters m pr spikes_per_cluster s = (Ok tt, s')
        ∧ ∀ c, c ∈ dom spikes_per_cluster →
            ∃ masks f,
              disk_store s' !! (c, "masks"%string) = Some masks
              ∧ extra_fields_of m masks = Ok f
              ∧ memory_store s' !! c = Some f.
Proof.
  intros Hm Hspc Hwf.
  destruct (store_all_clusters_post m pr spikes_per_cluster s Hm Hspc Hwf)
    as (ts & s0 & s' & _ & Hrun & _ & Hmem).
  by exists s'.
Qed.

Lemma store_all_clusters_memory_witness :
  ∃ s', store_all_clusters model_three_spikes true spc_three_spikes
          empty_state = (Ok tt, s')
        ∧ ∀ c, c ∈ dom spc_three_spikes →
            ∃ masks f,
              disk_store s' !! (c, "masks"%string) = Some masks
              ∧ extra_fields_of model_three_spikes masks = Ok f
              ∧ memory_store s' !! c = Some f.
Proof.
  apply (store_all_clusters_memory model_three_spikes true spc_three_spikes
           empty_state).
  - unfold wf_model. apply (bool_decide_eq_true_1 _). vm_compute. reflexivity.
  - unfold up_to_date. apply (bool_decide_eq_true_1 _). vm_compute.
    reflexivity.
  - unfold wf_disk. apply (bool_decide_eq_true_1 _). vm_compute. reflexivity.
Defined.

Lemma stored_rows_lookup d spc name c :
  stored_rows d spc name !! c = spc !! c ≫= λ _, rows <$> d !! (c, name).
Proof. unfold stored_rows. by rewrite map_lookup_imap. Qed.

Lemma Forall2_results {A} (f : nat → result A) n :
  (∀ i, (i < n)%nat → ∃ a, f i = Ok a) →
  ∃ l, Forall2 (λ i a, f i = Ok a) (seq 0 n) l.
Proof.
  intros Hf.
  assert (H : ∀ k j, (∀ i, (j ≤ i < j + k)%nat → ∃ a, f i = Ok a) →
              ∃ l, Forall2 (λ i a, f i = Ok a) (seq j k) l).
  { induction k as [|k IH]; intros j Hj; [exists []; constructor|].
    destruct (Hj j) as [a Ha]; [lia|].
    destruct (IH (S j)) as [l Hl]; [intros i Hi; apply Hj; lia|].
    exists (a :: l). by constructor. }
  apply H. intros i Hi. apply Hf. lia.
Qed.

(** X20: with the mapping that [_spikes_per_cluster] builds from the labels
    of the model and a store without entry for its clusters, the arrays of
    a field that the pass leaves in the disk store, concatenated by
    [_concatenate_per_cluster_arrays], are the data of that field for the
    spikes 0..n-1, in order. *)
Theorem store_all_clusters_round_trip m pr spikes_per_cluster s name :
  wf_model m →
  spike_clusters m ≠ [] →
  Forall (λ c, 0 ≤ c < 2 ^ 63) (spike_clusters m) →
  _spikes_per_cluster (Z.of_nat <$> seq 0 (length (spike_clusters m)))
    (spike_clusters m) = Some spikes_per_cluster →
  wf_disk (disk_store s) →
  (∀ c name, c ∈ dom spikes_per_cluster → disk_store s !! (c, name) = None) →
  name ∈ names →
  ∃ s' data,
    store_all_clusters m pr spikes_per_cluster s = (Ok tt, s')
    ∧ Forall2 (λ spike row, _data m name spike = Ok row)
              (seq 0 (length (spike_clusters m))) data
    ∧ _concatenate_per_cluster_arrays spikes_per_cluster
        (stored_rows (disk_store s') spikes_per_cluster name)
      = Some data.
Proof.
  intros Hm Hne Hb Hspc Hwf Hfresh Hname.
  destruct (spikes_per_cluster_arange (spike_clusters m) Hne Hb)
    as (d & Hd & Hlook & Hpart).
  rewrite Hspc in Hd. injection Hd as <-.
  set (spc := spikes_per_cluster) in *.
  assert (Hsp : ∀ c sp, spc !! c = Some sp →
                        c ∈ spike_clusters m
                        ∧ sp = Z.of_nat <$> spikes_of m c).
  { intros c sp Hc. rewrite Hlook in Hc.
    destruct (decide (c ∈ spike_clusters m)); [|done].
    by injection Hc as <-. }
  assert (Hup : up_to_date m spc).
  { intros c sp Hc. destruct (Hsp c sp Hc) as [Hin ->]. simpl.
    rewrite length_fmap. split; [|done].
    apply list_elem_of_lookup in Hin as [i Hi].
    apply elem_of_spikes_of in Hi. intros Hnil%fmap_nil_inv.
    rewrite Hnil in Hi. by apply elem_of_nil in Hi. }
  destruct (store_all_clusters_post m pr spc s Hm Hup Hwf)
    as (ts & s0 & s' & _ & Hrun & Hentries & _).
  destruct (Forall2_results (_data m name) (length (spike_clusters m)))
    as [data Hdata].
  { intros i Hi. destruct (data_ok m name i 0 Hm Hi Hname) as (r & Hr & _).
    eauto. }
  exists s', data. split; [done|]. split; [done|].
  set (arrays := stored_rows (disk_store s') spc name).
  assert (Harr : ∀ c sp, spc !! c = Some sp →
            ∃ arr, arrays !! c = Some (rows arr)
                   ∧ Forall2 (λ spike row, _data m name spike = Ok row)
                             (spikes_of m c) (rows arr)).
  { intros c sp Hc.
    assert (Hcd : c ∈ dom spc) by (apply elem_of_dom; eauto).
    destruct (Hentries c name Hcd Hname)
      as (b & arr & Hb' & Harr & _ & _ & Hrows).
    destruct b.
    2:{ rewrite Hfresh in Hrows by done. by destruct Hrows. }
    exists arr. split; [|done].
    unfold arrays. by rewrite stored_rows_lookup, Hc, Harr. }
  assert (Hdom : dom arrays = dom spc).
  { apply set_eq. intros c. rewrite !elem_of_dom. unfold arrays.
    rewrite stored_rows_lookup. split.
    - destruct (spc !! c); [eauto|by intros [? ?]].
    - intros [sp Hc]. destruct (Harr c sp Hc) as (arr & Ha & _).
      unfold arrays in Ha. rewrite stored_rows_lookup in Ha.
      rewrite Ha. eauto. }
  assert (Hlen : ∀ c, c ∈ sorted_keys arrays →
    length (default [] (spc !! c)) = length (default [] (arrays !! c))).
  { intros c Hc%sorted_keys_elem. rewrite Hdom in Hc.
    apply elem_of_dom in Hc as [sp Hc]. destruct (Harr c sp Hc)
      as (arr & Ha & Hrows). rewrite Hc, Ha. simpl.
    destruct (Hsp c sp Hc) as [_ ->]. rewrite length_fmap.
    by eapply Forall2_length. }
  assert (Hfst : (labelled_rows spc arrays).*1
                 ≡ₚ Z.of_nat <$> seq 0 (length (spike_clusters m))).
  { rewrite labelled_rows_fst by done.
    replace (sorted_keys arrays) with (sorted_keys spc)
      by (unfold sorted_keys; by rewrite Hdom).
    by rewrite concat_sorted_keys. }
  destruct (concatenate_with_spec (argsort Z.le) spc arrays)
    as (ps & Hres & Hperm & Hsorted).
  - intros Hempty. destruct (spike_clusters m) as [|c0 l] eqn:Hsc; [done|].
    specialize (Hlook c0). rewrite decide_True in Hlook by left.
    assert (Hc0 : c0 ∈ dom arrays).
    { rewrite Hdom. apply elem_of_dom. eauto. }
    rewrite Hempty in Hc0. by apply not_elem_of_empty in Hc0.
  - by rewrite Hdom.
  - intros c sp rws Hc Hrws. destruct (Harr c sp Hc) as (arr & Ha & Hrows).
    rewrite Ha in Hrws. injection Hrws as <-.
    destruct (Hsp c sp Hc) as [_ ->]. rewrite length_fmap.
    symmetry. by eapply Forall2_length.
  - rewrite Hfst. apply NoDup_fmap; [apply _|apply NoDup_seq].
  - apply argsort_is_argsort.
  - unfold _concatenate_per_cluster_arrays. rewrite Hres. f_equal.
    assert (Hdl : length data = length (spike_clusters m)).
    { apply Forall2_length in Hdata. by rewrite length_seq in Hdata. }
    apply sorted_rows_original; [done|by rewrite Hperm, Hdl|].
    intros sp_id r Hin. rewrite Hperm in Hin.
    apply elem_of_labelled_rows in Hin as (c & sp & rws & Hc & Hrws & Hz).
    destruct (Harr c sp Hc) as (arr & Ha & Hrows).
    rewrite Ha in Hrws. injection Hrws as <-.
    destruct (Hsp c sp Hc) as [_ ->].
    apply list_elem_of_lookup in Hz as [j Hj].
    apply lookup_zip_Some in Hj as [Hj1 Hj2].
    rewrite list_lookup_fmap in Hj1.
    apply fmap_Some in Hj1 as (i & Hi & ->).
    rewrite Nat2Z.id.
    pose proof (Forall2_lookup_lr _ _ _ _ _ _ Hrows Hi Hj2) as Hr.
    simpl in Hr.
    assert (Hilt : (i < length (spike_clusters m))%nat).
    { apply list_elem_of_lookup_2, elem_of_spikes_of in Hi.
      by eapply lookup_lt_Some. }
    destruct (data !! i) as [r'|] eqn:Hr'.
    + assert (Hseq : seq 0 (length (spike_clusters m)) !! i = Some i)
        by (by apply lookup_seq_lt).
      pose proof (Forall2_lookup_lr _ _ _ _ _ _ Hdata Hseq Hr') as Hr2.
      simpl in Hr2. congruence.
    + apply lookup_ge_None in Hr'. lia.
Qed.

Lemma store_all_clusters_round_trip_witness :
  ∃ s' data,
    store_all_clusters model_three_spikes true spc_three_spikes empty_state
    = (Ok tt, s')
    ∧ Forall2 (λ spike row, _data model_three_spikes "masks" spike = Ok row)
              (seq 0 (length (spike_clusters model_three_spikes))) data
    ∧ _concatenate_per_cluster_arrays spc_three_spikes
        (stored_rows (disk_store s') spc_three_spikes "masks")
      = Some data.
Proof.
  apply (store_all_clusters_round_trip model_three_spikes true
           spc_three_spikes empty_state "masks").
  - unfold wf_model. apply (bool_decide_eq_true_1 _). vm_compute. reflexivity.
  - discriminate.
  - apply (bool_decide_eq_true_1 _). vm_compute. reflexivity.
  - vm_compute. reflexivity.
  - unfold wf_disk. apply (bool_decide_eq_true_1 _). vm_compute. reflexivity.
  - intros c name _. apply lookup_empty.
  - apply (bool_decide_eq_true_1 _). vm_compute. reflexivity.
Defined.

(** *** A second pass *)

(** An entry that holds the data of the spikes of a cluster is kept when
    the data of the first or of the last of them is not blank. *)
Lemma entry_kept_data m name (spikes : list nat) arr shp :
  shape arr = shp → wf_ndarray arr →
  Forall2 (λ spike row, _data m name spike = Ok row) spikes (rows arr) →
  blank_data m name (head spikes) && blank_data m name (last spikes) = false →
  entry_kept shp (Some arr) = true.
Proof.
  intros Hshape Hwf Hrows Hblank. unfold entry_kept.
  rewrite bool_decide_true by done. simpl.
  pose proof (Forall2_last _ _ _ Hrows) as Hlast.
  unfold first_row, last_row.
  destruct Hrows as [|i r0 spikes' rows' Hr0 Hrest]; [by vm_compute in Hblank|].
  cbn [lookup list_lookup]. cbn [head] in Hblank.
  destruct (last (i :: spikes')) as [j|] eqn:Hj.
  2:{ by apply last_None in Hj. }
  inversion Hlast as [j' r1 Hr1 Hj' Hl|]; subst j'.
  unfold blank_data in Hblank. rewrite Hr0, Hr1 in Hblank.
  by rewrite Hblank.
Qed.

(** X21: on a well-shaped model and store, with an up-to-date mapping, when
    for both fields of every cluster the data of its first or of its last
    spike is not blank: the pass returns, and a second pass over the store it
    leaves returns too and changes neither the disk store nor the memory
    store, leaves no file open and warns of nothing. *)
Theorem store_all_clusters_twice m pr spikes_per_cluster s :
  wf_model m → up_to_date m spikes_per_cluster → wf_disk (disk_store s) →
  data_marked m spikes_per_cluster →
  ∃ s1 s2,
    store_all_clusters m pr spikes_per_cluster s = (Ok tt, s1)
    ∧ store_all_clusters m pr spikes_per_cluster s1 = (Ok tt, s2)
    ∧ disk_store s2 = disk_store s1
    ∧ memory_store s2 = memory_store s1
    ∧ handles s2 = handles s1
    ∧ warnings s2 = warnings s1.
Proof.
  intros Hm Hspc Hwf Hdata.
  destruct (store_all_clusters_post m pr spikes_per_cluster s Hm Hspc Hwf)
    as (ts & s0 & s1 & _ & Hrun1 & Hentries & Hmem1).
  assert (Hpop : populated m spikes_per_cluster (disk_store s1)).
  { intros c sp Hc. simpl. apply Forall_forall. intros name Hname.
    assert (Hcd : c ∈ dom spikes_per_cluster) by (apply elem_of_dom; eauto).
    destruct (Hentries c name Hcd Hname)
      as (b & arr & _ & Harr & Hshape & Hwfa & Hz).
    assert (Hsize : size_of spikes_per_cluster c = length sp).
    { unfold size_of. by rewrite lookup_fmap, Hc. }
    rewrite Harr, <- Hsize. destruct b; [|by destruct Hz].
    eapply entry_kept_data; [done..|].
    specialize (Hdata c sp Hc). simpl in Hdata.
    rewrite Forall_forall in Hdata. by apply Hdata. }
  destruct (pass_populated m pr spikes_per_cluster s1
              (proj2 (proj2 (proj2 Hm))) Hpop)
    as (s2 & Hrun2 & Hd & Hh & Hw & Hmem2).
  exists s1, s2. do 3 (split; [done|]). split; [|done].
  apply map_eq. intros c.
  destruct (decide (c ∈ dom spikes_per_cluster)) as [Hc|Hc].
  - destruct (Hmem1 c Hc) as (masks1 & f1 & Hm1 & Hf1 & ->).
    destruct (Hmem2 c Hc) as (masks2 & f2 & Hm2 & Hf2 & ->).
    congruence.
  - destruct (touches_only_store_all_clusters m pr spikes_per_cluster s1)
      as [_ Hmem].
    rewrite Hrun2 in Hmem. by apply Hmem.
Qed.

Lemma store_all_clusters_twice_witness :
  ∃ s1 s2,
    store_all_clusters model_three_spikes true spc_three_spikes empty_state
    = (Ok tt, s1)
    ∧ store_all_clusters model_three_spikes true spc_three_spikes s1
      = (Ok tt, s2)
    ∧ disk_store s2 = disk_store s1
    ∧ memory_store s2 = memory_store s1
    ∧ handles s2 = handles s1
    ∧ warnings s2 = warnings s1.
Proof.
  apply (store_all_clusters_twice model_three_spikes true spc_three_spikes
           empty_state).
  - unfold wf_model. apply (bool_decide_eq_true_1 _). vm_compute. reflexivity.
  - unfold up_to_date. apply (bool_decide_eq_true_1 _). vm_compute.
    reflexivity.
  - unfold wf_disk. apply (bool_decide_eq_true_1 _). vm_compute. reflexivity.
  - unfold data_marked. apply (bool_decide_eq_true_1 _). vm_compute.
    reflexivity.
Defined.

(** *** The calls on the progress reporter *)

Lemma emits_ret {A} (a : A) : emits (ret a) [].
Proof. intros s a' s' [= _ <-]. by rewrite app_nil_r. Qed.

Lemma emits_raise {A} e t : emits (@raise A e) t.
Proof. by intros s a' s' [=]. Qed.

Lemma emits_lift {A} (r : result A) : emits (lift r) [].
Proof. intros s a' s' [= _ <-]. by rewrite app_nil_r. Qed.

Lemma emits_bind {A B} (m : M A) (k : A → M B) t1 t2 :
  emits m t1 → (∀ a, emits (k a) t2) → emits (bind m k) (t1 ++ t2).
Proof.
  intros Hm Hk s b s'. unfold bind.
  destruct (m s) as [[a|e] s1] eqn:Hms; [|done]. intros Hks.
  rewrite (Hk a s1 b s' Hks), (Hm s a s1 Hms). by rewrite app_assoc.
Qed.

Lemma emits_bind_nil {A B} (m : M A) (k : A → M B) t :
  emits m [] → (∀ a, emits (k a) t) → emits (bind m k) t.
Proof. intros Hm Hk. by apply (emits_bind m k [] t). Qed.

Lemma emits_foldlM {A B} (f : B → A → M B) (t_of : A → list pr_call) l :
  (∀ b x, emits (f b x) (t_of x)) →
  ∀ b, emits (foldlM f b l) (concat (t_of <$> l)).
Proof.
  intros Hf. induction l as [|x l IH]; intros b; [apply emits_ret|].
  rewrite fmap_cons. cbn [concat foldlM]. apply emits_bind; [apply Hf|].
  apply IH.
Qed.

Lemma emits_foldlM_nil {A B} (f : B → A → M B) l :
  (∀ b x, emits (f b x) []) → ∀ b, emits (foldlM f b l) [].
Proof.
  intros Hf b.
  replace (@nil pr_call) with (concat ((λ _ : A, @nil pr_call) <$> l)).
  - by apply emits_foldlM.
  - induction l as [|x l IH]; [done|]. by rewrite fmap_cons.
Qed.

Lemma emits_report pr c : emits (report pr c) (if pr then [c] else []).
Proof.
  intros s a s'. unfold report. destruct pr; intros [= _ <-]; [done|].
  by rewrite app_nil_r.
Qed.

Lemma emits_same {A} (m : M A) :
  (∀ s, progress (m s).2 = progress s) → emits m [].
Proof.
  intros Hm s a s' Hs. specialize (Hm s). rewrite Hs in Hm.
  by rewrite app_nil_r.
Qed.

Lemma emits_disk_setitem c name i data :
  emits (disk_setitem c name i data) [].
Proof.
  unfold disk_setitem. apply emits_bind_nil; [by apply emits_same|].
  intros [arr|]; [|apply emits_raise].
  apply emits_bind_nil; [apply emits_lift|]. intros arr'.
  by apply emits_same.
Qed.

Lemma emits_prepare_file name c shp : emits (_prepare_file name c shp) [].
Proof.
  unfold _prepare_file. apply emits_bind_nil; [by apply emits_same|].
  intros arr. apply emits_bind_nil.
  - destruct arr as [arr|]; [|apply emits_ret].
    case_bool_decide; [|apply emits_ret].
    apply emits_bind_nil; [apply emits_lift|]. intros r0.
    apply emits_bind_nil.
    + destruct (all_zero r0); [|apply emits_ret].
      apply emits_bind_nil; [apply emits_lift|]. intros r1. apply emits_ret.
    + intros [|]; [|apply emits_ret].
      apply emits_bind_nil; [by apply emits_same|]. intros _. apply emits_ret.
  - intros [|]; [apply emits_ret|].
    apply emits_bind_nil; [by apply emits_same|]. intros _. apply emits_ret.
Qed.

Lemma emits_clusters_to_store m spc : emits (_clusters_to_store m spc) [].
Proof.
  unfold _clusters_to_store. apply emits_foldlM_nil. intros ts c.
  apply emits_bind_nil; [apply emits_prepare_file|]. intros b1.
  apply emits_bind_nil; [apply emits_prepare_file|]. intros b2.
  apply emits_ret.
Qed.

Lemma emits_store_field m ts c spike lv name :
  emits (store_field m ts c spike lv name) [].
Proof.
  unfold store_field. apply emits_bind_nil; [apply emits_lift|].
  intros [|]; [|apply emits_ret].
  apply emits_bind_nil; [apply emits_lift|]. intros data.
  apply emits_bind_nil.
  { unfold _arr. destruct (files lv !! (name, c)); [apply emits_ret|].
    apply emits_bind_nil; [by apply emits_same|]. intros f. apply emits_ret. }
  intros lv'. apply emits_bind_nil; [apply emits_disk_setitem|].
  intros _. apply emits_ret.
Qed.

Lemma emits_store_spike m pr ts lv it :
  emits (store_spike m pr ts lv it) (spike_report pr it).
Proof.
  unfold store_spike, spike_report. destruct it as [iteration spike].
  apply emits_bind_nil; [apply emits_lift|]. intros c.
  apply emits_bind_nil.
  { apply emits_foldlM_nil. intros lv' name. apply emits_store_field. }
  intros lv'. simpl.
  rewrite <- (app_nil_r (if pr && _ then _ else _)).
  apply emits_bind; [|intros; apply emits_ret].
  destruct (pr && _) eqn:Hpr; [|apply emits_ret].
  apply andb_true_iff in Hpr as [-> _]. apply (emits_report true).
Qed.

Lemma emits_store_extra m pr u c :
  emits (store_extra m pr u c)
        (if pr then [PrIncrement "masks_extra" 1] else []).
Proof.
  unfold store_extra. apply emits_bind_nil; [by apply emits_same|].
  intros features. apply emits_bind_nil; [by apply emits_same|].
  intros masks. apply emits_bind_nil; [|intros; apply emits_report].
  unfold _store_extra_fields. destruct masks; [|apply emits_raise].
  apply emits_bind_nil; [apply emits_lift|]. intros f. by apply emits_same.
Qed.

Lemma emits_close_all fs : emits (close_all fs) [].
Proof.
  apply emits_same. intros s. unfold close_all; simpl.
  by apply (map_fold_weak_ind
              (λ r (_ : gmap (string * Z) nat), progress r = progress s)).
Qed.

Lemma concat_replicate_singleton {A} (x : A) n :
  concat (replicate n [x]) = replicate n x.
Proof. induction n as [|n IH]; [done|]. simpl. by rewrite IH. Qed.

Lemma hundredths {A} (x : A) n :
  concat ((λ it, if bool_decide ((it mod 100)%nat = 0%nat) then [x] else [])
            <$> seq 0 n)
  = replicate ((n + 99) / 100)%nat x.
Proof.
  induction n as [|n IH]; [done|].
  rewrite seq_S, fmap_app, concat_app, IH, Nat.add_0_l.
  cbn [fmap list_fmap concat].
  pose proof (Nat.div_mod_eq n 100) as H1.
  pose proof (Nat.div_mod_eq (n + 99) 100) as H2.
  pose proof (Nat.div_mod_eq (S n + 99) 100) as H3.
  pose proof (Nat.mod_upper_bound n 100 ltac:(lia)) as H4.
  pose proof (Nat.mod_upper_bound (n + 99) 100 ltac:(lia)) as H5.
  pose proof (Nat.mod_upper_bound (S n + 99) 100 ltac:(lia)) as H6.
  case_bool_decide as Hmod.
  - replace ((S n + 99) / 100)%nat with (S ((n + 99) / 100))%nat by lia.
    rewrite app_nil_r. change [x] with (replicate 1 x).
    rewrite <- replicate_add. f_equal. lia.
  - rewrite !app_nil_r. f_equal. lia.
Qed.

Lemma length_sorted_keys {V} (d : gmap Z V) : length (sorted_keys d) = size d.
Proof.
  unfold sorted_keys. rewrite merge_sort_Permutation.
  by rewrite <- size_dom.
Qed.

(** X22: a pass that returns has told its progress reporter: the maxima,
    the number n of spikes of the flagged clusters and the number of
    clusters; then an increment of 100 for every hundredth spike, that is
    n / 100 rounded up of them; then an increment of 1 for every cluster. *)
Theorem store_all_clusters_progress m spikes_per_cluster s to_store s0 s' :
  _clusters_to_store m spikes_per_cluster s = (Ok to_store, s0) →
  store_all_clusters m true spikes_per_cluster s = (Ok tt, s') →
  let n := length (stored_spikes m to_store) in
  progress s'
  = progress s
    ++ PrSetMax n (size spikes_per_cluster)
    :: replicate ((n + 99) / 100)%nat (PrIncrement "features_masks" 100)
    ++ replicate (size spikes_per_cluster) (PrIncrement "masks_extra" 1).
Proof.
  intros Hcts Hrun n.
  unfold store_all_clusters, bind at 1 in Hrun. rewrite Hcts in Hrun.
  cbv zeta in Hrun. fold (stored_spikes m to_store) in Hrun. fold n in Hrun.
  pose proof (emits_clusters_to_store m spikes_per_cluster s _ _ Hcts) as H0.
  rewrite app_nil_r in H0. rewrite <- H0.
  refine (emits_bind _ _ [_] _ (emits_report true _) _ s0 tt s' Hrun).
  intros _. apply emits_bind.
  { assert (Ht : replicate ((n + 99) / 100)%nat
                         (PrIncrement "features_masks" 100)
                 = concat (spike_report true
                             <$> zip (seq 0 n) (stored_spikes m to_store))).
    { rewrite <- hundredths.
      rewrite <- (fst_zip (seq 0 n) (stored_spikes m to_store)) at 1
        by (rewrite length_seq; unfold n; lia).
      by rewrite <- list_fmap_compose. }
    rewrite Ht.
    apply (emits_foldlM _ (spike_report true)). intros lv it.
    apply emits_store_spike. }
  intros lv. rewrite <- (app_nil_r (replicate _ _)).
  apply emits_bind; [|intros; apply emits_close_all].
  rewrite <- concat_replicate_singleton, <- length_sorted_keys.
  rewrite <- (const_fmap (λ _ : Z, [PrIncrement "masks_extra" 1])) by done.
  apply (emits_foldlM _ (λ _, [PrIncrement "masks_extra" 1])).
  intros u c. apply (emits_store_extra m true).
Qed.

Lemma store_all_clusters_progress_witness :
  progress (store_all_clusters model_three_spikes true spc_three_spikes
              empty_state).2
  = [PrSetMax 3 2; PrIncrement "features_masks" 100;
     PrIncrement "masks_extra" 1; PrIncrement "masks_extra" 1].
Proof.
  assert (H1 : _clusters_to_store model_three_spikes spc_three_spikes
                 empty_state
               = (Ok match (_clusters_to_store model_three_spikes
                              spc_three_spikes empty_state).1 with
                     | Ok ts => ts
                     | Raise _ => ∅
                     end,
                  (_clusters_to_store model_three_spikes spc_three_spikes
                     empty_state).2)).
  { vm_compute. reflexivity. }
  assert (H2 : store_all_clusters model_three_spikes true spc_three_spikes
                 empty_state
               = (Ok tt, (store_all_clusters model_three_spikes true
                            spc_three_spikes empty_state).2)).
  { vm_compute. reflexivity. }
  rewrite (store_all_clusters_progress _ _ _ _ _ _ H1 H2).
  vm_compute. reflexivity.
Defined.

(** *** More on the extra fields and on the data of a spike *)

Lemma elem_of_unmasked (mm : list spec_float) c :
  c ∈ nonzero ((λ x, SFltb mask_threshold x) <$> mm)
  ↔ is_unmasked mm c = true.
Proof.
  rewrite elem_of_nonzero_fmap. unfold is_unmasked. split.
  - by intros (x & -> & Hx).
  - destruct (mm !! c) as [x|]; [eauto|done].
Qed.

(** X23: [main_channels] is the ranking of the specification, the unmasked
    channels by descending mean mask, sorted by channel index: the same
    channels, in another order. *)
Theorem main_channels_sorted_ranking m masks f :
  extra_fields_of m masks = Ok f →
  main_channels f = merge_sort le (main_channels_spec (mean_masks f))
  ∧ main_channels f ≡ₚ main_channels_spec (mean_masks f).
Proof.
  intros Hf.
  assert (Heq : main_channels f
                = merge_sort le (main_channels_spec (mean_masks f))).
  { unfold extra_fields_of in Hf.
    destruct (shape masks) as [|n [|ncols [|]]]; try discriminate.
    destruct (mul_column _ _); [|discriminate]. injection Hf as <-.
    cbn [main_channels mean_masks].
    unfold intersect1d, main_channels_spec.
    match goal with |- context [argsort np_float_le ?l] => set (mm := l) end.
    assert (Hnd : NoDup (reverse (argsort np_float_le mm))).
    { rewrite reverse_Permutation, argsort_Permutation. apply NoDup_seq. }
    apply (Sorted_unique le); [apply Sorted_merge_sort; apply _..|].
    rewrite !merge_sort_Permutation.
    apply NoDup_Permutation;
      [apply NoDup_remove_dups|by apply NoDup_filter|].
    intros c. rewrite elem_of_remove_dups, !list_elem_of_filter.
    by rewrite elem_of_unmasked. }
  split; [done|]. by rewrite Heq, merge_sort_Permutation.
Qed.

Lemma main_channels_sorted_ranking_witness :
  ∃ f, extra_fields_of model_two_channels masks_ranked = Ok f
       ∧ main_channels f = merge_sort le (main_channels_spec (mean_masks f))
       ∧ main_channels f ≡ₚ main_channels_spec (mean_masks f).
Proof.
  eexists. split; [vm_compute; reflexivity|].
  apply (main_channels_sorted_ranking model_two_channels masks_ranked).
  vm_compute. reflexivity.
Defined.

Lemma stride_from_lookup {A} step skip (a : list A) k :
  step ≠ 0%nat →
  stride_from step skip a !! k = a !! (skip + k * step)%nat.
Proof.
  intros Hstep. revert skip k.
  induction a as [|x t IH]; intros skip k; [by rewrite !lookup_nil|].
  cbn [stride_from]. destruct skip as [|j].
  - destruct k as [|k']; [done|]. cbn [lookup list_lookup]. rewrite IH.
    replace (0 + S k' * step)%nat with (S (step - 1 + k' * step)) by lia.
    done.
  - rewrite IH. done.
Qed.

(** X25: on a well-shaped model, [_data] of a field raises IndexError for a
    spike out of range; otherwise the features of a spike are the first components of
    its row of [features_masks], and its masks are, for each channel, the
    second component at the first feature of the channel. *)
Theorem data_of_spike m spike :
  wf_model m →
  match model_features_masks m !! spike with
  | None => ∀ name, name ∈ names → _data m name spike = Raise IndexError
  | Some fm_spike =>
    ∃ masks,
      _data m "masks" spike = Ok masks
      ∧ _data m "features" spike = Ok fm_spike.*1
      ∧ length masks = n_channels m
      ∧ ∀ channel, (channel < n_channels m)%nat →
          masks !! channel
          = snd <$> fm_spike !! (channel * nfeatures_per_channel m)%nat
  end.
Proof.
  intros (Hnf & _ & Hrows & _). unfold _data.
  destruct (model_features_masks m !! spike) as [fm_spike|] eqn:Hfm; [|done].
  assert (Hlen : length fm_spike
                 = (nfeatures_per_channel m * n_channels m)%nat).
  { eapply Forall_forall in Hrows; [exact Hrows|].
    by eapply list_elem_of_lookup_2. }
  rewrite (bool_decide_false ("masks" = "features")%string) by done.
  rewrite (bool_decide_true ("masks" = "masks")%string) by done.
  rewrite (bool_decide_true ("features" = "features")%string) by done.
  rewrite (bool_decide_false (nfeatures_per_channel m = 0%nat)) by done.
  rewrite <- Hlen, firstn_all.
  rewrite bool_decide_true by (by rewrite length_fmap).
  eexists. split; [done|]. split; [done|]. split.
  - rewrite length_fmap. by apply stride_length.
  - intros ch Hch. rewrite !list_lookup_fmap. unfold stride.
    by rewrite stride_from_lookup.
Qed.

Lemma data_of_spike_witness :
  ∃ masks,
    _data model_three_spikes "masks" 0 = Ok masks
    ∧ _data model_three_spikes "features" 0 = Ok [1 # 2; 3 # 2]%Q
    ∧ length masks = 2%nat
    ∧ ∀ channel, (channel < 2)%nat →
        masks !! channel
        = snd <$> [(1 # 2, 1 # 1); (3 # 2, 1 # 2)]%Q !! (channel * 1)%nat.
Proof.
  apply (data_of_spike model_three_spikes 0).
  unfold wf_model. apply (bool_decide_eq_true_1 _). vm_compute. reflexivity.
Defined.

(** ** The rows of the entries *)

Lemma data_slice m name spike row :
  wf_model m → name ∈ names → _data m name spike = Ok row →
  ∃ fm_spike, model_features_masks m !! spike = Some fm_spike
              ∧ row = slice_of m name fm_spike.
Proof.
  intros (Hnf & _ & Hrows & _) Hname. unfold _data, slice_of.
  destruct (model_features_masks m !! spike) as [fm_spike|] eqn:Hfm; [|done].
  assert (Hlen : length fm_spike
                 = (nfeatures_per_channel m * n_channels m)%nat).
  { eapply Forall_forall in Hrows; [exact Hrows|].
    by eapply list_elem_of_lookup_2. }
  rewrite <- Hlen, firstn_all. intros Hdata. exists fm_spike. split; [done|].
  apply elem_of_cons in Hname as [->|Hname].
  - rewrite (bool_decide_false ("masks" = "features")%string) in Hdata by done.
    rewrite (bool_decide_true ("masks" = "masks")%string) in Hdata |- * by done.
    rewrite (bool_decide_false (nfeatures_per_channel m = 0%nat)) in Hdata
      by done.
    injection Hdata as <-.
    apply list_eq_same_length with (n_channels m).
    + by rewrite length_fmap, length_seq.
    + rewrite length_fmap. by apply stride_length.
    + intros i x y Hi. rewrite !list_lookup_fmap. unfold stride.
      rewrite stride_from_lookup by done.
      rewrite lookup_seq_lt by done. simpl.
      destruct (fm_spike !! (i * nfeatures_per_channel m)%nat) as [[a b]|]
        eqn:Hlook; simpl.
      * congruence.
      * apply lookup_ge_None in Hlook. nia.
  - apply list_elem_of_singleton in Hname as ->.
    rewrite (bool_decide_true ("features" = "features")%string) in Hdata
      by done.
    rewrite (bool_decide_false ("features" = "masks")%string) by done.
    case_bool_decide; [|done]. by injection Hdata as <-.
Qed.

(** C4 (as stated, refuted): cluster 2 is marked, since its masks have no
    entry; its features have one, of the expected shape and not blank, which
    the pass keeps: after the pass its rows are not the features of the
    spikes of the cluster. *)
Lemma store_all_clusters_rows_counterexample :
  wf_model model_three_spikes
  ∧ up_to_date model_three_spikes spc_three_spikes
  ∧ wf_disk (disk_store state_features_kept)
  ∧ ∃ to_store s0 s' arr,
      _clusters_to_store model_three_spikes spc_three_spikes
        state_features_kept = (Ok to_store, s0)
      ∧ to_store_get to_store 2 "masks" = Ok true
      ∧ to_store_get to_store 2 "features" = Ok false
      ∧ 2 ∈ filter (λ cluster, needs_store to_store cluster = true)
                   (sorted_keys to_store)
      ∧ store_all_clusters model_three_spikes false spc_three_spikes
          state_features_kept = (Ok tt, s')
      ∧ spikes_of model_three_spikes 2 = [0; 2]%nat
      ∧ _data model_three_spikes "features" 0 = Ok [1 # 2; 3 # 2]%Q
      ∧ disk_store s' !! (2, "features"%string) = Some arr
      ∧ rows arr = [[9; 9]; [9; 9]]%Q
      ∧ ¬ holds_slices model_three_spikes 2 "features" arr.
Proof.
  split.
  { unfold wf_model. apply (bool_decide_eq_true_1 _). vm_compute. reflexivity. }
  split.
  { unfold up_to_date. apply (bool_decide_eq_true_1 _). vm_compute. reflexivity. }
  split.
  { unfold wf_disk. apply (bool_decide_eq_true_1 _). vm_compute. reflexivity. }
  eexists _, _, _, _. split; [vm_compute; reflexivity|].
  split; [vm_compute; reflexivity|]. split; [vm_compute; reflexivity|].
  split; [apply (bool_decide_eq_true_1 _); vm_compute; reflexivity|].
  split; [vm_compute; reflexivity|].
  split; [vm_compute; reflexivity|]. split; [vm_compute; reflexivity|].
  split; [vm_compute; reflexivity|]. split; [vm_compute; reflexivity|].
  unfold holds_slices. intros Hrows.
  assert (Hsp : spikes_of model_three_spikes 2 = [0; 2]%nat)
    by (vm_compute; reflexivity).
  rewrite Hsp in Hrows. simpl in Hrows.
  apply Forall2_cons_1 in Hrows as [(fm_spike & Hfm & Hrow) _].
  injection Hfm as <-. vm_compute in Hrow. discriminate.
Qed.

(** C4 (amended): on a well-shaped model and store, with a mapping that
    agrees with the model on the cluster sizes, the pass returns, and for
    every cluster of the mapping each of the two entries either was marked
    by [_clusters_to_store], and then its rows are, in ascending order of
    spike id, the slices of [features_masks] for the spikes of the cluster
    (so both arrays are when both entries were marked), or was not, and then
    it is the entry that was in the store before the call. *)
Theorem store_all_clusters_rows m pr spikes_per_cluster s :
  wf_model m → up_to_date m spikes_per_cluster → wf_disk (disk_store s) →
  ∃ to_store s0 s',
    _clusters_to_store m spikes_per_cluster s = (Ok to_store, s0)
    ∧ store_all_clusters m pr spikes_per_cluster s = (Ok tt, s')
    ∧ ∀ c, c ∈ dom spikes_per_cluster →
        StronglySorted lt (spikes_of m c)
        ∧ (∀ i, i ∈ spikes_of m c ↔ spike_clusters m !! i = Some c)
        ∧ ∀ name, name ∈ names →
            ∃ b arr, to_store_get to_store c name = Ok b
                     ∧ disk_store s' !! (c, name) = Some arr
                     ∧ if (b : bool) then holds_slices m c name arr
                       else disk_store s !! (c, name) = Some arr.
Proof.
  intros Hm Hspc Hwf.
  destruct (pass_rows_data m pr spikes_per_cluster s Hm Hspc Hwf)
    as (ts & s0 & s' & Hcts & Hrun & Hrows).
  exists ts, s0, s'. split; [done|]. split; [done|].
  assert (Hne : map_Forall (λ _ sp, sp ≠ @nil Z) spikes_per_cluster).
  { intros c sp Hsp. by destruct (Hspc c sp Hsp). }
  pose proof (clusters_to_store_full m spikes_per_cluster (disk_store s)
                Hne Hwf s eq_refl) as Hfull.
  rewrite Hcts in Hfull. destruct Hfull as (_ & _ & Hall & _).
  intros c Hc.
  split; [apply nonzero_from_sorted|]. split; [apply elem_of_spikes_of|].
  intros name Hname.
  destruct (Hall c name Hc Hname) as (b & arr0 & Hget & Harr0 & _ & Hb).
  destruct b.
  - destruct (Hrows c name Hname Hget) as (_ & _ & arr & Harr & Hdata).
    exists true, arr. split; [done|]. split; [done|].
    eapply Forall2_impl; [exact Hdata|].
    intros spike row Hrow. by eapply data_slice.
  - destruct Hb as [Hold _]. exists false, arr0. split; [done|].
    assert (Hnot : ¬ flagged ts (c, name)).
    { unfold flagged. simpl. congruence. }
    pose proof (unflagged_entries m pr spikes_per_cluster s ts s0 (c, name)
                  Hcts Hnot) as Hkeep.
    rewrite Hrun in Hkeep. simpl in Hkeep. by rewrite Hkeep.
Qed.

Lemma store_all_clusters_rows_witness :
  wf_model model_three_spikes
  ∧ up_to_date model_three_spikes spc_three_spikes
  ∧ wf_disk (disk_store state_features_kept)
  ∧ ∃ to_store s0 s',
      _clusters_to_store model_three_spikes spc_three_spikes
        state_features_kept = (Ok to_store, s0)
      ∧ store_all_clusters model_three_spikes true spc_three_spikes
          state_features_kept = (Ok tt, s')
      ∧ ∀ c, c ∈ dom spc_three_spikes →
          StronglySorted lt (spikes_of model_three_spikes c)
          ∧ (∀ i, i ∈ spikes_of model_three_spikes c
                  ↔ spike_clusters model_three_spikes !! i = Some c)
          ∧ ∀ name, name ∈ names →
              ∃ b arr, to_store_get to_store c name = Ok b
                       ∧ disk_store s' !! (c, name) = Some arr
                       ∧ if (b : bool)
                         then holds_slices model_three_spikes c name arr
                         else disk_store state_features_kept !! (c, name)
                              = Some arr.
Proof.
  assert (Hm : wf_model model_three_spikes).
  { unfold wf_model. apply (bool_decide_eq_true_1 _). vm_compute. reflexivity. }
  assert (Hspc : up_to_date model_three_spikes spc_three_spikes).
  { unfold up_to_date. apply (bool_decide_eq_true_1 _). vm_compute. reflexivity. }
  assert (Hd : wf_disk (disk_store state_features_kept)).
  { unfold wf_disk. apply (bool_decide_eq_true_1 _). vm_compute. reflexivity. }
  split; [exact Hm|]. split; [exact Hspc|]. split; [exact Hd|].
  exact (store_all_clusters_rows model_three_spikes true spc_three_spikes
           state_features_kept Hm Hspc Hd).
Defined.
